(** * SlimClaw: the agent-turn engine, its context preparer and its session log

    A shallow embedding of the TypeScript sources
    - [src/session.ts]  (messages, content blocks, the JSONL session log, the
                        listing of sessions),
    - [src/context.ts]  (history limiting, tool-result truncation, orphan cleanup),
    - [src/tools.ts]    (tool-result truncation, the file tools),
    - [src/agent.ts]    (provider adapters, tool dispatch, the agent loop),
    - [src/subagent.ts] (sub-agents),
    - [src/memory.ts]   (the chunks of a memory file),
    followed by the properties stated about them.

    Conventions of the embedding.
    - JavaScript numbers that the code uses as integers (lengths, indices,
      limits, timestamps) are [Z].
    - JavaScript strings are [string]; a character of the model is one code
      unit, so the model covers the code units below 256.
    - A JavaScript value that went through [JSON.parse] is a [json] tree.
    - A call that may throw returns an [outcome]. *)

From Stdlib Require Import ZArith String Ascii List Lia Bool.
From stdpp Require Import gmap strings list.

Open Scope string_scope.
Open Scope list_scope.
Open Scope stdpp_scope.
Open Scope Z_scope.

(* ===================================================================== *)
(** * JavaScript values and strings                                         *)
(* ===================================================================== *)

(** Values in the image of [JSON.parse]. An object is the list of its
    properties in enumeration order. Numbers are the integral ones, and the
    two infinite ones, [Infinity] and [-Infinity], which [JSON.parse] gives
    for a number literal beyond the range of the numbers (as for [1e999]). *)
#[local] Unset Elimination Schemes.
Inductive json : Type :=
  | JNull
  | JBool (b : bool)
  | JNum (n : Z)
  | JInfinity (negative : bool)
  | JStr (s : string)
  | JArr (items : list json)
  | JObj (props : list (string * json)).
#[local] Set Elimination Schemes.

(** What a [throw] carries: an [Error] with its message, or any other value,
    kept as the string that [String(err)] gives. *)
Inductive thrown : Type :=
  | ErrorObject (message : string)
  | OtherValue (shown : string).

(** The result of running a piece of JavaScript that may throw. *)
Inductive outcome (A : Type) : Type :=
  | Returned (a : A)
  | Threw (e : thrown).
Arguments Returned {A} a.
Arguments Threw {A} e.

(** [s.length] *)
Definition str_length (s : string) : Z := Z.of_nat (String.length s).

(** [s.slice(b, e)]: negative positions count from the end, both are clamped
    to the string. *)
Definition slice (s : string) (b e : Z) : string :=
  let len := str_length s in
  let from := if b <? 0 then Z.max (len + b) 0 else Z.min b len in
  let to := if e <? 0 then Z.max (len + e) 0 else Z.min e len in
  substring (Z.to_nat from) (Z.to_nat (Z.max (to - from) 0)) s.

(** Left-to-right scan behind [lastIndexOf]: [i] is the index of the head of
    [s], [found] the last match seen at an index not above [limit]. *)
Fixpoint lastIndexOf_scan (c : ascii) (s : string) (i limit found : Z) : Z :=
  match s with
  | EmptyString => found
  | String a s' =>
      lastIndexOf_scan c s' (i + 1) limit
        (if Ascii.eqb a c && (i <=? limit) then i else found)
  end.

(** [s.lastIndexOf(c, position)] for a one-character search string: the
    greatest index [<= max(position, 0)] holding [c], or [-1]. *)
Definition lastIndexOf (s : string) (c : ascii) (position : Z) : Z :=
  lastIndexOf_scan c s 0 (Z.max position 0) (-1).

Definition newline : ascii := "010"%char.

Definition digit_char (d : Z) : ascii := ascii_of_nat (48 + Z.to_nat d).
Arguments digit_char : simpl never.

(** Decimal digits of a non-negative integer, most significant first, put in
    front of [acc]. *)
Fixpoint decimal_digits (fuel : nat) (n : Z) (acc : string) : string :=
  match fuel with
  | O => acc
  | S fuel' =>
      let acc' := String (digit_char (n mod 10)) acc in
      if n / 10 =? 0 then acc' else decimal_digits fuel' (n / 10) acc'
  end.

(** [String(n)], and [${n}] in a template literal, for an integer [n]. *)
Definition Number_toString (n : Z) : string :=
  if n <? 0
  then String "-" (decimal_digits (S (Z.to_nat (Z.log2 (- n)))) (- n) "")
  else decimal_digits (S (Z.to_nat (Z.log2 n))) n "".


(* ===================================================================== *)
(** * JSON.stringify and JSON.parse                                        *)
(* ===================================================================== *)

(** The two built-ins, for the values of [json]: [stringify] writes no white
    space, escapes the double quote, the backslash and the control characters
    inside strings, and lists the properties of an object in order; [parse]
    accepts the JSON grammar with integer number literals, lets a repeated
    key keep its first position and take its last value, and gives [None] on
    anything else: where the built-in throws a [SyntaxError], and on the
    texts that hold what [json] has no value for (a number with a fraction
    or an exponent, an escaped code unit from 256 on). [plain] tells the
    texts on which [None] is a [SyntaxError]. *)
Module JSON.

Definition dquote : ascii := "034"%char.
Definition backslash : ascii := "092"%char.

Definition code (c : ascii) : Z := Z.of_N (N_of_ascii c).

Definition is_digit (c : ascii) : bool := (48 <=? code c) && (code c <=? 57).

Definition is_ws (c : ascii) : bool :=
  (code c =? 32) || (code c =? 9) || (code c =? 10) || (code c =? 13).

Definition hex_char (d : Z) : ascii :=
  if d <? 10 then ascii_of_nat (48 + Z.to_nat d)
  else ascii_of_nat (87 + Z.to_nat d).

Definition hex_value (c : ascii) : option Z :=
  let n := code c in
  if (48 <=? n) && (n <=? 57) then Some (n - 48)
  else if (97 <=? n) && (n <=? 102) then Some (n - 87)
  else if (65 <=? n) && (n <=? 70) then Some (n - 55)
  else None.

(** How [stringify] writes one character of a string. *)
Definition quote_char (c : ascii) : list ascii :=
  let n := code c in
  if n =? 34 then [backslash; dquote]
  else if n =? 92 then [backslash; backslash]
  else if n =? 8 then [backslash; "b"%char]
  else if n =? 12 then [backslash; "f"%char]
  else if n =? 10 then [backslash; "n"%char]
  else if n =? 13 then [backslash; "r"%char]
  else if n =? 9 then [backslash; "t"%char]
  else if n <? 32 then
    [backslash; "u"%char; "0"%char; "0"%char; hex_char (n / 16); hex_char (n mod 16)]
  else [c].

Definition quote (s : string) : list ascii :=
  dquote :: flat_map quote_char (list_ascii_of_string s) ++ [dquote].

Fixpoint print (v : json) : list ascii :=
  match v with
  | JNull => list_ascii_of_string "null"
  | JBool true => list_ascii_of_string "true"
  | JBool false => list_ascii_of_string "false"
  | JNum n => list_ascii_of_string (Number_toString n)
  | JInfinity _ => list_ascii_of_string "null"
  | JStr s => quote s
  | JArr items =>
      "["%char ::
      (fix print_items (l : list json) : list ascii :=
         match l with
         | [] => []
         | x :: rest =>
             print x ++
             match rest with
             | [] => []
             | _ :: _ => ","%char :: print_items rest
             end
         end) items ++ ["]"%char]
  | JObj props =>
      "{"%char ::
      (fix print_props (l : list (string * json)) : list ascii :=
         match l with
         | [] => []
         | (k, x) :: rest =>
             quote k ++ ":"%char :: print x ++
             match rest with
             | [] => []
             | _ :: _ => ","%char :: print_props rest
             end
         end) props ++ ["}"%char]
  end.

(** The two loops of [print], by their own names. *)
Fixpoint print_items (l : list json) : list ascii :=
  match l with
  | [] => []
  | x :: rest =>
      print x ++
      match rest with
      | [] => []
      | _ :: _ => ","%char :: print_items rest
      end
  end.

Fixpoint print_props (l : list (string * json)) : list ascii :=
  match l with
  | [] => []
  | (k, x) :: rest =>
      quote k ++ ":"%char :: print x ++
      match rest with
      | [] => []
      | _ :: _ => ","%char :: print_props rest
      end
  end.

(** [JSON.stringify(v)] *)
Definition stringify (v : json) : string := string_of_list_ascii (print v).

(** A value of [json] stands for a JavaScript value that JSON holds when no
    object in it lists a key twice and no number in it is infinite. *)
Fixpoint well_formed (v : json) : Prop :=
  match v with
  | JInfinity _ => False
  | JArr items =>
      (fix all (l : list json) : Prop :=
         match l with
         | [] => True
         | x :: rest => well_formed x /\ all rest
         end) items
  | JObj props =>
      NoDup (map fst props) /\
      (fix all (l : list (string * json)) : Prop :=
         match l with
         | [] => True
         | (_, x) :: rest => well_formed x /\ all rest
         end) props
  | _ => True
  end.

(** Rounds of recursion that reading back the text of a value takes. *)
Fixpoint depth (v : json) : nat :=
  match v with
  | JArr items =>
      S ((fix go (l : list json) : nat :=
            match l with
            | [] => O
            | x :: rest => S (Nat.max (depth x) (go rest))
            end) items)
  | JObj props =>
      S ((fix go (l : list (string * json)) : nat :=
            match l with
            | [] => O
            | (_, x) :: rest => S (Nat.max (depth x) (go rest))
            end) props)
  | _ => 1%nat
  end.

Fixpoint skip_ws (s : list ascii) : list ascii :=
  match s with
  | c :: r => if is_ws c then skip_ws r else s
  | [] => []
  end.

Fixpoint strip_prefix (p s : list ascii) : option (list ascii) :=
  match p, s with
  | [], _ => Some s
  | a :: p', b :: s' => if Ascii.eqb a b then strip_prefix p' s' else None
  | _ :: _, [] => None
  end.

(** The characters of a string literal after its opening quote. *)
Fixpoint parse_string (s : list ascii) : option (string * list ascii) :=
  match s with
  | [] => None
  | c :: r =>
      if code c =? 34 then Some ("", r)
      else if code c =? 92 then
        match r with
        | [] => None
        | e :: r' =>
            let continue (c' : ascii) :=
              match parse_string r' with
              | Some (str, rest) => Some (String c' str, rest)
              | None => None
              end in
            if code e =? 34 then continue dquote
            else if code e =? 92 then continue backslash
            else if code e =? 47 then continue "/"%char
            else if code e =? 98 then continue "008"%char
            else if code e =? 102 then continue "012"%char
            else if code e =? 110 then continue "010"%char
            else if code e =? 114 then continue "013"%char
            else if code e =? 116 then continue "009"%char
            else if code e =? 117 then
              match r' with
              | h1 :: h2 :: h3 :: h4 :: r'' =>
                  match hex_value h1, hex_value h2, hex_value h3, hex_value h4 with
                  | Some d1, Some d2, Some d3, Some d4 =>
                      let n := ((d1 * 16 + d2) * 16 + d3) * 16 + d4 in
                      if n <? 256 then
                        match parse_string r'' with
                        | Some (str, rest) =>
                            Some (String (ascii_of_nat (Z.to_nat n)) str, rest)
                        | None => None
                        end
                      else None
                  | _, _, _, _ => None
                  end
              | _ => None
              end
            else None
        end
      else if code c <? 32 then None
      else
        match parse_string r with
        | Some (str, rest) => Some (String c str, rest)
        | None => None
        end
  end.

Fixpoint parse_digits (s : list ascii) (acc : Z) : Z * list ascii :=
  match s with
  | c :: r => if is_digit c then parse_digits r (10 * acc + (code c - 48))
              else (acc, s)
  | [] => (acc, [])
  end.

Definition parse_int (s : list ascii) : option (Z * list ascii) :=
  match s with
  | c :: r =>
      if is_digit c then
        if code c =? 48 then Some (0, r) else Some (parse_digits r (code c - 48))
      else None
  | [] => None
  end.

(** An integer with its sign. *)
Definition parse_signed (s : list ascii) : option (Z * list ascii) :=
  match s with
  | c :: r =>
      if code c =? 45 then
        match parse_int r with
        | Some (n, rest) => Some (- n, rest)
        | None => None
        end
      else parse_int s
  | [] => None
  end.

(** Whether a fraction or an exponent follows. *)
Definition continues_number (rest : list ascii) : bool :=
  match rest with
  | c :: _ => (code c =? 46) || (code c =? 101) || (code c =? 69)
  | [] => false
  end.

(** An integer literal; a fraction or an exponent is outside the model. *)
Definition parse_number (s : list ascii) : option (Z * list ascii) :=
  match parse_signed s with
  | Some (n, rest) => if continues_number rest then None else Some (n, rest)
  | None => None
  end.

(** Setting a property while an object is read: a key met again keeps the
    place of its first occurrence and takes the later value. [later] holds
    the properties read after [(k, v)]. *)
Fixpoint remove_key (k : string) (props : list (string * json))
  : list (string * json) :=
  match props with
  | [] => []
  | (k', v) :: rest =>
      if String.eqb k k' then remove_key k rest else (k', v) :: remove_key k rest
  end.

Fixpoint last_value (k : string) (props : list (string * json)) (found : option json)
  : option json :=
  match props with
  | [] => found
  | (k', v) :: rest =>
      last_value k rest (if String.eqb k k' then Some v else found)
  end.

Definition add_property (k : string) (v : json) (later : list (string * json))
  : list (string * json) :=
  match last_value k later None with
  | Some v' => (k, v') :: remove_key k later
  | None => (k, v) :: later
  end.

Fixpoint parse_value (fuel : nat) (s : list ascii) {struct fuel}
  : option (json * list ascii) :=
  match fuel with
  | O => None
  | S fuel' =>
      match skip_ws s with
      | [] => None
      | c :: r =>
          if code c =? 110 then
            match strip_prefix (list_ascii_of_string "ull") r with
            | Some rest => Some (JNull, rest)
            | None => None
            end
          else if code c =? 116 then
            match strip_prefix (list_ascii_of_string "rue") r with
            | Some rest => Some (JBool true, rest)
            | None => None
            end
          else if code c =? 102 then
            match strip_prefix (list_ascii_of_string "alse") r with
            | Some rest => Some (JBool false, rest)
            | None => None
            end
          else if code c =? 34 then
            match parse_string r with
            | Some (str, rest) => Some (JStr str, rest)
            | None => None
            end
          else if code c =? 91 then
            match skip_ws r with
            | [] => None
            | c' :: r' =>
                if code c' =? 93 then Some (JArr [], r')
                else
                  match parse_items fuel' (c' :: r') with
                  | Some (items, rest) => Some (JArr items, rest)
                  | None => None
                  end
            end
          else if code c =? 123 then
            match skip_ws r with
            | [] => None
            | c' :: r' =>
                if code c' =? 125 then Some (JObj [], r')
                else
                  match parse_props fuel' (c' :: r') with
                  | Some (props, rest) => Some (JObj props, rest)
                  | None => None
                  end
            end
          else
            match parse_number (c :: r) with
            | Some (n, rest) => Some (JNum n, rest)
            | None => None
            end
      end
  end

with parse_items (fuel : nat) (s : list ascii) {struct fuel}
  : option (list json * list ascii) :=
  match fuel with
  | O => None
  | S fuel' =>
      match parse_value fuel' s with
      | None => None
      | Some (v, r) =>
          match skip_ws r with
          | [] => None
          | c :: r' =>
              if code c =? 44 then
                match parse_items fuel' r' with
                | Some (items, rest) => Some (v :: items, rest)
                | None => None
                end
              else if code c =? 93 then Some ([v], r')
              else None
          end
      end
  end

with parse_props (fuel : nat) (s : list ascii) {struct fuel}
  : option (list (string * json) * list ascii) :=
  match fuel with
  | O => None
  | S fuel' =>
      match skip_ws s with
      | [] => None
      | q :: r =>
          if code q =? 34 then
            match parse_string r with
            | None => None
            | Some (k, r1) =>
                match skip_ws r1 with
                | [] => None
                | colon :: r2 =>
                    if code colon =? 58 then
                      match parse_value fuel' r2 with
                      | None => None
                      | Some (v, r3) =>
                          match skip_ws r3 with
                          | [] => None
                          | c :: r4 =>
                              if code c =? 44 then
                                match parse_props fuel' r4 with
                                | Some (later, rest) =>
                                    Some (add_property k v later, rest)
                                | None => None
                                end
                              else if code c =? 125 then Some ([(k, v)], r4)
                              else None
                          end
                      end
                    else None
                end
            end
          else None
      end
  end.

(** [JSON.parse(text)]; [None] when it throws a [SyntaxError], and when the
    text holds a value outside [json]. *)
Definition parse (text : string) : option json :=
  let s := list_ascii_of_string text in
  match parse_value (S (length s)) s with
  | Some (v, rest) =>
      match skip_ws rest with
      | [] => Some v
      | _ :: _ => None
      end
  | None => None
  end.

Fixpoint depth_items (l : list json) : nat :=
  match l with
  | [] => O
  | x :: rest => S (Nat.max (depth x) (depth_items rest))
  end.

Fixpoint depth_props (l : list (string * json)) : nat :=
  match l with
  | [] => O
  | (_, x) :: rest => S (Nat.max (depth x) (depth_props rest))
  end.

(** What may follow a value in a text: nothing, or a character that cannot
    continue a number literal. *)
Definition delimits (rest : list ascii) : Prop :=
  match rest with
  | [] => True
  | c :: _ =>
      is_digit c = false /\ code c <> 46 /\ code c <> 101 /\ code c <> 69
  end.


(** The texts that [parse] reads as the built-in does, up to the numbers it
    finds. [parse] gives up, where the built-in goes on, in two places: at
    a [u] escape of a code unit from 256 on and at the fraction or the
    exponent of a number literal. A text in which no backslash stands before
    a [u] and no digit before a point, an [e] or an [E] leads to neither, so
    on such a text [None] is a [SyntaxError] of the built-in. *)
Fixpoint plain (s : list ascii) : bool :=
  match s with
  | c :: r =>
      match r with
      | c' :: _ =>
          negb ((code c =? 92) && (code c' =? 117)) &&
          negb (is_digit c &&
                ((code c' =? 46) || (code c' =? 101) || (code c' =? 69))) &&
          plain r
      | [] => true
      end
  | [] => true
  end.

End JSON.

(** What is proved of every value: its text, followed by anything that
    delimits it, reads back as the value and leaves what followed. *)
Definition reads_back (v : json) : Prop :=
  JSON.well_formed v ->
  forall fuel rest,
    (JSON.depth v <= fuel)%nat -> JSON.delimits rest ->
    JSON.parse_value fuel (JSON.print v ++ rest) = Some (v, rest).


(* ===================================================================== *)
(** * session.ts: the canonical conversation model                         *)
(* ===================================================================== *)

Inductive Role : Type := user | assistant.

Inductive ContentBlock : Type :=
  | text_block (text : string)
  | tool_use_block (id name : string) (input : json)
  | tool_result_block (tool_use_id content : string).

(** [content: string | ContentBlock[]] *)
Inductive Content : Type :=
  | Str (s : string)
  | Blocks (blocks : list ContentBlock).

Record Message : Type := { role : Role; content : Content }.

Definition is_user (m : Message) : bool :=
  match role m with user => true | assistant => false end.

Definition is_tool_result (b : ContentBlock) : bool :=
  match b with tool_result_block _ _ => true | _ => false end.

(** The JavaScript values behind the typed view: what [JSON.stringify]
    sees of a role, a block, a content. *)
Definition Role_value (r : Role) : json :=
  JStr (match r with user => "user" | assistant => "assistant" end).

Definition ContentBlock_value (b : ContentBlock) : json :=
  match b with
  | text_block t => JObj [("type", JStr "text"); ("text", JStr t)]
  | tool_use_block i n input =>
      JObj [("type", JStr "tool_use"); ("id", JStr i); ("name", JStr n);
            ("input", input)]
  | tool_result_block tid c =>
      JObj [("type", JStr "tool_result"); ("tool_use_id", JStr tid);
            ("content", JStr c)]
  end.

Definition Content_value (c : Content) : json :=
  match c with
  | Str s => JStr s
  | Blocks blocks => JArr (map ContentBlock_value blocks)
  end.

Record Session : Type :=
  { session_id : string; session_messages : list Message;
    session_filePath : string }.

(** What the code reaches outside itself: the home directory, the files (a
    path to its contents), and the answers that successive calls of
    [Date.now()] and [randomUUID()] give. *)
Record World : Type :=
  { home : string; files : gmap string string;
    clock : nat -> Z; uuids : nat -> string; ticks : nat }.

Definition with_files (w : World) (fs : gmap string string) : World :=
  {| home := home w; files := fs; clock := clock w; uuids := uuids w;
     ticks := ticks w |}.

Definition tick (w : World) : World :=
  {| home := home w; files := files w; clock := clock w; uuids := uuids w;
     ticks := S (ticks w) |}.

Definition Date_now (w : World) : Z * World := (clock w (ticks w), tick w).
Definition randomUUID (w : World) : string * World := (uuids w (ticks w), tick w).

Definition writeFileSync (path data : string) (w : World) : World :=
  with_files w (<[ path := data ]> (files w)).

Definition appendFileSync (path data : string) (w : World) : World :=
  with_files w (<[ path := default "" (files w !! path) +:+ data ]> (files w)).

Definition line_feed : string := String "010"%char "".

(** [join(homedir(), ".slimclaw", "sessions", `${id}.jsonl`)] *)
Definition sessionFilePath (w : World) (id : string) : string :=
  home w +:+ "/.slimclaw/sessions/" +:+ id +:+ ".jsonl".

(** The [SessionEntry] that heads the file. *)
Definition SessionEntry (sessionId : string) (createdAt : Z) : json :=
  JObj [("type", JStr "session"); ("id", JStr sessionId);
        ("createdAt", JNum createdAt)].

(** The [MessageEntry] written for a message. *)
Definition MessageEntry (message : Message) (timestamp : Z) : json :=
  JObj [("type", JStr "message"); ("role", Role_value (role message));
        ("content", Content_value (content message));
        ("timestamp", JNum timestamp)].

Definition createSession (id : option string) (w : World) : Session * World :=
  let '(sessionId, w) :=
    match id with
    | Some i => (i, w)
    | None => randomUUID w
    end in
  let filePath := sessionFilePath w sessionId in
  let '(createdAt, w) := Date_now w in
  let header := SessionEntry sessionId createdAt in
  let w := writeFileSync filePath (JSON.stringify header +:+ line_feed) w in
  ({| session_id := sessionId; session_messages := [];
      session_filePath := filePath |}, w).

Definition appendMessage (session : Session) (message : Message) (w : World)
  : Session * World :=
  let session :=
    {| session_id := session_id session;
       session_messages := session_messages session ++ [message];
       session_filePath := session_filePath session |} in
  let '(timestamp, w) := Date_now w in
  let entry := MessageEntry message timestamp in
  (session,
   appendFileSync (session_filePath session)
     (JSON.stringify entry +:+ line_feed) w).

(** White space for [trim]. *)
Definition is_space (c : ascii) : bool :=
  let n := JSON.code c in
  ((9 <=? n) && (n <=? 13)) || (n =? 32) || (n =? 160).

Fixpoint trimStart (s : string) : string :=
  match s with
  | String c r => if is_space c then trimStart r else s
  | EmptyString => EmptyString
  end.

Fixpoint trimEnd (s : string) : string :=
  match s with
  | String c r =>
      match trimEnd r with
      | EmptyString => if is_space c then EmptyString else String c EmptyString
      | r' => String c r'
      end
  | EmptyString => EmptyString
  end.

(** [s.trim()] *)
Definition trim (s : string) : string := trimEnd (trimStart s).

(** [s.split(/\r?\n/)] *)
Fixpoint split_lines (s : string) : list string :=
  match s with
  | EmptyString => [EmptyString]
  | String c r =>
      let plain :=
        match split_lines r with
        | l :: ls => String c l :: ls
        | [] => [String c EmptyString]
        end in
      if JSON.code c =? 10 then EmptyString :: split_lines r
      else if JSON.code c =? 13 then
        match r with
        | String c' r' =>
            if JSON.code c' =? 10 then EmptyString :: split_lines r' else plain
        | EmptyString => plain
        end
      else plain
  end.

(** [value[key]] for the keys the code reads ([type], [role], [content]):
    reading a property of [null] throws, an object gives the property or
    [undefined] ([None]), any other value of [json] gives [undefined]. *)
Fixpoint lookup_property (key : string) (props : list (string * json))
  : option json :=
  match props with
  | [] => None
  | (k, v) :: rest => if String.eqb k key then Some v else lookup_property key rest
  end.

Definition property (value : json) (key : string) : outcome (option json) :=
  match value with
  | JNull => Threw (ErrorObject "Cannot read properties of null")
  | JObj props => Returned (lookup_property key props)
  | _ => Returned None
  end.

(** A message as [loadSession] builds it. The cast [as JournalEntry] checks
    nothing, so [role] and [content] are whatever the stored line holds. *)
Record StoredMessage : Type :=
  { stored_role : option json; stored_content : option json }.

Record LoadedSession : Type :=
  { loaded_id : string; loaded_messages : list StoredMessage;
    loaded_filePath : string }.

(** The stored form of a typed message. *)
Definition stored (m : Message) : StoredMessage :=
  {| stored_role := Some (Role_value (role m));
     stored_content := Some (Content_value (content m)) |}.

(** One turn of the loop of [loadSession]; the [try] catches the
    [SyntaxError] of [JSON.parse] and the [TypeError] of [entry.type]. *)
Definition loadLine (messages : list StoredMessage) (line : string)
  : list StoredMessage :=
  match trim line with
  | EmptyString => messages
  | _ =>
      match JSON.parse line with
      | None => messages
      | Some entry =>
          match property entry "type" with
          | Threw _ => messages
          | Returned (Some (JStr "message")) =>
              match property entry "role", property entry "content" with
              | Returned r, Returned c =>
                  messages ++ [ {| stored_role := r; stored_content := c |} ]
              | _, _ => messages
              end
          | Returned _ => messages
          end
      end
  end.

Definition loadSession (id : string) (w : World) : outcome LoadedSession :=
  let filePath := sessionFilePath w id in
  match files w !! filePath with
  | None => Threw (ErrorObject ("Session not found: " +:+ id))
  | Some raw =>
      let lines := split_lines (trim raw) in
      let messages := fold_left loadLine lines [] in
      Returned {| loaded_id := id; loaded_messages := messages;
                  loaded_filePath := filePath |}
  end.

(** ** Writing to the session file *)

(** What gets written to the file of a session once it is created: a message
    through [appendMessage], or a line of text put there by other means. *)
Inductive Write : Type :=
  | write_message (m : Message)
  | write_line (line : string).

Definition perform (acc : Session * World) (wr : Write) : Session * World :=
  let '(s, w) := acc in
  match wr with
  | write_message m => appendMessage s m w
  | write_line line =>
      (s, appendFileSync (session_filePath s) (line +:+ line_feed) w)
  end.


Definition written_messages (writes : list Write) : list Message :=
  flat_map (fun wr => match wr with
                      | write_message m => [m]
                      | write_line _ => []
                      end) writes.

Fixpoint unlines (lines : list string) : string :=
  match lines with
  | [] => ""
  | l :: rest => l +:+ line_feed +:+ unlines rest
  end.

Fixpoint no_line_break (s : string) : Prop :=
  match s with
  | EmptyString => True
  | String c r => JSON.code c <> 10 /\ JSON.code c <> 13 /\ no_line_break r
  end.

(** A line of the file as the loader will see it: one line, not empty,
    without white space at its end. *)
Definition proper_line (line : string) : Prop :=
  no_line_break line /\ line <> "" /\ trimEnd line = line.

(** A stored line for which [JSON.parse] gives [None]. *)
Definition corrupt_line (line : string) : Prop :=
  proper_line line /\ JSON.parse line = None.

(** The tool inputs of a message stand for JavaScript values that JSON
    holds. *)
Definition Message_well_formed (m : Message) : Prop :=
  match content m with
  | Str _ => True
  | Blocks blocks =>
      Forall (fun b => match b with
                       | tool_use_block _ _ input => JSON.well_formed input
                       | _ => True
                       end) blocks
  end.

Definition proper_write (wr : Write) : Prop :=
  match wr with
  | write_message m => Message_well_formed m
  | write_line line => corrupt_line line
  end.





(* ===================================================================== *)
(** * context.ts: the context preparer                                     *)
(* ===================================================================== *)

Definition HARD_MAX_TOOL_RESULT_CHARS : Z := 400000.
Definition MIN_KEEP_CHARS : Z := 2000.

(** The suffix that [truncateText] appends. *)
Definition truncation_marker (cutAt len : Z) : string :=
  String newline (String newline "[Truncated: showing first ")
  +:+ Number_toString cutAt +:+ " of " +:+ Number_toString len
  +:+ " characters]".

(** [truncateText(text, maxChars)]. [Math.floor(keepChars * 0.8)] is
    [keepChars * 4 / 5]: the double product differs from the exact one by less
    than the distance to the next integer for every length a string can
    have. *)
Definition truncateText (text : string) (maxChars : Z) : string :=
  if str_length text <=? maxChars then text
  else
    let keepChars := Z.max MIN_KEEP_CHARS (maxChars - 100) in
    let searchEnd := keepChars * 4 / 5 in
    let lastNewline := lastIndexOf text newline keepChars in
    let cutAt := if lastNewline >? searchEnd then lastNewline else keepChars in
    slice text 0 cutAt +:+ truncation_marker cutAt (str_length text).

(** The backward loop of [limitHistoryTurns], run on the messages in reverse:
    the head [m] is [messages[i]] with [i = length rest]. The result is
    [cutIndex]. *)
Fixpoint scanBack (reversed : list Message) (userCount maxTurns : Z) : nat :=
  match reversed with
  | [] => 0%nat
  | m :: rest =>
      if is_user m then
        let userCount' := userCount + 1 in
        if userCount' >? maxTurns then S (length rest)
        else scanBack rest userCount' maxTurns
      else scanBack rest userCount maxTurns
  end.

(** Layer 1. *)
Definition limitHistoryTurns (messages : list Message) (maxTurns : Z)
  : list Message :=
  if maxTurns <=? 0 then messages
  else drop (scanBack (rev messages) 0 maxTurns) messages.

Definition truncateBlock (maxChars : Z) (block : ContentBlock) : ContentBlock :=
  match block with
  | tool_result_block tid c =>
      if str_length c >? maxChars
      then tool_result_block tid (truncateText c maxChars)
      else block
  | _ => block
  end.

(** The function mapped over the messages by [truncateToolResults]. *)
Definition truncateMessage (maxChars : Z) (msg : Message) : Message :=
  match role msg, content msg with
  | user, Blocks blocks =>
      if existsb is_tool_result blocks
      then {| role := role msg;
              content := Blocks (map (truncateBlock maxChars) blocks) |}
      else msg
  | _, _ => msg
  end.

(** Layer 2. *)
Definition truncateToolResults (messages : list Message) (maxChars : Z)
  : list Message :=
  map (truncateMessage maxChars) messages.

(** The set-building loop of [removeOrphanedToolResults]. *)
Definition collectToolUseIds (messages : list Message) : gset string :=
  foldl (fun ids msg =>
           match role msg, content msg with
           | assistant, Blocks blocks =>
               foldl (fun ids block =>
                        match block with
                        | tool_use_block id _ _ => {[ id ]} ∪ ids
                        | _ => ids
                        end) ids blocks
           | _, _ => ids
           end) ∅ messages.

(** The filter predicate of [removeOrphanedToolResults]. *)
Definition keepBlock (toolUseIds : gset string) (block : ContentBlock) : bool :=
  match block with
  | tool_result_block tid _ => bool_decide (tid ∈ toolUseIds)
  | _ => true
  end.

(** The [map] step of [removeOrphanedToolResults]; [None] is [null]. *)
Definition cleanMessage (toolUseIds : gset string) (msg : Message)
  : option Message :=
  match role msg, content msg with
  | user, Blocks blocks =>
      let filtered := List.filter (keepBlock toolUseIds) blocks in
      if (Z.of_nat (length filtered) =? 0) then None
      else Some {| role := role msg; content := Blocks filtered |}
  | _, _ => Some msg
  end.

(** Cleanup: map, then filter out the nulls. *)
Definition removeOrphanedToolResults (messages : list Message) : list Message :=
  omap (cleanMessage (collectToolUseIds messages)) messages.

Record ContextConfig : Type :=
  { maxHistoryTurns : Z; maxToolResultChars : Z }.

Definition prepareContext (messages : list Message) (config : ContextConfig)
  : list Message :=
  let result := messages in
  let result := limitHistoryTurns result (maxHistoryTurns config) in
  let maxResultChars :=
    Z.min (maxToolResultChars config) HARD_MAX_TOOL_RESULT_CHARS in
  let result := truncateToolResults result maxResultChars in
  let result := removeOrphanedToolResults result in
  result.

(** [truncateToolResult] of tools.ts, with that file's own constant. *)
Definition tools_MIN_KEEP_CHARS : Z := 2000.

Definition truncateToolResult (text : string) (maxChars : Z) : string :=
  if str_length text <=? maxChars then text
  else
    let keepChars := Z.max tools_MIN_KEEP_CHARS (maxChars - 100) in
    let searchEnd := keepChars * 4 / 5 in
    let lastNewline := lastIndexOf text newline keepChars in
    let cutAt := if lastNewline >? searchEnd then lastNewline else keepChars in
    slice text 0 cutAt +:+ truncation_marker cutAt (str_length text).

(** The largest length a JavaScript string can have. *)
Definition MAX_STRING_LENGTH : Z := 2 ^ 53 - 1.

(** Number of user messages of a list. *)
Definition userCount (messages : list Message) : Z :=
  Z.of_nat (length (List.filter is_user messages)).

(** [tid] is the id of a tool_use block of an assistant message of
    [messages]. *)
Definition resolves (messages : list Message) (tid : string) : Prop :=
  exists m blocks name input,
    m ∈ messages /\ role m = assistant /\ content m = Blocks blocks /\
    tool_use_block tid name input ∈ blocks.

(** Every tool_result of [messages] refers to a tool_use of [messages]. *)
Definition references_resolve (messages : list Message) : Prop :=
  forall m blocks tid c,
    m ∈ messages -> content m = Blocks blocks ->
    tool_result_block tid c ∈ blocks -> resolves messages tid.

Definition no_empty_message (messages : list Message) : Prop :=
  forall m, m ∈ messages -> content m <> Blocks [].

(** No tool_result of a user message of [messages] is longer than [cap]. *)
Definition block_fits (cap : Z) (block : ContentBlock) : Prop :=
  match block with
  | tool_result_block _ c => str_length c <= cap
  | _ => True
  end.

Definition message_fits (cap : Z) (m : Message) : Prop :=
  match role m, content m with
  | user, Blocks blocks => Forall (block_fits cap) blocks
  | _, _ => True
  end.

Definition tool_results_fit (cap : Z) (messages : list Message) : Prop :=
  Forall (message_fits cap) messages.

(* ===================================================================== *)
(** * agent.ts: stream events, provider adapters, tool dispatch, the loop  *)
(* ===================================================================== *)

Inductive StreamEvent : Type :=
  | text_event (text : string)
  | tool_use_event (id name : string) (input : json)
  | tool_start_event (name : string) (input : json)
  | tool_end_event (name : string) (result : string)
  | message_stop_event (stop_reason : string).

Definition is_message_stop (e : StreamEvent) : bool :=
  match e with message_stop_event _ => true | _ => false end.

(** ** The adapter of the block-native protocol *)

(** What the adapter reads of the upstream stream: the events while it
    streams, then the final message. *)
Inductive AnthropicDelta : Type :=
  | text_delta (text : string)
  | input_json_delta (partial_json : string)
  | other_delta.

Inductive AnthropicEvent : Type :=
  | content_block_delta (delta : AnthropicDelta)
  | other_event.

Record AnthropicResponse : Type :=
  { upstream_events : list AnthropicEvent;
    final_content : list ContentBlock;
    final_stop_reason : option string }.

(** The events that [AnthropicClient.stream] yields for an upstream
    response. *)
Definition AnthropicClient_stream (response : AnthropicResponse)
  : list StreamEvent :=
  flat_map (fun event =>
              match event with
              | content_block_delta (text_delta t) => [text_event t]
              | _ => []
              end) (upstream_events response)
  ++ flat_map (fun block =>
                 match block with
                 | tool_use_block i n input => [tool_use_event i n input]
                 | _ => []
                 end) (final_content response)
  ++ [message_stop_event (default "end_turn" (final_stop_reason response))].

(** ** The adapter of the delta-accumulate protocol *)

Record OpenAIFunctionDelta : Type :=
  { function_name : option string; function_arguments : option string }.

Record OpenAIToolCallDelta : Type :=
  { call_index : Z; call_id : option string;
    call_function : option OpenAIFunctionDelta }.

Record OpenAIDelta : Type :=
  { delta_content : option string;
    delta_tool_calls : option (list OpenAIToolCallDelta) }.

Record OpenAIChoice : Type :=
  { choice_delta : option OpenAIDelta; finish_reason : option string }.

Record OpenAIChunk : Type := { choices : list OpenAIChoice }.

(** An entry of the [toolCalls] map. *)
Record ToolCallBuffer : Type :=
  { buffer_id : string; buffer_name : string; buffer_args : string }.

(** A truthy string: defined and not empty. *)
Definition truthy (s : option string) : bool :=
  match s with
  | Some EmptyString | None => false
  | Some _ => true
  end.

(** The [toolCalls] map, a [Map] that iterates in insertion order. *)
Fixpoint map_has (m : list (Z * ToolCallBuffer)) (k : Z) : bool :=
  match m with
  | [] => false
  | (k', _) :: rest => (k' =? k) || map_has rest k
  end.

Fixpoint map_update (m : list (Z * ToolCallBuffer)) (k : Z)
    (f : ToolCallBuffer -> ToolCallBuffer) : list (Z * ToolCallBuffer) :=
  match m with
  | [] => []
  | (k', b) :: rest =>
      if k' =? k then (k', f b) :: rest else (k', b) :: map_update rest k f
  end.

(** The body of [for (const tc of delta.tool_calls)]. *)
Definition bufferToolCall (toolCalls : list (Z * ToolCallBuffer))
    (tc : OpenAIToolCallDelta) : list (Z * ToolCallBuffer) :=
  let name := match call_function tc with
              | Some f => function_name f
              | None => None
              end in
  let arguments := match call_function tc with
                   | Some f => function_arguments f
                   | None => None
                   end in
  let toolCalls :=
    if map_has toolCalls (call_index tc) then toolCalls
    else toolCalls ++
         [(call_index tc,
           {| buffer_id := default "" (call_id tc);
              buffer_name := default "" name; buffer_args := "" |})] in
  map_update toolCalls (call_index tc)
    (fun existing =>
       let existing :=
         if truthy (call_id tc)
         then {| buffer_id := default "" (call_id tc);
                 buffer_name := buffer_name existing;
                 buffer_args := buffer_args existing |}
         else existing in
       let existing :=
         if truthy name
         then {| buffer_id := buffer_id existing;
                 buffer_name := default "" name;
                 buffer_args := buffer_args existing |}
         else existing in
       if truthy arguments
       then {| buffer_id := buffer_id existing;
               buffer_name := buffer_name existing;
               buffer_args := buffer_args existing +:+ default "" arguments |}
       else existing).

(** The state of the chunk loop of [OpenAIClient.stream]. *)
Record OpenAIState : Type :=
  { toolCalls : list (Z * ToolCallBuffer); stopReason : string;
    yielded_text : list StreamEvent }.

(** The body of [for await (const chunk of stream)]. *)
Definition onChunk (st : OpenAIState) (chunk : OpenAIChunk) : OpenAIState :=
  match head (choices chunk) with
  | None => st
  | Some choice =>
      match choice_delta choice with
      | None => st
      | Some delta =>
          let out :=
            if truthy (delta_content delta)
            then yielded_text st ++ [text_event (default "" (delta_content delta))]
            else yielded_text st in
          let calls :=
            match delta_tool_calls delta with
            | Some tcs => fold_left bufferToolCall tcs (toolCalls st)
            | None => toolCalls st
            end in
          let reason :=
            match finish_reason choice with
            | Some "tool_calls" => "tool_use"
            | Some "stop" => "end_turn"
            | _ => stopReason st
            end in
          {| toolCalls := calls; stopReason := reason; yielded_text := out |}
      end
  end.

(** The events that [OpenAIClient.stream] yields for the chunks of an
    upstream response. *)
Definition OpenAIClient_stream (chunks : list OpenAIChunk) : list StreamEvent :=
  let st :=
    fold_left onChunk chunks
      {| toolCalls := []; stopReason := "end_turn"; yielded_text := [] |} in
  yielded_text st
  ++ map (fun '(_, tc) =>
            let input := match JSON.parse (buffer_args tc) with
                         | Some v => v
                         | None => JObj []
                         end in
            tool_use_event (buffer_id tc) (buffer_name tc) input)
         (toolCalls st)
  ++ [message_stop_event (stopReason st)].

(** The invariant of the chunk loop: its state only holds text events, and a stop
    reason that is one of the two canonical ones. *)
Definition OpenAIState_ok (st : OpenAIState) : Prop :=
  Forall (fun e => is_message_stop e = false) (yielded_text st) /\
  (stopReason st = "end_turn" \/ stopReason st = "tool_use").

(** The finish reason that the chunk loop reads of a chunk: that of its first
    choice, when that choice has a delta; a chunk without one is left by
    [continue] before its finish reason is looked at. *)
Definition chunk_finish_reason (chunk : OpenAIChunk) : option string :=
  match head (choices chunk) with
  | Some choice =>
      match choice_delta choice with
      | Some _ => finish_reason choice
      | None => None
      end
  | None => None
  end.

(** The stop reason that a finish reason stands for, when it stands for
    one. *)
Definition normalized (finishReason : string) : option string :=
  if String.eqb finishReason "tool_calls" then Some "tool_use"
  else if String.eqb finishReason "stop" then Some "end_turn"
  else None.

(** The stop reasons that the finish reasons of the chunks stand for, in the
    order of the chunks. *)
Definition normalized_reasons (chunks : list OpenAIChunk) : list string :=
  omap (fun chunk =>
          match chunk_finish_reason chunk with
          | Some finishReason => normalized finishReason
          | None => None
          end) chunks.

(** ** Tools *)

Record ToolDefinition : Type :=
  { tool_name : string; tool_description : string; input_schema : json }.

Record Tool : Type :=
  { definition : ToolDefinition; execute : json -> outcome string }.

Definition quoted (s : string) : string :=
  String JSON.dquote s +:+ String JSON.dquote "".

Definition executeTool (name : string) (input : json) (tools : list Tool)
  : outcome string :=
  match List.find (fun t => String.eqb (tool_name (definition t)) name) tools with
  | None => Returned ("Error: Unknown tool " +:+ quoted name)
  | Some tool =>
      match execute tool input with
      | Returned result => Returned result
      | Threw err =>
          Returned ("Error executing tool " +:+ quoted name +:+ ": " +:+
                    match err with
                    | ErrorObject message => message
                    | OtherValue shown => shown
                    end)
      end
  end.

(** ** The system prompt *)

Record Skill : Type :=
  { skill_name : string; skill_description : string; skill_content : string;
    always : bool }.

Inductive Provider : Type := anthropic | openai.

Record SlimClawConfig : Type :=
  { provider : Provider; model : string; maxTokens : Z;
    systemPrompt : option string;
    config_maxHistoryTurns : Z; config_maxToolResultChars : Z }.

(** The part of the configuration that [prepareContext] reads. *)
Definition contextConfig (config : SlimClawConfig) : ContextConfig :=
  {| maxHistoryTurns := config_maxHistoryTurns config;
     maxToolResultChars := config_maxToolResultChars config |}.

Definition buildSystemPrompt (config : SlimClawConfig) (skills : list Skill)
    (memoryContext : string) : string :=
  let parts := ["You are SlimClaw, a personal AI assistant."] in
  let parts :=
    if truthy (systemPrompt config)
    then parts ++ [default "" (systemPrompt config)] else parts in
  let parts :=
    parts ++ map (fun skill => "## Skill: " +:+ skill_name skill +:+ line_feed
                               +:+ skill_content skill)
                 (List.filter always skills) in
  let availableSkills := List.filter (fun s => negb (always s)) skills in
  let parts :=
    if Z.of_nat (length availableSkills) >? 0
    then parts ++
         ["## Available Skills" +:+ line_feed +:+
          String.concat line_feed
            (map (fun s => "- " +:+ skill_name s +:+ ": " +:+ skill_description s)
                 availableSkills)]
    else parts in
  let parts :=
    if truthy (Some memoryContext)
    then parts ++ ["## Relevant Memories" +:+ line_feed +:+ memoryContext]
    else parts in
  String.concat (line_feed +:+ line_feed) parts.

(** ** The agent loop *)

Record StreamParams : Type :=
  { params_model : string; params_system : string;
    params_messages : list Message; params_tools : list ToolDefinition;
    params_max_tokens : Z }.

(** What iterating a stream to its end gives: the events it yields and, when
    the upstream call fails, the exception that ends it. *)
Record StreamRun : Type :=
  { yielded : list StreamEvent; failure : option thrown }.

(** A client answers its [n]-th call of [stream] (counted from 0) for the
    parameters it is given. *)
Definition LLMClient : Type := nat -> StreamParams -> StreamRun.

Record ToolUse : Type :=
  { use_id : string; use_name : string; use_input : json }.

(** The state a turn works on: the session it appends to, the world behind
    it, the events yielded to the caller so far, and (for counting) the calls
    of [executeTool] made so far. *)
Record TurnState : Type :=
  { session : Session; world : World; emitted : list StreamEvent;
    dispatched : list (string * json) }.

Definition yield (e : StreamEvent) (st : TurnState) : TurnState :=
  {| session := session st; world := world st;
     emitted := emitted st ++ [e]; dispatched := dispatched st |}.

Definition append (message : Message) (st : TurnState) : TurnState :=
  let '(s, w) := appendMessage (session st) message (world st) in
  {| session := s; world := w; emitted := emitted st;
     dispatched := dispatched st |}.

Definition call_executeTool (name : string) (input : json) (tools : list Tool)
    (st : TurnState) : outcome string * TurnState :=
  (executeTool name input tools,
   {| session := session st; world := world st; emitted := emitted st;
      dispatched := dispatched st ++ [(name, input)] |}).

(** The locals of one round: [currentText], [toolUses], [stopReason]. *)
Record RoundLocals : Type :=
  { currentText : string; toolUses : list ToolUse; round_stopReason : string }.

(** The body of [for await (const event of stream)]. *)
Definition onEvent (acc : RoundLocals * TurnState) (event : StreamEvent)
  : RoundLocals * TurnState :=
  let '(locals, st) := acc in
  match event with
  | text_event t =>
      ({| currentText := currentText locals +:+ t;
          toolUses := toolUses locals;
          round_stopReason := round_stopReason locals |},
       yield event st)
  | tool_use_event i n input =>
      ({| currentText := currentText locals;
          toolUses := toolUses locals
                      ++ [ {| use_id := i; use_name := n; use_input := input |} ];
          round_stopReason := round_stopReason locals |},
       st)
  | message_stop_event reason =>
      ({| currentText := currentText locals;
          toolUses := toolUses locals;
          round_stopReason := reason |},
       st)
  | _ => (locals, st)
  end.

(** [const assistantContent = ...] *)
Definition assistantContent (currentText : string) (toolUses : list ToolUse)
  : Content :=
  let contentBlocks :=
    (if truthy (Some currentText) then [text_block currentText] else [])
    ++ map (fun tu => tool_use_block (use_id tu) (use_name tu) (use_input tu))
           toolUses in
  match contentBlocks with
  | [text_block t] => Str t
  | _ => Blocks contentBlocks
  end.

(** [for (const toolUse of toolUses)]: an exception of [executeTool] would
    leave the loop and the turn. *)
Fixpoint executeToolUses (pending : list ToolUse) (tools : list Tool)
    (toolResults : list ContentBlock) (st : TurnState)
  : outcome (list ContentBlock) * TurnState :=
  match pending with
  | [] => (Returned toolResults, st)
  | toolUse :: rest =>
      let st := yield (tool_start_event (use_name toolUse) (use_input toolUse)) st in
      let '(result, st) :=
        call_executeTool (use_name toolUse) (use_input toolUse) tools st in
      match result with
      | Threw e => (Threw e, st)
      | Returned result =>
          let st := yield (tool_end_event (use_name toolUse) result) st in
          executeToolUses rest tools
            (toolResults ++ [tool_result_block (use_id toolUse) result]) st
      end
  end.

(** How one pass through the body of [while (true)] ends. *)
Inductive RoundEnd : Type :=
  | Break
  | Continue
  | Throw (e : thrown).

(** One pass through the body of [while (true)], for the stream run that the
    client gave. *)
Definition agentRound (run : StreamRun) (tools : list Tool) (st : TurnState)
  : RoundEnd * TurnState :=
  let '(locals, st) :=
    fold_left onEvent (yielded run)
      ({| currentText := ""; toolUses := []; round_stopReason := "end_turn" |},
       st) in
  match failure run with
  | Some e => (Throw e, st)
  | None =>
      let st :=
        append {| role := assistant;
                  content := assistantContent (currentText locals)
                               (toolUses locals) |} st in
      if Z.of_nat (length (toolUses locals)) =? 0 then (Break, st)
      else
        match executeToolUses (toolUses locals) tools [] st with
        | (Threw e, st) => (Throw e, st)
        | (Returned toolResults, st) =>
            (Continue, append {| role := user; content := Blocks toolResults |} st)
        end
  end.

(** How a turn ends: it returns, it throws, or the rounds allowed to the
    model were used up before it did either. *)
Inductive TurnEnd : Type :=
  | Finished
  | Failed (e : thrown)
  | StillRunning.

(** [while (true) { ... }], for at most [rounds] passes; [calls] counts the
    calls of [client.stream] made before. *)
Fixpoint agentLoop (rounds : nat) (calls : nat) (config : SlimClawConfig)
    (client : LLMClient) (tools : list Tool) (systemPrompt : string)
    (st : TurnState) : TurnEnd * TurnState :=
  match rounds with
  | O => (StillRunning, st)
  | S rounds' =>
      let contextMessages :=
        prepareContext (session_messages (session st)) (contextConfig config) in
      let run :=
        client calls
          {| params_model := model config; params_system := systemPrompt;
             params_messages := contextMessages;
             params_tools := map definition tools;
             params_max_tokens := maxTokens config |} in
      match agentRound run tools st with
      | (Break, st) => (Finished, st)
      | (Throw e, st) => (Failed e, st)
      | (Continue, st) =>
          agentLoop rounds' (S calls) config client tools systemPrompt st
      end
  end.

Definition agentTurn (rounds : nat) (session : Session) (userMessage : string)
    (config : SlimClawConfig) (client : LLMClient) (tools : list Tool)
    (skills : list Skill) (memoryContext : string) (w : World)
  : TurnEnd * TurnState :=
  let st :=
    append {| role := user; content := Str userMessage |}
      {| session := session; world := w; emitted := []; dispatched := [] |} in
  let systemPrompt := buildSystemPrompt config skills memoryContext in
  agentLoop rounds 0 config client tools systemPrompt st.

(** ** Reading a list of events *)

(** The stop reasons of the terminal events, in order. *)
Definition stop_reasons (events : list StreamEvent) : list string :=
  flat_map (fun e => match e with
                     | message_stop_event r => [r]
                     | _ => []
                     end) events.

(** The text events, in order. *)
Definition text_events (events : list StreamEvent) : list StreamEvent :=
  List.filter (fun e => match e with text_event _ => true | _ => false end)
    events.

(** The streamed text, concatenated. *)
Fixpoint textOf (events : list StreamEvent) : string :=
  match events with
  | [] => ""
  | text_event t :: rest => t +:+ textOf rest
  | _ :: rest => textOf rest
  end.

(** The tool calls requested, in order. *)
Definition toolUsesOf (events : list StreamEvent) : list ToolUse :=
  flat_map (fun e => match e with
                     | tool_use_event i n input =>
                         [ {| use_id := i; use_name := n; use_input := input |} ]
                     | _ => []
                     end) events.

(** Where the last terminal event leaves [stopReason]. *)
Definition final_stopReason (events : list StreamEvent) (initial : string)
  : string :=
  default initial (last (stop_reasons events)).

(** The state after the event loop of a round. *)
Definition after_events (events : list StreamEvent) (st : TurnState)
  : TurnState :=
  {| session := session st; world := world st;
     emitted := emitted st ++ text_events events;
     dispatched := dispatched st |}.

(** The state after the assistant message of a round is appended. *)
Definition after_assistant (events : list StreamEvent) (st : TurnState)
  : TurnState :=
  append {| role := assistant;
            content := assistantContent (textOf events) (toolUsesOf events) |}
         (after_events events st).

(** An event with the stop reason, if it carries one, blanked. *)
Definition without_stop_reason (e : StreamEvent) : StreamEvent :=
  match e with
  | message_stop_event _ => message_stop_event ""
  | _ => e
  end.

(** ["c".repeat(n)] *)
Fixpoint repeat_char (c : ascii) (n : nat) : string :=
  match n with
  | O => ""
  | S n' => String c (repeat_char c n')
  end.

(** ** Reading a prepared context *)

(** A message that the cleanup and the truncation look into: a user message
    whose content is a list of blocks. *)
Definition carries_blocks (m : Message) : bool :=
  match role m, content m with
  | user, Blocks _ => true
  | _, _ => false
  end.

(** Every tool_result of a user message of [messages] refers to a tool_use of
    [messages], and no user message of [messages] has an empty list of
    blocks. *)
Definition user_results_resolve (messages : list Message) : Prop :=
  forall m blocks,
    m ∈ messages -> role m = user -> content m = Blocks blocks ->
    blocks <> [] /\
    forall tid c, tool_result_block tid c ∈ blocks -> resolves messages tid.

(** ** Reading a turn *)

(** The string that [executeTool] hands to the loop for a call. *)
Definition toolOutput (name : string) (input : json) (tools : list Tool)
  : string :=
  match executeTool name input tools with
  | Returned result => result
  | Threw (ErrorObject message) => message
  | Threw (OtherValue shown) => shown
  end.

(** The events that the tool loop of a round yields for the calls [uses]. *)
Definition tool_events (uses : list ToolUse) (tools : list Tool)
  : list StreamEvent :=
  flat_map (fun tu =>
              [ tool_start_event (use_name tu) (use_input tu);
                tool_end_event (use_name tu)
                  (toolOutput (use_name tu) (use_input tu) tools) ]) uses.

(** The tool_result blocks that the tool loop of a round collects. *)
Definition tool_results (uses : list ToolUse) (tools : list Tool)
  : list ContentBlock :=
  map (fun tu => tool_result_block (use_id tu)
                   (toolOutput (use_name tu) (use_input tu) tools)) uses.

(** The state after a round that dispatched tools: the assistant message is
    appended, the tools have run, the tool results are appended. *)
Definition after_tools (events : list StreamEvent) (tools : list Tool)
    (st : TurnState) : TurnState :=
  let uses := toolUsesOf events in
  let st1 := after_assistant events st in
  append {| role := user; content := Blocks (tool_results uses tools) |}
    {| session := session st1; world := world st1;
       emitted := emitted st1 ++ tool_events uses tools;
       dispatched := dispatched st1
                     ++ map (fun tu => (use_name tu, use_input tu)) uses |}.

(** The parameters of the call of [client.stream] in a round. *)
Definition roundParams (config : SlimClawConfig) (tools : list Tool)
    (systemPrompt : string) (st : TurnState) : StreamParams :=
  {| params_model := model config; params_system := systemPrompt;
     params_messages :=
       prepareContext (session_messages (session st)) (contextConfig config);
     params_tools := map definition tools;
     params_max_tokens := maxTokens config |}.




(** The ids of the tool_use blocks of a content, in order. *)
Definition tool_use_ids (c : Content) : list string :=
  match c with
  | Str _ => []
  | Blocks blocks =>
      flat_map (fun b => match b with
                         | tool_use_block i _ _ => [i]
                         | _ => []
                         end) blocks
  end.

(** The ids that a list of blocks answers, when all of them are tool_result
    blocks. *)
Fixpoint answered_ids (blocks : list ContentBlock) : option (list string) :=
  match blocks with
  | [] => Some []
  | tool_result_block tid _ :: rest =>
      match answered_ids rest with
      | Some ids => Some (tid :: ids)
      | None => None
      end
  | _ :: _ => None
  end.

(** The messages that the rounds of a turn add: an assistant message that
    requests tools is followed by a user message that answers exactly those
    requests, in order, and one that requests none comes last. *)
Fixpoint rounds_paired (added : list Message) : Prop :=
  match added with
  | [] => True
  | a :: rest =>
      role a = assistant /\
      match rest with
      | [] => tool_use_ids (content a) = []
      | u :: rest' =>
          role u = user /\ tool_use_ids (content a) <> [] /\
          (exists blocks, content u = Blocks blocks /\
                          answered_ids blocks = Some (tool_use_ids (content a))) /\
          rounds_paired rest'
      end
  end.

(** The parameters with which a turn on the transcript [base] may call the
    client: the model, the system prompt, the tool definitions and the token
    limit of the turn, and as messages the prepared context of a transcript
    that starts with [base]. *)
Definition asks_for (config : SlimClawConfig) (tools : list Tool)
    (systemPrompt : string) (base : list Message) (params : StreamParams)
  : Prop :=
  params_model params = model config /\
  params_system params = systemPrompt /\
  params_tools params = map definition tools /\
  params_max_tokens params = maxTokens config /\
  exists later,
    params_messages params
    = prepareContext (base ++ later) (contextConfig config).

(** ** Reading the chunks of the delta-accumulate protocol *)

(** The tool-call deltas of a chunk that the chunk loop reads: those of the
    delta of its first choice. *)
Definition chunk_tool_calls (chunk : OpenAIChunk) : list OpenAIToolCallDelta :=
  match head (choices chunk) with
  | Some choice =>
      match choice_delta choice with
      | Some delta => default [] (delta_tool_calls delta)
      | None => []
      end
  | None => []
  end.

(** The text of a chunk that the chunk loop passes on. *)
Definition chunk_text (chunk : OpenAIChunk) : list string :=
  match head (choices chunk) with
  | Some choice =>
      match choice_delta choice with
      | Some delta =>
          if truthy (delta_content delta)
          then [default "" (delta_content delta)] else []
      | None => []
      end
  | None => []
  end.

(** [tc.function?.name] and [tc.function?.arguments] *)
Definition delta_name (tc : OpenAIToolCallDelta) : option string :=
  match call_function tc with
  | Some f => function_name f
  | None => None
  end.

Definition delta_arguments (tc : OpenAIToolCallDelta) : option string :=
  match call_function tc with
  | Some f => function_arguments f
  | None => None
  end.

(** The last truthy string of a list, the empty string when there is none. *)
Definition last_truthy (l : list (option string)) : string :=
  fold_left (fun acc o => if truthy o then default "" o else acc) l "".

(** The truthy strings of a list, concatenated in order. *)
Definition joined (l : list (option string)) : string :=
  fold_left (fun acc o => if truthy o then acc +:+ default "" o else acc) l "".

(** The deltas that carry the index [k]. *)
Definition deltas_at (k : Z) (deltas : list OpenAIToolCallDelta)
  : list OpenAIToolCallDelta :=
  List.filter (fun tc => call_index tc =? k) deltas.

(** The distinct indices of a list, in the order of their first
    appearance. *)
Definition first_seen (keys : list Z) : list Z :=
  fold_left (fun seen k => if existsb (Z.eqb k) seen then seen else seen ++ [k])
    keys [].

(** What a list of deltas amounts to for the index [k]. *)
Definition assembled_at (k : Z) (deltas : list OpenAIToolCallDelta)
  : ToolCallBuffer :=
  {| buffer_id := last_truthy (map call_id (deltas_at k deltas));
     buffer_name := last_truthy (map delta_name (deltas_at k deltas));
     buffer_args := joined (map delta_arguments (deltas_at k deltas)) |}.

Definition assembled (deltas : list OpenAIToolCallDelta)
  : list (Z * ToolCallBuffer) :=
  map (fun k => (k, assembled_at k deltas)) (first_seen (map call_index deltas)).

(** [JSON.parse(tc.args)] inside its [try], on top of [input = {}]. *)
Definition parsed_input (args : string) : json :=
  match JSON.parse args with
  | Some v => v
  | None => JObj []
  end.

(** A chunk that carries one fragment of the arguments of a tool call. *)
Definition argument_chunk (index : Z) (id name : option string)
    (fragment : string) : OpenAIChunk :=
  {| choices :=
       [ {| choice_delta :=
              Some {| delta_content := None;
                      delta_tool_calls :=
                        Some [ {| call_index := index; call_id := id;
                                  call_function :=
                                    Some {| function_name := name;
                                            function_arguments := Some fragment |}
                               |} ] |};
            finish_reason := None |} ] |}.

(** The text deltas of an upstream response, in order. *)
Definition text_deltas (events : list AnthropicEvent) : list string :=
  flat_map (fun event => match event with
                         | content_block_delta (text_delta t) => [t]
                         | _ => []
                         end) events.

(** The tool calls of the blocks of a message, in order. *)
Definition block_tool_uses (blocks : list ContentBlock) : list ToolUse :=
  flat_map (fun b => match b with
                     | tool_use_block i n input =>
                         [ {| use_id := i; use_name := n; use_input := input |} ]
                     | _ => []
                     end) blocks.

(** ** The request of the delta-accumulate protocol *)

(** A tool call of an assistant message of the request: [id], [function.name]
    and [function.arguments]. *)
Record OpenAIToolCall : Type :=
  { tool_call_id : string; tool_call_name : string;
    tool_call_arguments : string }.

(** The messages of the request, by role. The content of an assistant
    message may be [null] and its [tool_calls] may be left out ([None]). *)
Inductive OpenAIMessage : Type :=
  | system_message (text : string)
  | user_message (text : string)
  | assistant_message (text : option string)
      (calls : option (list OpenAIToolCall))
  | tool_message (answers body : string).

(** What the loop over [params.messages] pushes for one message. *)
Definition translateMessage (msg : Message) : list OpenAIMessage :=
  match role msg, content msg with
  | user, Str s => [user_message s]
  | assistant, Str s => [assistant_message (Some s) None]
  | assistant, Blocks blocks =>
      let textParts :=
        String.concat ""
          (flat_map (fun b => match b with
                              | text_block t => [t]
                              | _ => []
                              end) blocks) in
      let toolCalls :=
        flat_map (fun b => match b with
                           | tool_use_block i n input =>
                               [ {| tool_call_id := i; tool_call_name := n;
                                    tool_call_arguments := JSON.stringify input |} ]
                           | _ => []
                           end) blocks in
      [ assistant_message
          (if truthy (Some textParts) then Some textParts else None)
          (if Z.of_nat (length toolCalls) >? 0 then Some toolCalls else None) ]
  | user, Blocks blocks =>
      flat_map (fun b => match b with
                         | tool_result_block tid c => [tool_message tid c]
                         | _ => []
                         end) blocks
  end.

(** [openaiMessages], as [OpenAIClient.stream] sends it. *)
Definition openaiMessages (system : string) (messages : list Message)
  : list OpenAIMessage :=
  system_message system :: flat_map translateMessage messages.

(** The ids of the tool calls of the assistant messages of a request. *)
Definition called_ids (request : list OpenAIMessage) : list string :=
  flat_map (fun m => match m with
                     | assistant_message _ (Some calls) => map tool_call_id calls
                     | _ => []
                     end) request.

(** ** listSessions: when a session was last active *)

(** The body of the loop of [listSessions] over the lines of one file;
    [lastActive] is [None] when it was set to [undefined]. *)
Definition lastActiveStep (lastActive : option json) (line : string)
  : option json :=
  match JSON.parse line with
  | None => lastActive
  | Some entry =>
      match property entry "type" with
      | Threw _ => lastActive
      | Returned type =>
          let lastActive :=
            match type, property entry "createdAt" with
            | Some (JStr "session"), Returned createdAt => createdAt
            | _, _ => lastActive
            end in
          match type, property entry "timestamp" with
          | Some (JStr "message"), Returned timestamp => timestamp
          | _, _ => lastActive
          end
      end
  end.

(** What the callback of [files.map] in [listSessions] computes as
    [lastActive] from the content of one session file. *)
Definition lastActiveOf (raw : string) : option json :=
  let lines :=
    List.filter (fun line => truthy (Some line)) (split_lines (trim raw)) in
  fold_left lastActiveStep lines (Some (JNum 0)).

(* ===================================================================== *)
(** * tools.ts: the file tools                                             *)
(* ===================================================================== *)

(** The executors of [read_file], [write_file] and [edit_file], for inputs
    that have the types of the tool's schema: the arguments are the values
    that the casts [input.path as string], [input.offset as number |
    undefined], ... name. Files are the [files] of the world; directories
    and the failures of the file system are not modelled. *)

(** [s.slice(n)] for [0 <= n]. *)
Fixpoint drop_chars (n : nat) (s : string) : string :=
  match n, s with
  | O, _ => s
  | S n', String _ r => drop_chars n' r
  | S _, EmptyString => EmptyString
  end.

(** Number of matches that [s.split(p)] finds for a non-empty [p]: it scans
    from the left and goes on after the end of each match; [skip] characters
    are still covered by the last match. *)
Fixpoint count_matches (p : string) (skip : nat) (s : string) : Z :=
  match s with
  | EmptyString => 0
  | String c r =>
      match skip with
      | S k => count_matches p k r
      | O =>
          if String.prefix p s
          then 1 + count_matches p (String.length p - 1) r
          else count_matches p 0 r
      end
  end.

(** [s.split(separator).length] *)
Definition split_length (separator s : string) : Z :=
  match separator with
  | EmptyString => str_length s
  | _ => 1 + count_matches separator 0 s
  end.

(** The first match of [p] in [s]: what precedes it and what follows it. *)
Fixpoint find_first (p s : string) : option (string * string) :=
  if String.prefix p s then Some ("", drop_chars (String.length p) s)
  else
    match s with
    | EmptyString => None
    | String c r =>
        match find_first p r with
        | Some (before, after) => Some (String c before, after)
        | None => None
        end
    end.

(** [GetSubstitution] for a string pattern (no captures): [$$] stands for a
    dollar sign, [$&] for the match, [$`] for what precedes it, [$'] for what
    follows it, and any other character for itself. *)
Fixpoint GetSubstitution (matched before after template : string) : string :=
  match template with
  | EmptyString => EmptyString
  | String d rest =>
      if Ascii.eqb d "$" then
        match rest with
        | String c r =>
            if Ascii.eqb c "$" then
              String "$" (GetSubstitution matched before after r)
            else if Ascii.eqb c "&" then
              matched +:+ GetSubstitution matched before after r
            else if Ascii.eqb c "`" then
              before +:+ GetSubstitution matched before after r
            else if Ascii.eqb c "'" then
              after +:+ GetSubstitution matched before after r
            else String d (GetSubstitution matched before after rest)
        | EmptyString => String d EmptyString
        end
      else String d (GetSubstitution matched before after rest)
  end.

(** [s.replace(pattern, replacement)] for strings. *)
Definition String_replace (s pattern replacement : string) : string :=
  match find_first pattern s with
  | None => s
  | Some (before, after) =>
      before +:+ GetSubstitution pattern before after replacement +:+ after
  end.

(** [array.slice(b, e)] *)
Definition Array_slice {X : Type} (l : list X) (b e : Z) : list X :=
  let len := Z.of_nat (length l) in
  let from := if b <? 0 then Z.max (len + b) 0 else Z.min b len in
  let to := if e <? 0 then Z.max (len + e) 0 else Z.min e len in
  take (Z.to_nat (Z.max (to - from) 0)) (drop (Z.to_nat from) l).

(** [s.padStart(6, " ")] *)
Definition padStart6 (s : string) : string :=
  repeat_char " " (6 - String.length s) +:+ s.

Definition tab : string := String "009"%char "".

(** The local [numbered] of [read_file]: the lines of the file from
    [offset], at most [limit] of them, each behind its number. *)
Definition readFile_numbered (content : string) (offset limit : option Z)
  : list string :=
  let offset := default 1 offset in
  let lines := split_lines content in
  let startIdx := Z.max 0 (offset - 1) in
  let lines := Array_slice lines startIdx (Z.of_nat (length lines)) in
  let lines :=
    match limit with
    | Some limit => Array_slice lines 0 limit
    | None => lines
    end in
  imap (fun i line =>
          padStart6 (Number_toString (startIdx + Z.of_nat i + 1))
          +:+ tab +:+ line) lines.

Definition readFile_execute (maxResultChars : Z) (filePath : string)
    (offset limit : option Z) (w : World) : string :=
  match files w !! filePath with
  | None => "Error: File not found: " +:+ filePath
  | Some content =>
      truncateToolResult
        (String.concat line_feed (readFile_numbered content offset limit))
        maxResultChars
  end.

Definition writeFile_execute (filePath data : string) (w : World)
  : string * World :=
  let w := writeFileSync filePath data w in
  ("Successfully wrote " +:+ Number_toString (str_length data)
   +:+ " characters to " +:+ filePath, w).

Definition editFile_execute (filePath oldString newString : string) (w : World)
  : string * World :=
  match files w !! filePath with
  | None => ("Error: File not found: " +:+ filePath, w)
  | Some content =>
      let occurrences := split_length oldString content - 1 in
      if occurrences =? 0 then
        ("Error: old_string not found in " +:+ filePath, w)
      else if occurrences >? 1 then
        ("Error: old_string appears " +:+ Number_toString occurrences
         +:+ " times in " +:+ filePath +:+ " (must be unique)", w)
      else
        let updated := String_replace content oldString newString in
        ("Successfully edited " +:+ filePath,
         writeFileSync filePath updated w)
  end.

(** The positions of [s], counted from [i], at which [p] occurs. *)
Fixpoint positions_from (p : string) (i : nat) (s : string) : list nat :=
  match s with
  | EmptyString => []
  | String c r =>
      (if String.prefix p s then [i] else []) ++ positions_from p (S i) r
  end.

Definition positions (p s : string) : list nat := positions_from p 0 s.

(** The string holds no dollar sign. *)
Fixpoint no_dollar (s : string) : Prop :=
  match s with
  | EmptyString => True
  | String c r => c <> "$"%char /\ no_dollar r
  end.

(** The first [n] characters of [s]. *)
Fixpoint take_chars (n : nat) (s : string) : string :=
  match n, s with
  | O, _ => EmptyString
  | S n', String c r => String c (take_chars n' r)
  | S _, EmptyString => EmptyString
  end.

(** Whether the [i]-th line from the offset is within the limit. *)
Definition within_limit (limit : option Z) (i : nat) : bool :=
  match limit with
  | Some l => Z.of_nat i <? l
  | None => true
  end.

(* ===================================================================== *)
(** * subagent.ts: sub-agents                                              *)
(* ===================================================================== *)



(** [tools.filter((t) => t.definition.name !== "spawn_agent")] *)
Definition subTools (tools : list Tool) : list Tool :=
  List.filter (fun t => negb (String.eqb (tool_name (definition t)) "spawn_agent"))
    tools.



(* ===================================================================== *)
(** * memory.ts: splitting a text into chunks                              *)
(* ===================================================================== *)

(** After a number sign: up to [more] further number signs, then a space. *)
Fixpoint heading_rest (more : nat) (s : string) : bool :=
  match s with
  | String c r =>
      if JSON.code c =? 32 then true
      else if JSON.code c =? 35 then
        match more with
        | S more' => heading_rest more' r
        | O => false
        end
      else false
  | EmptyString => false
  end.

(** The lookahead [(?=\r?\n|#{1,6} )]: a line break, or one to six number
    signs and a space. *)
Definition block_boundary (s : string) : bool :=
  match s with
  | String c r =>
      if JSON.code c =? 10 then true
      else if JSON.code c =? 13 then
        match r with
        | String c' _ => JSON.code c' =? 10
        | EmptyString => false
        end
      else if JSON.code c =? 35 then heading_rest 5 r
      else false
  | EmptyString => false
  end.

(** [text.split(/\r?\n(?=\r?\n|#{1,6} )/)] *)
Fixpoint split_blocks (s : string) : list string :=
  match s with
  | EmptyString => [EmptyString]
  | String c r =>
      let plain :=
        match split_blocks r with
        | l :: ls => String c l :: ls
        | [] => [String c EmptyString]
        end in
      if JSON.code c =? 13 then
        match r with
        | String c' r' =>
            if (JSON.code c' =? 10) && block_boundary r'
            then EmptyString :: split_blocks r' else plain
        | EmptyString => plain
        end
      else if (JSON.code c =? 10) && block_boundary r
      then EmptyString :: split_blocks r
      else plain
  end.

(** The body of [for (const block of blocks)]: the chunks pushed so far and
    [current]. *)
Definition chunkStep (maxChars : Z) (acc : list string * string)
    (block : string) : list string * string :=
  let '(chunks, current) := acc in
  let '(chunks, current) :=
    if (str_length current + str_length block >? maxChars)
       && (str_length current >? 0)
    then (chunks ++ [trim current], "")
    else (chunks, current) in
  (chunks, current +:+ block +:+ line_feed).

Definition splitIntoChunks (text : string) (maxTokens : Z) : list string :=
  let maxChars := maxTokens * 4 in
  if str_length text <=? maxChars then [text]
  else
    let blocks := split_blocks text in
    let '(chunks, current) := fold_left (chunkStep maxChars) blocks ([], "") in
    if truthy (Some (trim current)) then chunks ++ [trim current] else chunks.

(* ===================================================================== *)
(** * Strings: lengths, slices, searches, decimal numerals                 *)
(* ===================================================================== *)

Lemma length_append (a b : string) :
  String.length (a +:+ b) = (String.length a + String.length b)%nat.
Proof. induction a as [|c a IH]; simpl; [reflexivity | now rewrite IH]. Qed.

Lemma str_length_append (a b : string) :
  str_length (a +:+ b) = str_length a + str_length b.
Proof. unfold str_length. rewrite length_append. lia. Qed.

Lemma str_length_nonneg (s : string) : 0 <= str_length s.
Proof. unfold str_length. lia. Qed.

Lemma length_substring (n m : nat) (s : string) :
  (n + m <= String.length s)%nat -> String.length (substring n m s) = m.
Proof.
  revert n m. induction s as [|c s IH]; intros n m H; simpl in *.
  - destruct n, m; simpl; lia.
  - destruct n as [|n].
    + destruct m as [|m]; simpl; [reflexivity|]. rewrite IH; simpl; lia.
    + apply IH. lia.
Qed.

Lemma slice_prefix_length (s : string) (e : Z) :
  0 <= e <= str_length s -> str_length (slice s 0 e) = e.
Proof.
  intros H. unfold slice.
  replace (0 <? 0) with false by reflexivity.
  destruct (e <? 0) eqn:He; [lia|].
  unfold str_length in *. rewrite length_substring; lia.
Qed.

Lemma get_lastIndexOf_scan (c : ascii) (s : string) (i limit found : Z) :
  0 <= i ->
  let r := lastIndexOf_scan c s i limit found in
  (r = found \/
   (i <= r <= limit /\ String.get (Z.to_nat (r - i)) s = Some c)) /\
  (found <= limit -> r <= limit) /\
  (found < i -> found <= r) /\
  (forall j, i <= j <= limit ->
             String.get (Z.to_nat (j - i)) s = Some c -> j <= r).
Proof.
  revert i found. induction s as [|a s IH]; intros i found Hi; simpl.
  - repeat split; try lia. intros j _ Hj; discriminate.
  - specialize (IH (i + 1)
      (if Ascii.eqb a c && (i <=? limit) then i else found) ltac:(lia)).
    cbv zeta in IH. destruct IH as (Hr & Hle & Hge & Hmax).
    set (found' := if Ascii.eqb a c && (i <=? limit) then i else found) in *.
    set (r := lastIndexOf_scan c s (i + 1) limit found') in *.
    assert (Hf : found' = found \/
                 (found' = i /\ a = c /\ i <= limit)).
    { unfold found'. destruct (Ascii.eqb_spec a c) as [->|]; simpl; auto.
      destruct (i <=? limit) eqn:E; auto. right.
      repeat split; lia. }
    assert (Hshift : forall j, i + 1 <= j ->
              Z.to_nat (j - i) = S (Z.to_nat (j - (i + 1)))) by (intros; lia).
    repeat split.
    + destruct Hr as [Hr | [Hr1 Hr2]].
      * destruct Hf as [Hf | (Hf & -> & Hl)]; [left; congruence|].
        right. rewrite Hr, Hf. replace (i - i) with 0 by lia.
        split; [lia | reflexivity].
      * right. split; [lia|]. rewrite Hshift by lia. exact Hr2.
    + intros Hfl. apply Hle. destruct Hf as [-> | (-> & _ & ?)]; lia.
    + intros Hfi. destruct Hf as [Hf | (Hf & _ & _)].
      * rewrite <- Hf. apply Hge. lia.
      * transitivity i; [lia|]. rewrite <- Hf. apply Hge. lia.
    + intros j Hj Hget.
      destruct (Z.eq_dec j i) as [-> | Hne].
      * replace (i - i) with 0 in Hget by lia. simpl in Hget.
        injection Hget as ->.
        assert (found' = i) as Hfi.
        { unfold found'. rewrite Ascii.eqb_refl. simpl.
          destruct (i <=? limit) eqn:E; [reflexivity | lia]. }
        rewrite <- Hfi at 1. apply Hge. lia.
      * apply Hmax; [lia|]. rewrite Hshift in Hget by lia. exact Hget.
Qed.

(** [lastIndexOf] returns [-1] or the greatest index, at most the start
    position, that holds the character. *)
Lemma lastIndexOf_spec (s : string) (c : ascii) (position : Z) :
  let r := lastIndexOf s c position in
  (r = -1 \/
   (0 <= r <= Z.max position 0 /\ String.get (Z.to_nat r) s = Some c)) /\
  (forall j, 0 <= j <= position ->
             String.get (Z.to_nat j) s = Some c -> j <= r).
Proof.
  unfold lastIndexOf.
  pose proof (get_lastIndexOf_scan c s 0 (Z.max position 0) (-1) ltac:(lia))
    as (Hr & _ & _ & Hmax).
  split.
  - destruct Hr as [Hr | [Hr1 Hr2]]; [now left | right].
    rewrite Z.sub_0_r in Hr2. auto.
  - intros j Hj Hget. apply Hmax; [lia|]. now rewrite Z.sub_0_r.
Qed.

Lemma length_decimal_digits (fuel k : nat) (n : Z) (acc : string) :
  (1 <= k)%nat -> 0 <= n < 10 ^ Z.of_nat k ->
  (String.length (decimal_digits fuel n acc) <= k + String.length acc)%nat.
Proof.
  revert k n acc. induction fuel as [|fuel IH]; intros k n acc Hk Hn; simpl.
  - lia.
  - destruct (n / 10 =? 0) eqn:E; simpl; [lia|].
    apply Z.eqb_neq in E.
    destruct k as [|[|k]]; [lia | |].
    + exfalso. apply E. apply Z.div_small. simpl in Hn. lia.
    + etransitivity.
      * apply (IH (S k)); [lia|].
        split; [apply Z.div_pos; lia|].
        apply Z.div_lt_upper_bound; [lia|].
        replace (Z.of_nat (S (S k))) with (Z.succ (Z.of_nat (S k))) in Hn
          by lia.
        rewrite Z.pow_succ_r in Hn by lia. lia.
      * simpl. lia.
Qed.

Lemma str_length_Number_toString (n : Z) (k : nat) :
  (1 <= k)%nat -> 0 <= n < 10 ^ Z.of_nat k ->
  str_length (Number_toString n) <= Z.of_nat k.
Proof.
  intros Hk Hn. unfold Number_toString, str_length.
  destruct (n <? 0) eqn:E; [lia|].
  pose proof (length_decimal_digits (S (Z.to_nat (Z.log2 n))) k n "" Hk Hn).
  simpl in *. lia.
Qed.

Lemma str_length_truncation_marker (cutAt len : Z) :
  str_length (truncation_marker cutAt len) =
  44 + str_length (Number_toString cutAt) + str_length (Number_toString len).
Proof.
  unfold truncation_marker. rewrite !str_length_append.
  unfold str_length at 1 3 5. simpl. lia.
Qed.

(* ===================================================================== *)
(** * Tool-result truncation                                               *)
(* ===================================================================== *)

Lemma truncateToolResult_truncateText (text : string) (maxChars : Z) :
  truncateToolResult text maxChars = truncateText text maxChars.
Proof. reflexivity. Qed.

Lemma truncateText_short (text : string) (maxChars : Z) :
  str_length text <= maxChars -> truncateText text maxChars = text.
Proof.
  intros H. unfold truncateText.
  destruct (str_length text <=? maxChars) eqn:E; [reflexivity | lia].
Qed.

(** The cut point chosen for a string longer than the cap. *)
Lemma truncateText_cut (text : string) (maxChars : Z) :
  maxChars < str_length text ->
  let keep := Z.max MIN_KEEP_CHARS (maxChars - 100) in
  exists cutAt,
    truncateText text maxChars =
      slice text 0 cutAt +:+ truncation_marker cutAt (str_length text) /\
    keep * 4 / 5 < cutAt <= keep /\
    ((forall i, keep * 4 / 5 < i < keep ->
                String.get (Z.to_nat i) text <> Some newline) ->
     cutAt = keep).
Proof.
  intros Hlen keep. unfold truncateText.
  destruct (str_length text <=? maxChars) eqn:E; [lia|]. clear E.
  fold keep.
  pose proof (lastIndexOf_spec text newline keep) as [Hr _].
  cbv zeta in Hr.
  set (r := lastIndexOf text newline keep) in *.
  assert (Hkeep : 2000 <= keep) by (unfold keep, MIN_KEEP_CHARS; lia).
  assert (Hse : keep * 4 / 5 < keep).
  { apply Z.div_lt_upper_bound; lia. }
  assert (Hse0 : 0 <= keep * 4 / 5) by (apply Z.div_pos; lia).
  destruct (r >? keep * 4 / 5) eqn:E.
  - apply Z.gtb_lt in E.
    exists r. split; [reflexivity|].
    destruct Hr as [Hr | [Hr1 Hr2]]; [lia|].
    split; [lia|].
    intros Hnone. destruct (Z.eq_dec r keep) as [|Hne]; [assumption|].
    exfalso. apply (Hnone r); [lia | exact Hr2].
  - exists keep. split; [reflexivity|]. split; [lia | reflexivity].
Qed.

Lemma str_length_truncateText_cut (text : string) (cutAt : Z) :
  0 <= cutAt <= str_length text ->
  str_length (slice text 0 cutAt
              +:+ truncation_marker cutAt (str_length text)) =
  cutAt + 44 + str_length (Number_toString cutAt)
  + str_length (Number_toString (str_length text)).
Proof.
  intros H. rewrite str_length_append, slice_prefix_length by assumption.
  rewrite str_length_truncation_marker. lia.
Qed.

Lemma MAX_STRING_LENGTH_digits : MAX_STRING_LENGTH < 10 ^ Z.of_nat 16.
Proof. reflexivity. Qed.

(** With room for the marker ([maxChars - 100 >= MIN_KEEP_CHARS]) a truncated
    string fits the cap. *)
Lemma truncateText_fits (text : string) (maxChars : Z) :
  MIN_KEEP_CHARS + 100 <= maxChars ->
  maxChars < str_length text <= MAX_STRING_LENGTH ->
  str_length (truncateText text maxChars) <= maxChars.
Proof.
  intros Hcap Hlen.
  destruct (truncateText_cut text maxChars ltac:(lia))
    as (cutAt & -> & Hcut & _).
  assert (Hkeep : Z.max MIN_KEEP_CHARS (maxChars - 100) = maxChars - 100)
    by (unfold MIN_KEEP_CHARS in *; lia).
  rewrite Hkeep in Hcut.
  assert (0 <= (maxChars - 100) * 4 / 5).
  { apply Z.div_pos; unfold MIN_KEEP_CHARS in *; lia. }
  rewrite str_length_truncateText_cut by lia.
  pose proof MAX_STRING_LENGTH_digits.
  pose proof (str_length_Number_toString cutAt 16 ltac:(lia) ltac:(lia)).
  pose proof (str_length_Number_toString (str_length text) 16
                ltac:(lia) ltac:(lia)).
  lia.
Qed.

(** C3, the claim as stated fails: with cap 2000 a three-character result
    comes back as it is, below the floor, and a result of 2001 characters
    comes back longer than it was. *)
Lemma truncation_bounds_counterexample :
  MIN_KEEP_CHARS <= 2000 /\
  ~ (MIN_KEEP_CHARS <= str_length (truncateToolResult "abc" 2000)) /\
  ~ (str_length (truncateToolResult (repeat_char "x" 2001) 2000)
     <= str_length (repeat_char "x" 2001)).
Proof.
  split; [unfold MIN_KEEP_CHARS; lia|].
  split; vm_compute; intros H; apply H; reflexivity.
Qed.

(** C3 (amended). For every cap at or above the floor: a result no longer
    than the cap is returned unchanged, whatever its length; a longer one is
    cut to its first [cutAt] characters followed by the marker, where [cutAt]
    lies above 80% of [keep = max(floor, cap - 100)] and is [keep] itself,
    hence at least the floor, unless a newline sits in that last fifth; and
    once the cap leaves room for the marker ([cap >= floor + 100]) the output
    is never longer than the original and a cut one fits the cap. *)
Theorem truncateToolResult_bounds (text : string) (cap : Z) :
  MIN_KEEP_CHARS <= cap ->
  let out := truncateToolResult text cap in
  let keep := Z.max MIN_KEEP_CHARS (cap - 100) in
  (str_length text <= cap -> out = text) /\
  (cap < str_length text ->
   exists cutAt,
     out = slice text 0 cutAt +:+ truncation_marker cutAt (str_length text) /\
     str_length (slice text 0 cutAt) = cutAt /\
     keep * 4 / 5 < cutAt <= keep /\
     1600 < cutAt < str_length out /\
     ((forall i, keep * 4 / 5 < i < keep ->
                 String.get (Z.to_nat i) text <> Some newline) ->
      cutAt = keep /\ MIN_KEEP_CHARS <= str_length out)) /\
  (MIN_KEEP_CHARS + 100 <= cap -> str_length text <= MAX_STRING_LENGTH ->
   str_length out <= str_length text /\
   (cap < str_length text -> str_length out <= cap)).
Proof.
  intros Hcap out keep. subst out.
  rewrite truncateToolResult_truncateText.
  split; [apply truncateText_short|]. split.
  - intros Hlen.
    destruct (truncateText_cut text cap Hlen) as (cutAt & Heq & Hcut & Hnl).
    fold keep in Hcut, Hnl.
    assert (Hkeep : 2000 <= keep < str_length text)
      by (unfold keep, MIN_KEEP_CHARS in *; lia).
    assert (Hse : 1600 <= keep * 4 / 5)
      by (apply Z.div_le_lower_bound; lia).
    assert (Hout : cutAt < str_length (truncateText text cap)).
    { rewrite Heq, str_length_truncateText_cut by lia.
      pose proof (str_length_nonneg (Number_toString cutAt)).
      pose proof (str_length_nonneg (Number_toString (str_length text))).
      lia. }
    exists cutAt. split; [exact Heq|].
    split; [apply slice_prefix_length; lia|].
    split; [exact Hcut|]. split; [lia|].
    intros Hnone. specialize (Hnl Hnone).
    split; [exact Hnl | unfold MIN_KEEP_CHARS; lia].
  - intros Hroom Hmax.
    destruct (Z_le_gt_dec (str_length text) cap) as [Hle | Hgt].
    + rewrite truncateText_short by assumption. split; lia.
    + pose proof (truncateText_fits text cap Hroom ltac:(lia)). split; lia.
Qed.

Lemma truncateToolResult_bounds_witness :
  MIN_KEEP_CHARS <= 2100 /\
  str_length (truncateToolResult (repeat_char "x" 2500) 2100)
  <= str_length (repeat_char "x" 2500).
Proof.
  assert (Hfloor : MIN_KEEP_CHARS <= 2100) by (unfold MIN_KEEP_CHARS; lia).
  split; [exact Hfloor|].
  destruct (truncateToolResult_bounds (repeat_char "x" 2500) 2100 Hfloor)
    as (_ & _ & Hupper).
  assert (Hroom : MIN_KEEP_CHARS + 100 <= 2100)
    by (unfold MIN_KEEP_CHARS; lia).
  assert (Hjs : str_length (repeat_char "x" 2500) <= MAX_STRING_LENGTH)
    by (vm_compute; discriminate).
  exact (proj1 (Hupper Hroom Hjs)).
Defined.

(* ===================================================================== *)
(** * Layer 1: the history window                                          *)
(* ===================================================================== *)

Lemma userCount_app (l1 l2 : list Message) :
  userCount (l1 ++ l2) = userCount l1 + userCount l2.
Proof. unfold userCount. rewrite List.filter_app, length_app. lia. Qed.

Lemma userCount_cons (m : Message) (l : list Message) :
  userCount (m :: l) = (if is_user m then 1 else 0) + userCount l.
Proof. unfold userCount. simpl. destruct (is_user m); simpl; lia. Qed.

Lemma userCount_nonneg (l : list Message) : 0 <= userCount l.
Proof. unfold userCount. lia. Qed.

Lemma userCount_rev (l : list Message) : userCount (rev l) = userCount l.
Proof.
  induction l as [|m l IH]; [reflexivity|]. simpl.
  rewrite userCount_app, IH, !userCount_cons. unfold userCount at 2. simpl.
  lia.
Qed.

(** What the backward loop finds: the scanned messages split into the
    [recent] ones, which hold at most [maxTurns - userCount] user messages,
    and the [older] ones, which start at the user message that exceeded the
    limit; [cutIndex] is the number of older ones. *)
Lemma scanBack_spec (reversed : list Message) (count maxTurns : Z) :
  count <= maxTurns ->
  exists recent older,
    reversed = recent ++ older /\
    scanBack reversed count maxTurns = length older /\
    count + userCount recent <= maxTurns /\
    (older = [] \/
     exists u older', older = u :: older' /\ is_user u = true /\
                      count + userCount recent = maxTurns).
Proof.
  revert count. induction reversed as [|m rest IH]; intros count Hc; simpl.
  - exists [], []. repeat split; auto. unfold userCount; simpl; lia.
  - destruct (is_user m) eqn:Hm.
    + destruct (count + 1 >? maxTurns) eqn:E.
      * apply Z.gtb_lt in E. exists [], (m :: rest).
        repeat split; auto; [unfold userCount; simpl; lia|].
        right. exists m, rest. repeat split; auto.
        unfold userCount; simpl; lia.
      * assert (count + 1 <= maxTurns) as Hc'.
        { rewrite Z.gtb_ltb in E. apply Z.ltb_ge in E. exact E. }
        destruct (IH (count + 1) Hc') as (recent & older & -> & Hcut & Hle & Ho).
        exists (m :: recent), older. rewrite userCount_cons, Hm.
        repeat split; auto; [lia|].
        destruct Ho as [-> | (u & older' & -> & Hu & Heq)]; [now left|].
        right. exists u, older'. repeat split; auto. lia.
    + destruct (IH count Hc) as (recent & older & -> & Hcut & Hle & Ho).
      exists (m :: recent), older. rewrite userCount_cons, Hm.
      repeat split; auto.
Qed.

(** Layer 1 keeps a suffix with at most [maxTurns] user messages, and when it
    drops anything the suffix holds exactly [maxTurns] of them and what is
    dropped ends with a user message. *)
Lemma limitHistoryTurns_spec (messages : list Message) (maxTurns : Z) :
  0 < maxTurns ->
  exists old kept,
    messages = old ++ kept /\
    limitHistoryTurns messages maxTurns = kept /\
    userCount kept <= maxTurns /\
    (old = [] \/
     userCount kept = maxTurns /\
     exists old' u, old = old' ++ [u] /\ is_user u = true).
Proof.
  intros Hk. unfold limitHistoryTurns.
  destruct (maxTurns <=? 0) eqn:E; [lia|]. clear E.
  destruct (scanBack_spec (rev messages) 0 maxTurns ltac:(lia))
    as (recent & older & Hrev & -> & Hle & Ho).
  assert (Hm : messages = rev older ++ rev recent).
  { rewrite <- rev_app_distr, <- Hrev. symmetry. apply rev_involutive. }
  exists (rev older), (rev recent). split; [exact Hm|].
  split.
  { rewrite Hm. apply drop_app_length'. symmetry. apply length_rev. }
  rewrite userCount_rev. split; [lia|].
  destruct Ho as [-> | (u & older' & -> & Hu & Heq)]; [now left|].
  right. split; [lia|]. exists (rev older'), u. split; [reflexivity | exact Hu].
Qed.

Lemma limitHistoryTurns_disabled (messages : list Message) (maxTurns : Z) :
  maxTurns <= 0 -> limitHistoryTurns messages maxTurns = messages.
Proof.
  intros H. unfold limitHistoryTurns.
  destruct (maxTurns <=? 0) eqn:E; [reflexivity | lia].
Qed.

Lemma limitHistoryTurns_within (messages : list Message) (maxTurns : Z) :
  userCount messages <= maxTurns ->
  limitHistoryTurns messages maxTurns = messages.
Proof.
  intros H. destruct (Z_le_gt_dec maxTurns 0) as [Hk | Hk].
  - now apply limitHistoryTurns_disabled.
  - destruct (limitHistoryTurns_spec messages maxTurns ltac:(lia))
      as (old & kept & Hm & -> & Hle & Ho).
    destruct Ho as [-> | (Heq & old' & u & -> & Hu)]; [now rewrite Hm|].
    exfalso. rewrite Hm, !userCount_app, userCount_cons, Hu in H.
    pose proof (userCount_nonneg old'). unfold userCount at 2 in H.
    simpl in H. lia.
Qed.

(* ===================================================================== *)
(** * Layer 2: truncation of tool results                                  *)
(* ===================================================================== *)

Lemma truncateToolResults_map (messages : list Message) (maxChars : Z) :
  truncateToolResults messages maxChars = map (truncateMessage maxChars) messages.
Proof. reflexivity. Qed.

Lemma map_truncateBlock_none (maxChars : Z) (blocks : list ContentBlock) :
  existsb is_tool_result blocks = false ->
  map (truncateBlock maxChars) blocks = blocks.
Proof.
  induction blocks as [|b blocks IH]; simpl; [reflexivity|].
  intros H. apply orb_false_elim in H as [Hb Hbs].
  rewrite IH by assumption. destruct b; try discriminate; reflexivity.
Qed.

(** Whether or not the message holds a tool_result, its blocks are the
    truncated ones. *)
Lemma truncateMessage_blocks (maxChars : Z) (blocks : list ContentBlock) :
  truncateMessage maxChars {| role := user; content := Blocks blocks |} =
  {| role := user; content := Blocks (map (truncateBlock maxChars) blocks) |}.
Proof.
  unfold truncateMessage. simpl.
  destruct (existsb is_tool_result blocks) eqn:E; [reflexivity|].
  now rewrite map_truncateBlock_none.
Qed.

Lemma role_truncateMessage (maxChars : Z) (msg : Message) :
  role (truncateMessage maxChars msg) = role msg.
Proof.
  destruct msg as [[] [s | blocks]]; try reflexivity.
  unfold truncateMessage. simpl.
  destruct (existsb is_tool_result blocks); reflexivity.
Qed.

Lemma userCount_truncateToolResults (messages : list Message) (maxChars : Z) :
  userCount (truncateToolResults messages maxChars) = userCount messages.
Proof.
  rewrite truncateToolResults_map.
  induction messages as [|m l IH]; [reflexivity|]. simpl.
  rewrite !userCount_cons, IH. unfold is_user.
  now rewrite role_truncateMessage.
Qed.

Lemma truncateBlock_fits_id (maxChars : Z) (block : ContentBlock) :
  block_fits maxChars block -> truncateBlock maxChars block = block.
Proof.
  destruct block as [| |tid c]; simpl; try reflexivity.
  intros H. destruct (str_length c >? maxChars) eqn:E; [|reflexivity].
  apply Z.gtb_lt in E. lia.
Qed.

Lemma truncateMessage_fits_id (maxChars : Z) (msg : Message) :
  message_fits maxChars msg -> truncateMessage maxChars msg = msg.
Proof.
  destruct msg as [r c]. unfold message_fits. simpl.
  destruct r, c as [s | blocks]; try reflexivity.
  intros H. rewrite truncateMessage_blocks. do 2 f_equal.
  induction H as [|b bs Hb _ IH]; simpl; [reflexivity|].
  now rewrite truncateBlock_fits_id, IH.
Qed.

(** Layer 2 changes nothing when every tool result already fits the cap. *)
Lemma truncateToolResults_fits_id (messages : list Message) (maxChars : Z) :
  tool_results_fit maxChars messages ->
  truncateToolResults messages maxChars = messages.
Proof.
  intros H. rewrite truncateToolResults_map.
  induction H as [|m l Hm _ IH]; simpl; [reflexivity|].
  now rewrite truncateMessage_fits_id, IH.
Qed.

Lemma truncateBlock_fits (maxChars : Z) (block : ContentBlock) :
  MIN_KEEP_CHARS + 100 <= maxChars ->
  block_fits MAX_STRING_LENGTH block ->
  block_fits maxChars (truncateBlock maxChars block).
Proof.
  intros Hcap. destruct block as [| |tid c]; simpl; auto.
  intros Hc. destruct (str_length c >? maxChars) eqn:E; simpl.
  - apply Z.gtb_lt in E. apply truncateText_fits; lia.
  - rewrite Z.gtb_ltb in E. apply Z.ltb_ge in E. exact E.
Qed.

(** With room for the marker, the results of layer 2 fit the cap. *)
Lemma truncateToolResults_fits (messages : list Message) (maxChars : Z) :
  MIN_KEEP_CHARS + 100 <= maxChars ->
  tool_results_fit MAX_STRING_LENGTH messages ->
  tool_results_fit maxChars (truncateToolResults messages maxChars).
Proof.
  intros Hcap H. rewrite truncateToolResults_map.
  induction H as [|m l Hm _ IH]; simpl; constructor; [|exact IH].
  destruct m as [r c]. unfold message_fits in *. simpl in *.
  destruct r, c as [s | blocks]; simpl; auto.
  rewrite truncateMessage_blocks. simpl.
  induction Hm as [|b bs Hb _ IHb]; simpl; constructor; auto.
  now apply truncateBlock_fits.
Qed.

(* ===================================================================== *)
(** * Layer 3: orphan cleanup                                              *)
(* ===================================================================== *)

Lemma resolves_nil (tid : string) : ~ resolves [] tid.
Proof. intros (m & bs & n & i & Hm & _). inversion Hm. Qed.

Lemma resolves_cons (m : Message) (l : list Message) (tid : string) :
  resolves (m :: l) tid <->
  (role m = assistant /\
   exists blocks name input,
     content m = Blocks blocks /\ tool_use_block tid name input ∈ blocks) \/
  resolves l tid.
Proof.
  split.
  - intros (m' & bs & n & i & Hm & Hr & Hc & Hb).
    apply elem_of_cons in Hm as [-> | Hm].
    + left. eauto 6.
    + right. exists m', bs, n, i. auto.
  - intros [(Hr & bs & n & i & Hc & Hb) | (m' & bs & n & i & Hm & H)].
    + exists m, bs, n, i. repeat split; auto. apply elem_of_cons; auto.
    + exists m', bs, n, i. split; [apply elem_of_cons; auto | exact H].
Qed.

Lemma elem_of_collect_blocks (blocks : list ContentBlock) (ids : gset string)
    (tid : string) :
  tid ∈ foldl (fun ids block =>
                 match block with
                 | tool_use_block id _ _ => {[ id ]} ∪ ids
                 | _ => ids
                 end) ids blocks <->
  tid ∈ ids \/ exists name input, tool_use_block tid name input ∈ blocks.
Proof.
  revert ids. induction blocks as [|b bs IH]; intros ids; simpl.
  - split; [auto | intros [H | (n & i & H)]; [exact H | inversion H]].
  - rewrite IH. split.
    + intros [H | (n & i & H)].
      * destruct b as [t | id n i | t c]; auto.
        apply elem_of_union in H as [H | H]; auto.
        apply elem_of_singleton in H as ->.
        right. exists n, i. apply elem_of_cons; auto.
      * right. exists n, i. apply elem_of_cons; auto.
    + intros [H | (n & i & H)].
      * left. destruct b; auto. apply elem_of_union; auto.
      * apply elem_of_cons in H as [<- | H]; [|right; eauto].
        left. apply elem_of_union. left. now apply elem_of_singleton.
Qed.

Lemma elem_of_collect_from (messages : list Message) (ids : gset string)
    (tid : string) :
  tid ∈ foldl (fun ids msg =>
                 match role msg, content msg with
                 | assistant, Blocks blocks =>
                     foldl (fun ids block =>
                              match block with
                              | tool_use_block id _ _ => {[ id ]} ∪ ids
                              | _ => ids
                              end) ids blocks
                 | _, _ => ids
                 end) ids messages <->
  tid ∈ ids \/ resolves messages tid.
Proof.
  revert ids. induction messages as [|m l IH]; intros ids; simpl.
  - split; [auto | intros [H | H]; [exact H | now apply resolves_nil in H]].
  - rewrite IH, resolves_cons. destruct m as [[] [s | blocks]]; simpl.
    + split; [tauto|]. intros [H | [(Hr & _) | H]]; auto. discriminate.
    + split; [tauto|]. intros [H | [(Hr & _) | H]]; auto. discriminate.
    + split; [tauto|].
      intros [H | [(_ & bs & n & i & Hc & _) | H]]; auto. discriminate.
    + rewrite elem_of_collect_blocks. split.
      * intros [[H | (n & i & H)] | H]; auto.
        right. left. split; [reflexivity|]. eauto.
      * intros [H | [(_ & bs & n & i & Hc & H) | H]]; auto.
        injection Hc as <-. left. right. eauto.
Qed.

(** The set collected by the cleanup is the set of ids that resolve. *)
Lemma elem_of_collectToolUseIds (messages : list Message) (tid : string) :
  tid ∈ collectToolUseIds messages <-> resolves messages tid.
Proof.
  unfold collectToolUseIds. rewrite elem_of_collect_from.
  split; [intros [H | H]; [now apply not_elem_of_empty in H | exact H] | auto].
Qed.

Lemma cleanMessage_assistant (ids : gset string) (m : Message) :
  role m = assistant -> cleanMessage ids m = Some m.
Proof. unfold cleanMessage. now intros ->. Qed.

Lemma cleanMessage_role (ids : gset string) (m m' : Message) :
  cleanMessage ids m = Some m' -> role m' = role m.
Proof.
  unfold cleanMessage. destruct m as [[] [s | blocks]]; simpl;
    try (intros [= <-]; reflexivity).
  destruct (Z.of_nat _ =? 0); [discriminate | intros [= <-]; reflexivity].
Qed.

(** What the cleanup leaves of a user message with blocks. *)
Lemma cleanMessage_user_blocks (ids : gset string) (m m' : Message)
    (blocks : list ContentBlock) :
  cleanMessage ids m = Some m' -> role m' = user -> content m' = Blocks blocks ->
  blocks <> [] /\
  forall tid c, tool_result_block tid c ∈ blocks -> tid ∈ ids.
Proof.
  unfold cleanMessage. destruct m as [[] [s | bs]]; simpl.
  - intros [= <-] _ Hc; discriminate.
  - intros H _ Hc.
    set (filtered := List.filter (keepBlock ids) bs) in *.
    destruct (Z.of_nat (length filtered) =? 0) eqn:E; [discriminate|].
    injection H as <-. simpl in Hc. injection Hc as <-.
    split.
    + intros Hnil. rewrite Hnil in E. discriminate.
    + intros tid c Hin. apply list_elem_of_In, filter_In in Hin as [_ Hk].
      simpl in Hk. now apply bool_decide_eq_true in Hk.
  - intros [= <-]; discriminate.
  - intros [= <-]; discriminate.
Qed.

Lemma resolves_removeOrphanedToolResults (messages : list Message)
    (tid : string) :
  resolves (removeOrphanedToolResults messages) tid <-> resolves messages tid.
Proof.
  unfold removeOrphanedToolResults.
  generalize (collectToolUseIds messages) as ids. intros ids.
  split.
  - intros (m' & bs & n & i & Hm & Hr & Hc & Hb).
    apply list_elem_of_omap in Hm as (m & Hm & Hclean).
    pose proof (cleanMessage_role _ _ _ Hclean) as Hrole.
    rewrite cleanMessage_assistant in Hclean by congruence.
    injection Hclean as ->. exists m', bs, n, i. auto.
  - intros (m & bs & n & i & Hm & Hr & Hc & Hb).
    exists m, bs, n, i. repeat split; auto.
    apply list_elem_of_omap. exists m. split; [exact Hm|].
    now apply cleanMessage_assistant.
Qed.

Lemma collectToolUseIds_removeOrphanedToolResults (messages : list Message) :
  collectToolUseIds (removeOrphanedToolResults messages) =
  collectToolUseIds messages.
Proof.
  apply set_eq. intros tid. rewrite !elem_of_collectToolUseIds.
  apply resolves_removeOrphanedToolResults.
Qed.

Lemma filter_filter_same {X : Type} (f : X -> bool) (l : list X) :
  List.filter f (List.filter f l) = List.filter f l.
Proof.
  induction l as [|x l IH]; simpl; [reflexivity|].
  destruct (f x) eqn:E; simpl; [rewrite E, IH|]; auto.
Qed.

Lemma cleanMessage_idempotent (ids : gset string) (m m' : Message) :
  cleanMessage ids m = Some m' -> cleanMessage ids m' = Some m'.
Proof.
  unfold cleanMessage. destruct m as [[] [s | bs]]; simpl;
    try (intros [= <-]; reflexivity).
  destruct (Z.of_nat (length (List.filter (keepBlock ids) bs)) =? 0) eqn:E;
    [discriminate|].
  intros [= <-]. simpl. now rewrite filter_filter_same, E.
Qed.

Lemma omap_cons {X Y : Type} (f : X -> option Y) (x : X) (l : list X) :
  omap f (x :: l) =
  match f x with Some y => y :: omap f l | None => omap f l end.
Proof. reflexivity. Qed.

Lemma omap_idempotent {X : Type} (f : X -> option X) (l : list X) :
  (forall x y, f x = Some y -> f y = Some y) ->
  omap f (omap f l) = omap f l.
Proof.
  intros Hf. induction l as [|x l IH]; simpl; [reflexivity|].
  destruct (f x) as [y|] eqn:E; simpl; [|exact IH].
  rewrite (Hf _ _ E). simpl. f_equal. exact IH.
Qed.

(** Cleaning twice is cleaning once. *)
Lemma removeOrphanedToolResults_idempotent (messages : list Message) :
  removeOrphanedToolResults (removeOrphanedToolResults messages) =
  removeOrphanedToolResults messages.
Proof.
  unfold removeOrphanedToolResults at 1.
  rewrite collectToolUseIds_removeOrphanedToolResults.
  apply omap_idempotent, cleanMessage_idempotent.
Qed.

Lemma userCount_removeOrphanedToolResults (messages : list Message) :
  userCount (removeOrphanedToolResults messages) <= userCount messages.
Proof.
  unfold removeOrphanedToolResults.
  generalize (collectToolUseIds messages) as ids. intros ids.
  induction messages as [|m l IH]; [reflexivity|].
  rewrite omap_cons, (userCount_cons m).
  destruct (cleanMessage ids m) as [m'|] eqn:E.
  - rewrite userCount_cons. unfold is_user.
    rewrite (cleanMessage_role _ _ _ E). destruct (role m); lia.
  - destruct (is_user m); lia.
Qed.

Lemma message_fits_cleanMessage (cap : Z) (ids : gset string)
    (m m' : Message) :
  cleanMessage ids m = Some m' -> message_fits cap m -> message_fits cap m'.
Proof.
  unfold cleanMessage, message_fits. destruct m as [[] [s | bs]]; simpl;
    try (intros [= <-]; simpl; auto).
  destruct (Z.of_nat _ =? 0); [discriminate|].
  intros [= <-] H. simpl. apply Forall_forall. intros b Hb.
  apply list_elem_of_In, filter_In in Hb as [Hb _].
  rewrite Forall_forall in H. apply H. now apply list_elem_of_In.
Qed.

Lemma tool_results_fit_removeOrphanedToolResults (cap : Z)
    (messages : list Message) :
  tool_results_fit cap messages ->
  tool_results_fit cap (removeOrphanedToolResults messages).
Proof.
  unfold removeOrphanedToolResults, tool_results_fit.
  generalize (collectToolUseIds messages) as ids. intros ids H.
  induction H as [|m l Hm _ IH]; simpl; [constructor|].
  destruct (cleanMessage ids m) as [m'|] eqn:E; [|exact IH].
  constructor; [|exact IH]. eapply message_fits_cleanMessage; eauto.
Qed.

(* ===================================================================== *)
(** * The context preparer as a whole                                      *)
(* ===================================================================== *)

(** C1, the claim as stated fails: the cleanup only looks into user
    messages, so an assistant message with no block at all stays in the
    bounded context, and so does a tool_result carried by an assistant
    message whatever it refers to. *)
Lemma prepareContext_integrity_counterexample :
  let config := {| maxHistoryTurns := 50; maxToolResultChars := 100000 |} in
  ~ no_empty_message
      (prepareContext [ {| role := assistant; content := Blocks [] |} ] config)
  /\
  ~ references_resolve
      (prepareContext
         [ {| role := assistant;
              content := Blocks [ tool_result_block "gone" "late" ] |} ]
         config).
Proof.
  split.
  - intros H. apply (H {| role := assistant; content := Blocks [] |}).
    + vm_compute. constructor.
    + reflexivity.
  - intros H.
    destruct (H {| role := assistant;
                   content := Blocks [ tool_result_block "gone" "late" ] |}
                [ tool_result_block "gone" "late" ] "gone" "late")
      as (m & bs & n & i & Hm & _ & Hc & Hb).
    + vm_compute. constructor.
    + reflexivity.
    + constructor.
    + vm_compute in Hm. apply list_elem_of_singleton in Hm. subst m.
      injection Hc as <-. apply list_elem_of_singleton in Hb. discriminate.
Qed.

(** C1 (amended). In the output of [prepareContext] every user message has
    at least one content block (or is a plain string), and every tool_result
    of a user message refers to a tool_use of an assistant message of that
    same output. *)
Theorem prepareContext_integrity (messages : list Message)
    (config : ContextConfig) (m : Message) :
  m ∈ prepareContext messages config -> role m = user ->
  content m <> Blocks [] /\
  forall blocks tid c,
    content m = Blocks blocks -> tool_result_block tid c ∈ blocks ->
    resolves (prepareContext messages config) tid.
Proof.
  unfold prepareContext.
  set (stage2 := truncateToolResults _ _).
  intros Hm Hrole. unfold removeOrphanedToolResults in Hm.
  apply list_elem_of_omap in Hm as (m0 & _ & Hclean).
  split.
  - intros Hc.
    now destruct (cleanMessage_user_blocks _ _ _ [] Hclean Hrole Hc).
  - intros blocks tid c Hc Hb.
    destruct (cleanMessage_user_blocks _ _ _ blocks Hclean Hrole Hc)
      as [_ Hids].
    apply resolves_removeOrphanedToolResults, elem_of_collectToolUseIds.
    eapply Hids, Hb.
Qed.

Lemma prepareContext_integrity_witness :
  let config := {| maxHistoryTurns := 50; maxToolResultChars := 100000 |} in
  let call := {| role := assistant;
                 content := Blocks [ tool_use_block "tu_1" "bash" (JObj []) ] |} in
  let reply := {| role := user;
                  content := Blocks [ tool_result_block "tu_1" "valid";
                                      tool_result_block "orphan" "orphaned" ] |} in
  let kept := {| role := user;
                 content := Blocks [ tool_result_block "tu_1" "valid" ] |} in
  prepareContext [call; reply] config = [call; kept] /\
  resolves (prepareContext [call; reply] config) "tu_1".
Proof.
  intros config call reply kept.
  assert (Heq : prepareContext [call; reply] config = [call; kept])
    by (vm_compute; reflexivity).
  split; [exact Heq|].
  assert (Hin : kept ∈ prepareContext [call; reply] config).
  { rewrite Heq. apply elem_of_cons. right. constructor. }
  destruct (prepareContext_integrity [call; reply] config kept Hin eq_refl)
    as [_ Hres].
  apply (Hres [ tool_result_block "tu_1" "valid" ] "tu_1" "valid" eq_refl).
  constructor.
Defined.

Lemma tool_results_fit_limitHistoryTurns (cap : Z) (messages : list Message)
    (maxTurns : Z) :
  tool_results_fit cap messages ->
  tool_results_fit cap (limitHistoryTurns messages maxTurns).
Proof.
  unfold limitHistoryTurns, tool_results_fit.
  destruct (maxTurns <=? 0); [auto | apply Forall_drop].
Qed.

Lemma userCount_limitHistoryTurns (messages : list Message) (maxTurns : Z) :
  0 < maxTurns -> userCount (limitHistoryTurns messages maxTurns) <= maxTurns.
Proof.
  intros Hk.
  destruct (limitHistoryTurns_spec messages maxTurns Hk)
    as (old & kept & _ & -> & Hle & _). exact Hle.
Qed.

(** The three layers leave alone a list that holds few enough user messages,
    whose tool results fit, and that was already cleaned. *)
Lemma prepareContext_fixpoint (cleaned : list Message) (config : ContextConfig) :
  (maxHistoryTurns config <= 0 \/ userCount cleaned <= maxHistoryTurns config) ->
  tool_results_fit
    (Z.min (maxToolResultChars config) HARD_MAX_TOOL_RESULT_CHARS) cleaned ->
  removeOrphanedToolResults cleaned = cleaned ->
  prepareContext cleaned config = cleaned.
Proof.
  intros Hk Hfit Hclean. unfold prepareContext.
  assert (limitHistoryTurns cleaned (maxHistoryTurns config) = cleaned) as ->.
  { destruct Hk; [now apply limitHistoryTurns_disabled
                 | now apply limitHistoryTurns_within]. }
  now rewrite truncateToolResults_fits_id.
Qed.

(** C4, the claim as stated fails: with a cap of 50 the first pass keeps
    2000 characters and a marker, which is again longer than the cap, so the
    second pass cuts again and writes a marker with another original
    length. *)
Lemma prepareContext_idempotent_counterexample :
  let config := {| maxHistoryTurns := 50; maxToolResultChars := 50 |} in
  let messages :=
    [ {| role := assistant;
         content := Blocks [ tool_use_block "tu_1" "bash" (JObj []) ] |};
      {| role := user;
         content := Blocks [ tool_result_block "tu_1" (repeat_char "a" 5000) ] |} ]
  in
  prepareContext (prepareContext messages config) config
  <> prepareContext messages config.
Proof.
  intros config messages H.
  set (digit_at := fun l : list Message =>
         map (fun m => match content m with
                       | Blocks [ tool_result_block _ c ] => String.get 2036 c
                       | _ => None
                       end) l).
  apply (f_equal digit_at) in H. vm_compute in H. discriminate.
Qed.

(** C4 (amended). When the configured cap leaves room for the marker
    ([maxToolResultChars >= MIN_KEEP_CHARS + 100 = 2100]) and the tool results
    are JavaScript strings (at most [MAX_STRING_LENGTH] long), applying
    [prepareContext] to its own output returns that output unchanged. *)
Theorem prepareContext_idempotent (messages : list Message)
    (config : ContextConfig) :
  MIN_KEEP_CHARS + 100 <= maxToolResultChars config ->
  tool_results_fit MAX_STRING_LENGTH messages ->
  prepareContext (prepareContext messages config) config =
  prepareContext messages config.
Proof.
  intros Hcap Hjs. apply prepareContext_fixpoint; unfold prepareContext.
  - destruct (Z_le_gt_dec (maxHistoryTurns config) 0) as [Hk | Hk]; [now left|].
    right. etransitivity; [apply userCount_removeOrphanedToolResults|].
    rewrite userCount_truncateToolResults.
    apply userCount_limitHistoryTurns. lia.
  - apply tool_results_fit_removeOrphanedToolResults, truncateToolResults_fits.
    + unfold MIN_KEEP_CHARS, HARD_MAX_TOOL_RESULT_CHARS in *. lia.
    + now apply tool_results_fit_limitHistoryTurns.
  - apply removeOrphanedToolResults_idempotent.
Qed.

Lemma prepareContext_idempotent_witness :
  let config := {| maxHistoryTurns := 50; maxToolResultChars := 2100 |} in
  let messages :=
    [ {| role := assistant;
         content := Blocks [ tool_use_block "tu_1" "bash" (JObj []) ] |};
      {| role := user;
         content := Blocks [ tool_result_block "tu_1" (repeat_char "a" 5000) ] |} ]
  in
  prepareContext (prepareContext messages config) config =
  prepareContext messages config.
Proof.
  intros config messages.
  apply (prepareContext_idempotent messages config).
  - unfold MIN_KEEP_CHARS. simpl. lia.
  - repeat constructor. vm_compute. discriminate.
Defined.

Lemma prepareContext_of_kept (old kept : list Message) (config : ContextConfig) :
  limitHistoryTurns (old ++ kept) (maxHistoryTurns config) = kept ->
  userCount kept <= maxHistoryTurns config ->
  prepareContext (old ++ kept) config = prepareContext kept config.
Proof.
  intros Hcut Hle. unfold prepareContext.
  now rewrite Hcut, limitHistoryTurns_within.
Qed.

(** C5. With a positive limit [k] and at least [k] user messages, the
    transcript splits into an old part and a kept part that holds exactly the
    [k] most recent user messages; layer 1 returns the kept part, the prepared
    context is made from the kept part alone, by layers 2 and 3, and holds at
    most [k] user messages. The five-message transcript with limit 2 prepares to its
    last four messages, and a non-positive limit makes layer 1 return the
    list as it is. *)
Theorem history_window_law :
  (forall messages config,
     0 < maxHistoryTurns config ->
     maxHistoryTurns config <= userCount messages ->
     exists old kept,
       messages = old ++ kept /\
       userCount kept = maxHistoryTurns config /\
       limitHistoryTurns messages (maxHistoryTurns config) = kept /\
       prepareContext messages config =
         removeOrphanedToolResults
           (truncateToolResults kept
              (Z.min (maxToolResultChars config) HARD_MAX_TOOL_RESULT_CHARS)) /\
       prepareContext messages config = prepareContext kept config /\
       userCount (prepareContext messages config) <= maxHistoryTurns config) /\
  (forall cap,
     prepareContext
       [ {| role := user; content := Str "Turn1" |};
         {| role := assistant; content := Str "Resp1" |};
         {| role := user; content := Str "Turn2" |};
         {| role := assistant; content := Str "Resp2" |};
         {| role := user; content := Str "Turn3" |} ]
       {| maxHistoryTurns := 2; maxToolResultChars := cap |} =
     [ {| role := assistant; content := Str "Resp1" |};
       {| role := user; content := Str "Turn2" |};
       {| role := assistant; content := Str "Resp2" |};
       {| role := user; content := Str "Turn3" |} ]) /\
  (forall messages maxTurns,
     maxTurns <= 0 -> limitHistoryTurns messages maxTurns = messages).
Proof.
  split; [|split].
  - intros messages config Hk Hm.
    destruct (limitHistoryTurns_spec messages _ Hk)
      as (old & kept & Heq & Hcut & Hle & Ho).
    assert (Hexact : userCount kept = maxHistoryTurns config).
    { destruct Ho as [-> | [Hexact _]]; [|exact Hexact].
      simpl in Heq. subst kept. lia. }
    exists old, kept. repeat split; auto.
    + unfold prepareContext. now rewrite Hcut.
    + rewrite Heq. apply prepareContext_of_kept; [|lia]. now rewrite <- Heq.
    + unfold prepareContext.
      etransitivity; [apply userCount_removeOrphanedToolResults|].
      rewrite userCount_truncateToolResults, Hcut. lia.
  - intros cap. reflexivity.
  - apply limitHistoryTurns_disabled.
Qed.

Lemma history_window_law_witness :
  let config := {| maxHistoryTurns := 1; maxToolResultChars := 100000 |} in
  let messages :=
    [ {| role := user; content := Str "Old" |};
      {| role := assistant; content := Str "Old reply" |};
      {| role := user; content := Str "Recent" |};
      {| role := assistant; content := Str "Recent reply" |} ] in
  0 < maxHistoryTurns config /\
  maxHistoryTurns config <= userCount messages /\
  userCount (prepareContext messages config) <= 1.
Proof.
  intros config messages.
  assert (Hk : 0 < maxHistoryTurns config) by (simpl; lia).
  assert (Hm : maxHistoryTurns config <= userCount messages)
    by (vm_compute; discriminate).
  split; [exact Hk|]. split; [exact Hm|].
  destruct (proj1 history_window_law messages config Hk Hm)
    as (old & kept & _ & _ & _ & _ & _ & Hcount).
  exact Hcount.
Defined.

(* ===================================================================== *)
(** * The provider adapters                                                *)
(* ===================================================================== *)

Lemma stop_reasons_app (l1 l2 : list StreamEvent) :
  stop_reasons (l1 ++ l2) = stop_reasons l1 ++ stop_reasons l2.
Proof. unfold stop_reasons. apply flat_map_app. Qed.

Lemma stop_reasons_flat_map_none {X : Type} (f : X -> list StreamEvent)
    (l : list X) :
  (forall x e, In e (f x) -> is_message_stop e = false) ->
  stop_reasons (flat_map f l) = [].
Proof.
  intros Hf. induction l as [|x l IH]; simpl; [reflexivity|].
  rewrite stop_reasons_app, IH, app_nil_r.
  specialize (Hf x). induction (f x) as [|e es IHe]; simpl; [reflexivity|].
  rewrite IHe by (intros e' He'; apply Hf; now right).
  specialize (Hf e (or_introl eq_refl)). destruct e; try discriminate.
  all: reflexivity.
Qed.

Lemma stop_reasons_none (l : list StreamEvent) :
  Forall (fun e => is_message_stop e = false) l -> stop_reasons l = [].
Proof.
  induction 1 as [|e l He _ IH]; simpl; [reflexivity|].
  rewrite IH. destruct e; try discriminate; reflexivity.
Qed.

Lemma onChunk_ok (st : OpenAIState) (chunk : OpenAIChunk) :
  OpenAIState_ok st -> OpenAIState_ok (onChunk st chunk).
Proof.
  intros [Htext Hstop]. unfold onChunk.
  destruct (head (choices chunk)) as [choice|]; [|now split].
  destruct (choice_delta choice) as [delta|]; [|now split].
  split; simpl.
  - destruct (truthy (delta_content delta)); [|exact Htext].
    apply Forall_app. split; [exact Htext|]. now repeat constructor.
  - destruct (finish_reason choice) as [reason|]; [|exact Hstop].
    destruct (String.eqb_spec reason "tool_calls") as [-> | Hne1]; [now right|].
    destruct (String.eqb_spec reason "stop") as [-> | Hne2]; [now left|].
    repeat (destruct reason as [|[[] [] [] [] [] [] [] []] reason];
            try exact Hstop; try congruence).
Qed.

Lemma fold_onChunk_ok (chunks : list OpenAIChunk) (st : OpenAIState) :
  OpenAIState_ok st -> OpenAIState_ok (fold_left onChunk chunks st).
Proof.
  revert st. induction chunks as [|c cs IH]; intros st H; simpl; [exact H|].
  apply IH, onChunk_ok, H.
Qed.

(** C6, the claim as stated fails: the block-native adapter hands on the
    upstream stop reason as it is, so a response cut at the token limit ends
    with the stop reason [max_tokens]. *)
Lemma adapter_stop_reason_counterexample :
  let response :=
    {| upstream_events := [ content_block_delta (text_delta "Once upon") ];
       final_content := [ text_block "Once upon" ];
       final_stop_reason := Some "max_tokens" |} in
  stop_reasons (AnthropicClient_stream response) = [ "max_tokens" ] /\
  "max_tokens" <> "end_turn" /\ "max_tokens" <> "tool_use".
Proof. repeat split; discriminate. Qed.

Lemma default_last_cons {X : Type} (a x : X) (l : list X) :
  default a (last (x :: l)) = default x (last l).
Proof.
  revert a x. induction l as [|y l IH]; intros a x; [reflexivity|].
  change (last (x :: y :: l)) with (last (y :: l)).
  now rewrite (IH a y), (IH x y).
Qed.

(** The two finish reasons that the chunk loop tells apart. *)
Lemma stopReason_cases (finishReason previous : string) :
  match finishReason with
  | "tool_calls" => "tool_use"
  | "stop" => "end_turn"
  | _ => previous
  end = default previous (normalized finishReason).
Proof.
  unfold normalized.
  destruct (String.eqb_spec finishReason "tool_calls") as [-> | Hne1];
    [reflexivity|].
  destruct (String.eqb_spec finishReason "stop") as [-> | Hne2]; [reflexivity|].
  cbn [default from_option id].
  repeat (destruct finishReason as [|[[] [] [] [] [] [] [] []] finishReason];
          try reflexivity; try congruence).
Qed.

(** A chunk sets the stop reason when its finish reason stands for one, and
    leaves it otherwise. *)
Lemma stopReason_onChunk (st : OpenAIState) (chunk : OpenAIChunk) :
  stopReason (onChunk st chunk) =
  default (stopReason st)
    match chunk_finish_reason chunk with
    | Some finishReason => normalized finishReason
    | None => None
    end.
Proof.
  unfold onChunk, chunk_finish_reason.
  destruct (head (choices chunk)) as [choice|]; [|reflexivity].
  destruct (choice_delta choice) as [delta|]; [|reflexivity].
  cbn [stopReason].
  destruct (finish_reason choice) as [finishReason|]; [|reflexivity].
  apply stopReason_cases.
Qed.

(** The stop reason after the chunk loop: the one that the last telling
    finish reason stands for. *)
Lemma stopReason_fold_onChunk (chunks : list OpenAIChunk) (st : OpenAIState) :
  stopReason (fold_left onChunk chunks st) =
  default (stopReason st) (last (normalized_reasons chunks)).
Proof.
  revert st. induction chunks as [|chunk chunks IH]; intros st; [reflexivity|].
  cbn [fold_left]. rewrite IH, stopReason_onChunk.
  unfold normalized_reasons. cbn [omap list_omap].
  destruct (match chunk_finish_reason chunk with
            | Some finishReason => normalized finishReason
            | None => None
            end) as [reason|]; [|reflexivity].
  cbn [default from_option id]. symmetry. apply default_last_cons.
Qed.

(** C6 (amended). Each adapter's stream holds exactly one terminal event, and
    it is the last event. The delta-accumulate adapter gives it the stop
    reason that the finish reasons of the chunks stand for: of the finish
    reasons read (that of the first choice of every chunk whose first choice
    has a delta), the last one that is [tool_calls] or [stop] decides, and
    [tool_calls] gives [tool_use], [stop] gives [end_turn]; any other finish
    reason changes nothing, and without a deciding one the stop reason is
    [end_turn]. So it is [end_turn] or [tool_use], whatever the chunks carry.
    The block-native adapter gives the terminal event the upstream stop
    reason as it is, and [end_turn] only when there is none. *)
Theorem adapter_terminal_event :
  (forall response : AnthropicResponse,
     let reason := default "end_turn" (final_stop_reason response) in
     stop_reasons (AnthropicClient_stream response) = [ reason ] /\
     last (AnthropicClient_stream response) = Some (message_stop_event reason)) /\
  (forall chunks : list OpenAIChunk,
     let reason := default "end_turn" (last (normalized_reasons chunks)) in
     stop_reasons (OpenAIClient_stream chunks) = [ reason ] /\
     last (OpenAIClient_stream chunks) = Some (message_stop_event reason) /\
     (reason = "end_turn" \/ reason = "tool_use")) /\
  (normalized "tool_calls" = Some "tool_use" /\
   normalized "stop" = Some "end_turn" /\
   forall finishReason,
     finishReason <> "tool_calls" -> finishReason <> "stop" ->
     normalized finishReason = None).
Proof.
  split; [|split].
  3: { split; [reflexivity|]. split; [reflexivity|].
       intros finishReason Hne1 Hne2. unfold normalized.
       destruct (String.eqb_spec finishReason "tool_calls"); [congruence|].
       destruct (String.eqb_spec finishReason "stop"); [congruence|].
       reflexivity. }
  - intros response reason. unfold AnthropicClient_stream. fold reason. split.
    + rewrite !stop_reasons_app, !stop_reasons_flat_map_none; [reflexivity| |].
      * intros [] e; simpl; try tauto. intros [<- | []]. reflexivity.
      * intros [[] |] e; simpl; try tauto. intros [<- | []]. reflexivity.
    + rewrite !app_assoc. apply last_snoc.
  - intros chunks reason. unfold OpenAIClient_stream.
    set (st := fold_left onChunk chunks _).
    assert (Hok : OpenAIState_ok st).
    { apply fold_onChunk_ok. split; [constructor | now left]. }
    destruct Hok as [Htext Hstop].
    assert (Hreason : stopReason st = reason).
    { unfold st. now rewrite stopReason_fold_onChunk. }
    rewrite Hreason in *.
    split; [|split; [|exact Hstop]].
    + rewrite !stop_reasons_app, (stop_reasons_none _ Htext).
      rewrite stop_reasons_none; [reflexivity|].
      apply Forall_forall. intros e He.
      apply list_elem_of_In, in_map_iff in He as ([k tc] & <- & _).
      reflexivity.
    + rewrite !app_assoc. apply last_snoc.
Qed.

(* ===================================================================== *)
(** * Tool dispatch                                                        *)
(* ===================================================================== *)

(** [executeTool] always returns, and what it returns is decided by the
    catalog and the executor. *)
Lemma executeTool_returns (name : string) (input : json) (tools : list Tool) :
  exists result,
    executeTool name input tools = Returned result /\
    match List.find (fun t => String.eqb (tool_name (definition t)) name) tools with
    | None => result = "Error: Unknown tool " +:+ quoted name
    | Some tool =>
        match execute tool input with
        | Returned r => result = r
        | Threw (ErrorObject message) =>
            result = "Error executing tool " +:+ quoted name +:+ ": " +:+ message
        | Threw (OtherValue shown) =>
            result = "Error executing tool " +:+ quoted name +:+ ": " +:+ shown
        end
    end.
Proof.
  unfold executeTool.
  destruct (List.find _ tools) as [tool|]; [|eauto].
  destruct (execute tool input) as [r | [message | shown]]; eauto.
Qed.

(** The tool loop runs through all pending calls and adds one tool_result
    per call, in order, each holding the string that [executeTool] returned
    for that call. *)
Lemma executeToolUses_returns (pending : list ToolUse) (tools : list Tool)
    (toolResults : list ContentBlock) (st : TurnState) :
  exists results st',
    executeToolUses pending tools toolResults st
    = (Returned (toolResults ++ results), st') /\
    Forall2 (fun toolUse block =>
               exists result,
                 executeTool (use_name toolUse) (use_input toolUse) tools
                 = Returned result /\
                 block = tool_result_block (use_id toolUse) result)
            pending results /\
    session st' = session st /\ world st' = world st /\
    dispatched st' =
      dispatched st ++ map (fun tu => (use_name tu, use_input tu)) pending.
Proof.
  revert toolResults st. induction pending as [|tu rest IH];
    intros toolResults st; simpl.
  - exists [], st. rewrite !app_nil_r. repeat split; constructor.
  - destruct (executeTool_returns (use_name tu) (use_input tu) tools)
      as (result & Hres & _).
    unfold call_executeTool. rewrite Hres.
    match goal with
    | |- context [executeToolUses rest tools ?acc ?st1] =>
        destruct (IH acc st1) as (results & st' & Heq & Hall & Hs & Hw & Hd)
    end.
    exists (tool_result_block (use_id tu) result :: results), st'.
    rewrite Heq, <- app_assoc. simpl in *.
    repeat split; auto.
    + constructor; [eauto | exact Hall].
    + rewrite Hd, <- app_assoc. reflexivity.
Qed.

(* ===================================================================== *)
(** * The agent loop                                                       *)
(* ===================================================================== *)

Lemma append_assoc (a b c : string) : (a +:+ b) +:+ c = a +:+ (b +:+ c).
Proof.
  induction a as [|x a IH]; [reflexivity|].
  unfold String.app in *. simpl. now rewrite IH.
Qed.

Lemma append_empty_r (a : string) : a +:+ "" = a.
Proof.
  induction a as [|x a IH]; [reflexivity|].
  unfold String.app in *. simpl. now rewrite IH.
Qed.

(** The event loop of a round, in one step: the text is concatenated, the
    tool calls are queued, the text events are passed on, and the stop reason
    is only stored. *)
Lemma fold_onEvent (events : list StreamEvent) (locals : RoundLocals)
    (st : TurnState) :
  fold_left onEvent events (locals, st) =
  ({| currentText := currentText locals +:+ textOf events;
      toolUses := toolUses locals ++ toolUsesOf events;
      round_stopReason := final_stopReason events (round_stopReason locals) |},
   {| session := session st; world := world st;
      emitted := emitted st ++ text_events events;
      dispatched := dispatched st |}).
Proof.
  revert locals st. induction events as [|e events IH]; intros locals st.
  - destruct locals, st. simpl.
    now rewrite append_empty_r, !app_nil_r.
  - destruct e as [t | i n input | n input | n r | reason];
      cbn [fold_left onEvent]; rewrite IH; simpl;
      unfold final_stopReason; simpl.
    + rewrite append_assoc, <- app_assoc. reflexivity.
    + rewrite <- app_assoc. reflexivity.
    + reflexivity.
    + reflexivity.
    + f_equal. f_equal. symmetry. apply default_last_cons.
Qed.

Lemma append_fields (m : Message) (st : TurnState) :
  session_messages (session (append m st)) = session_messages (session st) ++ [m] /\
  session_id (session (append m st)) = session_id (session st) /\
  session_filePath (session (append m st)) = session_filePath (session st) /\
  emitted (append m st) = emitted st /\
  dispatched (append m st) = dispatched st.
Proof. repeat split. Qed.

(** A round whose stream did not fail, without its event loop: only the
    streamed text and the requested tool calls decide what it does. *)
Lemma agentRound_eq (run : StreamRun) (tools : list Tool) (st : TurnState) :
  failure run = None ->
  agentRound run tools st =
  if Z.of_nat (length (toolUsesOf (yielded run))) =? 0
  then (Break, after_assistant (yielded run) st)
  else
    match executeToolUses (toolUsesOf (yielded run)) tools []
            (after_assistant (yielded run) st) with
    | (Threw e, st') => (Throw e, st')
    | (Returned toolResults, st') =>
        (Continue, append {| role := user; content := Blocks toolResults |} st')
    end.
Proof.
  intros Hrun. unfold agentRound. rewrite fold_onEvent, Hrun. reflexivity.
Qed.

Lemma agentRound_failed (run : StreamRun) (tools : list Tool) (st : TurnState)
    (e : thrown) :
  failure run = Some e ->
  agentRound run tools st = (Throw e, after_events (yielded run) st).
Proof.
  intros Hrun. unfold agentRound. rewrite fold_onEvent, Hrun. reflexivity.
Qed.

Lemma textOf_without_stop_reason (events : list StreamEvent) :
  textOf (map without_stop_reason events) = textOf events.
Proof.
  induction events as [|e l IH]; [reflexivity|].
  destruct e; simpl; now rewrite IH.
Qed.

Lemma toolUsesOf_without_stop_reason (events : list StreamEvent) :
  toolUsesOf (map without_stop_reason events) = toolUsesOf events.
Proof.
  induction events as [|e l IH]; [reflexivity|].
  destruct e; simpl; now rewrite IH.
Qed.

Lemma text_events_without_stop_reason (events : list StreamEvent) :
  text_events (map without_stop_reason events) = text_events events.
Proof.
  induction events as [|e l IH]; [reflexivity|].
  destruct e; simpl; now rewrite IH.
Qed.

Lemma agentRound_continues (run : StreamRun) (tools : list Tool)
    (st : TurnState) :
  failure run = None -> toolUsesOf (yielded run) <> [] ->
  exists toolResults st',
    executeToolUses (toolUsesOf (yielded run)) tools []
      (after_assistant (yielded run) st) = (Returned toolResults, st') /\
    agentRound run tools st =
    (Continue, append {| role := user; content := Blocks toolResults |} st').
Proof.
  intros Hrun Hne. rewrite agentRound_eq by assumption.
  destruct (toolUsesOf (yielded run)) as [|tu tus] eqn:E; [congruence|].
  destruct (executeToolUses_returns (tu :: tus) tools []
              (after_assistant (yielded run) st))
    as (results & st' & Heq & _).
  exists results, st'. simpl app in Heq. rewrite <- E in *.
  split; [exact Heq|]. rewrite Heq.
  rewrite E. reflexivity.
Qed.

(** C9. A round is decided by its text and tool_use events alone: two
    streams that differ only in the stop reasons of their terminal events
    make the round do the same thing. With a stream that did not fail, the
    round ends the turn exactly when no tool_use event came, and otherwise
    dispatches every requested tool and goes on; so one tool_use event
    followed by the stop reason [end_turn] is dispatched and the loop
    continues, and the stop reason [tool_use] with no tool_use event ends the
    turn. *)
Theorem round_ignores_stop_reason :
  (forall run run' tools st,
     map without_stop_reason (yielded run)
     = map without_stop_reason (yielded run') ->
     failure run = failure run' ->
     agentRound run tools st = agentRound run' tools st) /\
  (forall run tools st,
     failure run = None ->
     (toolUsesOf (yielded run) = [] ->
      fst (agentRound run tools st) = Break) /\
     (toolUsesOf (yielded run) <> [] ->
      fst (agentRound run tools st) = Continue /\
      dispatched (snd (agentRound run tools st)) =
        dispatched st
        ++ map (fun tu => (use_name tu, use_input tu))
               (toolUsesOf (yielded run)))) /\
  (forall tools st i n input,
     let run := {| yielded := [ tool_use_event i n input;
                                message_stop_event "end_turn" ];
                   failure := None |} in
     fst (agentRound run tools st) = Continue /\
     dispatched (snd (agentRound run tools st)) = dispatched st ++ [(n, input)]) /\
  (forall tools st,
     let run := {| yielded := [ message_stop_event "tool_use" ];
                   failure := None |} in
     fst (agentRound run tools st) = Break).
Proof.
  assert (Hdecide : forall run tools st,
     failure run = None ->
     (toolUsesOf (yielded run) = [] ->
      fst (agentRound run tools st) = Break) /\
     (toolUsesOf (yielded run) <> [] ->
      fst (agentRound run tools st) = Continue /\
      dispatched (snd (agentRound run tools st)) =
        dispatched st
        ++ map (fun tu => (use_name tu, use_input tu))
               (toolUsesOf (yielded run)))).
  { intros run tools st Hrun. split.
    - intros Hnone. rewrite agentRound_eq, Hnone by assumption. reflexivity.
    - intros Hsome.
      destruct (agentRound_continues run tools st Hrun Hsome)
        as (results & st' & Hexec & ->).
      split; [reflexivity|].
      destruct (executeToolUses_returns (toolUsesOf (yielded run)) tools []
                  (after_assistant (yielded run) st))
        as (results' & st'' & Heq & _ & _ & _ & Hd).
      rewrite Hexec in Heq. injection Heq as _ <-.
      simpl. exact Hd. }
  split; [|split; [exact Hdecide | split]].
  - intros run run' tools st Hev Hfail.
    assert (Htext : textOf (yielded run) = textOf (yielded run')).
    { now rewrite <- textOf_without_stop_reason, Hev,
        textOf_without_stop_reason. }
    assert (Htools : toolUsesOf (yielded run) = toolUsesOf (yielded run')).
    { now rewrite <- toolUsesOf_without_stop_reason, Hev,
        toolUsesOf_without_stop_reason. }
    assert (Hout : text_events (yielded run) = text_events (yielded run')).
    { now rewrite <- text_events_without_stop_reason, Hev,
        text_events_without_stop_reason. }
    destruct (failure run) as [e|] eqn:Hrun.
    + rewrite (agentRound_failed run tools st e Hrun).
      rewrite (agentRound_failed run' tools st e (eq_sym Hfail)).
      unfold after_events. now rewrite Hout.
    + rewrite (agentRound_eq run tools st Hrun).
      rewrite (agentRound_eq run' tools st (eq_sym Hfail)).
      unfold after_assistant, after_events.
      now rewrite Htext, Htools, Hout.
  - intros tools st i n input run.
    destruct (Hdecide run tools st eq_refl) as [_ Hsome].
    apply Hsome. discriminate.
  - intros tools st run.
    destruct (Hdecide run tools st eq_refl) as [Hnone _].
    apply Hnone. reflexivity.
Qed.

Lemma round_ignores_stop_reason_witness :
  let st :=
    {| session := {| session_id := "s"; session_messages := [];
                     session_filePath := "s.jsonl" |};
       world := {| home := ""; files := ∅; clock := fun _ => 0;
                   uuids := fun _ => ""; ticks := 0 |};
       emitted := []; dispatched := [] |} in
  let run :=
    {| yielded := [ text_event "Let me look."; tool_use_event "tu1" "ls" (JObj []);
                    message_stop_event "end_turn" ];
       failure := None |} in
  failure run = None /\ toolUsesOf (yielded run) <> [] /\
  fst (agentRound run [] st) = Continue /\
  dispatched (snd (agentRound run [] st)) = [("ls", JObj [])].
Proof.
  intros st run.
  assert (Hrun : failure run = None) by reflexivity.
  assert (Hsome : toolUsesOf (yielded run) <> []) by discriminate.
  split; [exact Hrun|]. split; [exact Hsome|].
  destruct round_ignores_stop_reason as (_ & Hdecide & _).
  destruct (Hdecide run [] st Hrun) as [_ Hgo].
  exact (Hgo Hsome).
Defined.

Lemma textOf_no_text_events (events : list StreamEvent) :
  text_events events = [] -> textOf events = "".
Proof.
  induction events as [|e l IH]; [reflexivity|].
  destruct e; simpl; try exact IH. discriminate.
Qed.

Lemma assistantContent_text_only (t : string) :
  t <> "" -> assistantContent t [] = Str t.
Proof. intros H. destruct t; [congruence | reflexivity]. Qed.

Lemma assistantContent_tools_only (tus : list ToolUse) :
  assistantContent "" tus =
  Blocks (map (fun tu => tool_use_block (use_id tu) (use_name tu) (use_input tu))
              tus).
Proof. unfold assistantContent. simpl. now destruct tus as [|tu [|tu' tus]]. Qed.

(** A round that requests one tool. *)
Lemma agentRound_one_tool (run : StreamRun) (tools : list Tool) (st : TurnState)
    (toolUse : ToolUse) (result : string) :
  failure run = None -> toolUsesOf (yielded run) = [toolUse] ->
  executeTool (use_name toolUse) (use_input toolUse) tools = Returned result ->
  agentRound run tools st =
  (Continue,
   append {| role := user;
             content := Blocks [ tool_result_block (use_id toolUse) result ] |}
     (yield (tool_end_event (use_name toolUse) result)
        (snd (call_executeTool (use_name toolUse) (use_input toolUse) tools
                (yield (tool_start_event (use_name toolUse) (use_input toolUse))
                   (after_assistant (yielded run) st)))))).
Proof.
  intros Hrun Hone Hresult. rewrite agentRound_eq by assumption.
  rewrite Hone. simpl. rewrite Hresult. reflexivity.
Qed.

(** C2. When the first stream yields no text and exactly one tool_use event,
    and the second yields no tool_use event and some text, a turn that may run
    two rounds or more returns after the second; it calls [executeTool] once,
    for that tool_use; it yields tool_start, then tool_end with the tool's
    result, then the text events of the second stream; and it appends four
    messages: the user message, the assistant message with the tool_use
    block, the user message with the tool_result block, and the assistant
    message holding the final text. *)
Theorem agentTurn_tool_then_text (rounds : nat) (s0 : Session)
    (userMessage : string) (config : SlimClawConfig) (client : LLMClient)
    (tools : list Tool) (skills : list Skill) (memoryContext : string)
    (w : World) (round1 round2 : list StreamEvent) (toolUse : ToolUse) :
  (forall params, client 0%nat params = {| yielded := round1; failure := None |}) ->
  (forall params, client 1%nat params = {| yielded := round2; failure := None |}) ->
  text_events round1 = [] -> toolUsesOf round1 = [toolUse] ->
  toolUsesOf round2 = [] -> textOf round2 <> "" ->
  exists result st,
    agentTurn (S (S rounds)) s0 userMessage config client tools skills
      memoryContext w = (Finished, st) /\
    executeTool (use_name toolUse) (use_input toolUse) tools = Returned result /\
    dispatched st = [ (use_name toolUse, use_input toolUse) ] /\
    emitted st =
      [ tool_start_event (use_name toolUse) (use_input toolUse);
        tool_end_event (use_name toolUse) result ] ++ text_events round2 /\
    session_messages (session st) =
      session_messages s0 ++
      [ {| role := user; content := Str userMessage |};
        {| role := assistant;
           content := Blocks [ tool_use_block (use_id toolUse) (use_name toolUse)
                                 (use_input toolUse) ] |};
        {| role := user;
           content := Blocks [ tool_result_block (use_id toolUse) result ] |};
        {| role := assistant; content := Str (textOf round2) |} ].
Proof.
  intros Hfirst Hsecond Hnotext Hone Hnotool Htext.
  destruct (executeTool_returns (use_name toolUse) (use_input toolUse) tools)
    as (result & Hresult & _).
  eexists result, _. split; [|split; [exact Hresult|]].
  - unfold agentTurn. cbn [agentLoop]. rewrite Hfirst.
    rewrite (agentRound_one_tool {| yielded := round1; failure := None |}
               tools _ toolUse result eq_refl Hone Hresult).
    cbn [agentLoop]. rewrite Hsecond.
    rewrite agentRound_eq by reflexivity. cbn [yielded]. rewrite Hnotool.
    reflexivity.
  - unfold after_assistant, after_events, yield.
    rewrite Hnotext, Hone, Hnotool, (textOf_no_text_events _ Hnotext).
    rewrite assistantContent_tools_only, assistantContent_text_only by exact Htext.
    repeat split. simpl. rewrite <- !app_assoc. reflexivity.
Qed.

Lemma agentTurn_tool_then_text_witness :
  let echoTool :=
    {| definition := {| tool_name := "echo"; tool_description := "Test tool: echo";
                        input_schema := JObj [("type", JStr "object")] |};
       execute := fun input =>
                    match input with
                    | JObj [(_, JStr msg)] => Returned ("Echo: " +:+ msg)
                    | _ => Returned "Echo: undefined"
                    end |} in
  let client : LLMClient :=
    fun n _ =>
      match n with
      | O => {| yielded := [ tool_use_event "tu1" "echo" (JObj [("msg", JStr "hello")]);
                             message_stop_event "tool_use" ];
                failure := None |}
      | _ => {| yielded := [ text_event "Done echoing.";
                             message_stop_event "end_turn" ];
                failure := None |}
      end in
  let config :=
    {| provider := anthropic; model := "test-model"; maxTokens := 4096;
       systemPrompt := None; config_maxHistoryTurns := 50;
       config_maxToolResultChars := 100000 |} in
  let s0 := {| session_id := "t"; session_messages := [];
               session_filePath := "t.jsonl" |} in
  let w := {| home := ""; files := ∅; clock := fun _ => 0;
              uuids := fun _ => ""; ticks := 0 |} in
  exists st,
    agentTurn 2 s0 "Echo hello" config client [echoTool] [] "" w = (Finished, st) /\
    emitted st = [ tool_start_event "echo" (JObj [("msg", JStr "hello")]);
                   tool_end_event "echo" "Echo: hello";
                   text_event "Done echoing." ] /\
    Z.of_nat (length (session_messages (session st))) = 4.
Proof.
  intros echoTool client config s0 w.
  destruct (agentTurn_tool_then_text 0 s0 "Echo hello" config client [echoTool]
              [] "" w
              [ tool_use_event "tu1" "echo" (JObj [("msg", JStr "hello")]);
                message_stop_event "tool_use" ]
              [ text_event "Done echoing."; message_stop_event "end_turn" ]
              {| use_id := "tu1"; use_name := "echo";
                 use_input := JObj [("msg", JStr "hello")] |})
    as (result & st & Hturn & Hresult & _ & Hout & Hmsgs).
  - intros params. reflexivity.
  - intros params. reflexivity.
  - reflexivity.
  - reflexivity.
  - reflexivity.
  - discriminate.
  - exists st. injection Hresult as <-.
    split; [exact Hturn|]. split; [exact Hout|]. now rewrite Hmsgs.
Defined.

Lemma last_map_Some {X Y : Type} (f : X -> Y) (l : list X) (x : X) :
  last l = Some x -> last (map f l) = Some (f x).
Proof.
  intros H. apply last_Some in H as [l' ->].
  rewrite map_app. apply last_snoc.
Qed.

Lemma last_omap_Some {X Y : Type} (f : X -> option Y) (l : list X) (x : X)
    (y : Y) :
  last l = Some x -> f x = Some y -> last (omap f l) = Some y.
Proof.
  intros H Hf. apply last_Some in H as [l' ->].
  rewrite omap_app. simpl. rewrite Hf. apply last_snoc.
Qed.

(** Layer 1 never drops an assistant message that ends the list. *)
Lemma last_limitHistoryTurns (messages : list Message) (m : Message)
    (maxTurns : Z) :
  role m = assistant ->
  last (limitHistoryTurns (messages ++ [m]) maxTurns) = Some m.
Proof.
  intros Hrole. destruct (Z_le_gt_dec maxTurns 0) as [Hk | Hk].
  - rewrite limitHistoryTurns_disabled by assumption. apply last_snoc.
  - destruct (limitHistoryTurns_spec (messages ++ [m]) maxTurns ltac:(lia))
      as (old & kept & Heq & -> & _ & Ho).
    destruct kept as [|k kept'] using rev_ind.
    + rewrite app_nil_r in Heq.
      destruct Ho as [-> | (_ & old' & u & -> & Hu)].
      * now destruct messages.
      * apply app_inj_tail in Heq as [_ <-].
        unfold is_user in Hu. rewrite Hrole in Hu. discriminate.
    + rewrite app_assoc in Heq. apply app_inj_tail in Heq as [_ <-].
      apply last_snoc.
Qed.

Lemma elem_of_removeOrphanedToolResults_assistant (messages : list Message)
    (m : Message) :
  m ∈ messages -> role m = assistant -> m ∈ removeOrphanedToolResults messages.
Proof.
  intros Hm Hrole. apply list_elem_of_omap. exists m.
  split; [exact Hm | now apply cleanMessage_assistant].
Qed.

(** C10. A round whose stream yields no text event and no tool_use event
    ends the turn after appending an assistant message whose content is the
    empty list of blocks. Preparing the context of a transcript that ends
    with that message leaves it in place, as its last message; and the orphan
    cleanup never drops an assistant message. *)
Theorem empty_assistant_message_survives :
  let empty := {| role := assistant; content := Blocks [] |} in
  (forall run tools st,
     failure run = None ->
     text_events (yielded run) = [] -> toolUsesOf (yielded run) = [] ->
     fst (agentRound run tools st) = Break /\
     session_messages (session (snd (agentRound run tools st))) =
       session_messages (session st) ++ [ empty ]) /\
  (forall messages config,
     last (prepareContext (messages ++ [ empty ]) config) = Some empty) /\
  (forall messages m,
     m ∈ messages -> role m = assistant ->
     m ∈ removeOrphanedToolResults messages).
Proof.
  intros empty. split; [|split].
  - intros run tools st Hrun Hnotext Hnotool.
    rewrite agentRound_eq by assumption. rewrite Hnotool. simpl.
    split; [reflexivity|].
    now rewrite (textOf_no_text_events _ Hnotext), Hnotool.
  - intros messages config. unfold prepareContext.
    eapply last_omap_Some; [|now apply cleanMessage_assistant].
    unfold truncateToolResults.
    change empty with (truncateMessage
      (Z.min (maxToolResultChars config) HARD_MAX_TOOL_RESULT_CHARS) empty).
    apply last_map_Some. now apply last_limitHistoryTurns.
  - exact elem_of_removeOrphanedToolResults_assistant.
Qed.

Lemma empty_assistant_message_survives_witness :
  let empty := {| role := assistant; content := Blocks [] |} in
  let st :=
    {| session := {| session_id := "s";
                     session_messages := [ {| role := user; content := Str "hi" |} ];
                     session_filePath := "s.jsonl" |};
       world := {| home := ""; files := ∅; clock := fun _ => 0;
                   uuids := fun _ => ""; ticks := 0 |};
       emitted := []; dispatched := [] |} in
  let run := {| yielded := [ message_stop_event "end_turn" ]; failure := None |} in
  session_messages (session (snd (agentRound run [] st))) =
    [ {| role := user; content := Str "hi" |}; empty ] /\
  empty ∈ removeOrphanedToolResults [ {| role := user; content := Str "hi" |}; empty ].
Proof.
  intros empty st run.
  destruct empty_assistant_message_survives as (Hround & _ & Hkeep).
  split.
  - exact (proj2 (Hround run [] st eq_refl eq_refl eq_refl)).
  - apply Hkeep; [|reflexivity]. apply elem_of_cons. right. constructor.
Defined.

(* ===================================================================== *)
(** * JSON: reading back what was written                                  *)
(* ===================================================================== *)

Lemma json_induction (P : json -> Prop) :
  P JNull -> (forall b, P (JBool b)) -> (forall n, P (JNum n)) ->
  (forall negative, P (JInfinity negative)) ->
  (forall s, P (JStr s)) ->
  (forall items, Forall P items -> P (JArr items)) ->
  (forall props, Forall (fun kv => P (snd kv)) props -> P (JObj props)) ->
  forall v, P v.
Proof.
  intros Hnull Hbool Hnum Hinf Hstr Harr Hobj.
  fix IH 1.
  intros [ | b | n | negative | s | items | props];
    [exact Hnull | apply Hbool | apply Hnum | apply Hinf | apply Hstr | | ].
  - apply Harr. induction items as [|x items IHl]; constructor.
    + apply IH.
    + exact IHl.
  - apply Hobj. induction props as [|[k x] props IHl]; constructor.
    + apply IH.
    + exact IHl.
Qed.

Lemma print_JArr (items : list json) :
  JSON.print (JArr items) = "["%char :: JSON.print_items items ++ ["]"%char].
Proof. reflexivity. Qed.

Lemma print_JObj (props : list (string * json)) :
  JSON.print (JObj props) = "{"%char :: JSON.print_props props ++ ["}"%char].
Proof. reflexivity. Qed.

(** ** Strings *)

Lemma parse_string_quote_char (c : ascii) (r : list ascii) :
  JSON.parse_string (JSON.quote_char c ++ r) =
  match JSON.parse_string r with
  | Some (str, rest) => Some (String c str, rest)
  | None => None
  end.
Proof. destruct c as [[] [] [] [] [] [] [] []]; reflexivity. Qed.

Lemma parse_string_quoted (s : string) (rest : list ascii) :
  JSON.parse_string
    (flat_map JSON.quote_char (list_ascii_of_string s) ++ JSON.dquote :: rest)
  = Some (s, rest).
Proof.
  induction s as [|c s IH]; [reflexivity|].
  simpl. rewrite <- app_assoc, parse_string_quote_char, IH. reflexivity.
Qed.

Lemma quote_eq (s : string) (rest : list ascii) :
  JSON.quote s ++ rest =
  JSON.dquote ::
  flat_map JSON.quote_char (list_ascii_of_string s) ++ JSON.dquote :: rest.
Proof. unfold JSON.quote. simpl. now rewrite <- app_assoc. Qed.

(** ** Numbers *)

Lemma digit_char_spec (d : Z) :
  0 <= d < 10 ->
  JSON.is_digit (digit_char d) = true /\ JSON.code (digit_char d) = 48 + d.
Proof.
  intros H.
  assert (d = 0 \/ d = 1 \/ d = 2 \/ d = 3 \/ d = 4 \/ d = 5 \/ d = 6 \/
          d = 7 \/ d = 8 \/ d = 9) as Hd by lia.
  repeat (destruct Hd as [-> | Hd]; [split; reflexivity|]).
  subst d. split; reflexivity.
Qed.

(** The numeral written for [n]: digits, read back as [n] whatever precedes
    and follows, without a leading zero. *)
Lemma decimal_digits_spec (fuel : nat) (n : Z) (acc : string) :
  0 <= n < 10 ^ Z.of_nat fuel -> (1 <= fuel)%nat ->
  exists ds,
    list_ascii_of_string (decimal_digits fuel n acc)
    = ds ++ list_ascii_of_string acc /\
    (exists c ds', ds = c :: ds' /\ JSON.is_digit c = true /\
                   (JSON.code c = 48 -> n = 0 /\ ds' = [])) /\
    (forall a tl,
       JSON.parse_digits (ds ++ tl) a
       = JSON.parse_digits tl (a * 10 ^ Z.of_nat (length ds) + n)).
Proof.
  revert n acc. induction fuel as [|fuel IH]; intros n acc Hn Hfuel; [lia|].
  simpl decimal_digits.
  assert (Hmod : 0 <= n mod 10 < 10) by (apply Z.mod_pos_bound; lia).
  destruct (digit_char_spec (n mod 10) Hmod) as [Hdig Hcode].
  destruct (n / 10 =? 0) eqn:E.
  - apply Z.eqb_eq in E.
    assert (Hsmall : n mod 10 = n).
    { pose proof (Z.div_mod n 10 ltac:(lia)). lia. }
    exists [digit_char (n mod 10)]. split; [reflexivity|]. split.
    + exists (digit_char (n mod 10)), []. repeat split; auto. lia.
    + intros a tl. cbn [app JSON.parse_digits length]. rewrite Hdig, Hcode.
      f_equal. rewrite Hsmall. change (Z.of_nat 1) with 1. lia.
  - apply Z.eqb_neq in E.
    assert (Hdiv : 0 < n / 10).
    { pose proof (Z.div_pos n 10 ltac:(lia) ltac:(lia)). lia. }
    assert (Hfuel' : (1 <= fuel)%nat).
    { destruct fuel; [|lia]. exfalso. apply E. apply Z.div_small.
      simpl in Hn. lia. }
    assert (Hn' : 0 <= n / 10 < 10 ^ Z.of_nat fuel).
    { split; [lia|]. apply Z.div_lt_upper_bound; [lia|].
      replace (Z.of_nat (S fuel)) with (Z.succ (Z.of_nat fuel)) in Hn by lia.
      rewrite Z.pow_succ_r in Hn by lia. lia. }
    destruct (IH (n / 10) (String (digit_char (n mod 10)) acc) Hn' Hfuel')
      as (ds & Heq & (c & ds' & -> & Hc & Hzero) & Hparse).
    exists ((c :: ds') ++ [digit_char (n mod 10)]). split; [|split].
    + rewrite Heq. cbn [list_ascii_of_string]. now rewrite <- app_assoc.
    + exists c, (ds' ++ [digit_char (n mod 10)]).
      split; [reflexivity|]. split; [exact Hc|].
      intros H48. destruct (Hzero H48). lia.
    + intros a tl. rewrite <- app_assoc, Hparse.
      cbn [app JSON.parse_digits].
      rewrite Hdig, Hcode. f_equal.
      change (c :: ds' ++ [digit_char (n mod 10)])
        with ((c :: ds') ++ [digit_char (n mod 10)]).
      rewrite length_app. cbn [length].
      replace (Z.of_nat (S (length ds') + 1))
        with (Z.succ (Z.of_nat (S (length ds')))) by lia.
      rewrite Z.pow_succ_r by lia.
      pose proof (Z.div_mod n 10 ltac:(lia)). lia.
Qed.

Lemma lt_pow10_log2 (n : Z) :
  0 <= n -> n < 10 ^ Z.of_nat (S (Z.to_nat (Z.log2 n))).
Proof.
  intros Hn. pose proof (Z.log2_nonneg n) as Hlog.
  replace (Z.of_nat (S (Z.to_nat (Z.log2 n)))) with (Z.succ (Z.log2 n)) by lia.
  destruct (Z.eq_dec n 0) as [-> | Hne]; [reflexivity|].
  pose proof (Z.log2_spec n ltac:(lia)) as [_ Hlt].
  eapply Z.lt_le_trans; [exact Hlt|].
  apply Z.pow_le_mono_l. lia.
Qed.

Lemma parse_digits_stop (tl : list ascii) (a : Z) :
  JSON.delimits tl -> JSON.parse_digits tl a = (a, tl).
Proof.
  destruct tl as [|c tl]; [reflexivity|]. intros (Hd & _). simpl.
  now rewrite Hd.
Qed.

Lemma is_digit_code (c : ascii) :
  JSON.is_digit c = true -> 48 <= JSON.code c <= 57.
Proof. unfold JSON.is_digit. lia. Qed.

Lemma parse_int_decimal (n : Z) (rest : list ascii) :
  0 <= n -> JSON.delimits rest ->
  exists c tl,
    list_ascii_of_string
      (decimal_digits (S (Z.to_nat (Z.log2 n))) n "") = c :: tl /\
    JSON.is_digit c = true /\
    JSON.parse_int ((c :: tl) ++ rest) = Some (n, rest).
Proof.
  intros Hn Hrest.
  destruct (decimal_digits_spec (S (Z.to_nat (Z.log2 n))) n ""
              (conj Hn (lt_pow10_log2 n Hn)) ltac:(lia))
    as (ds & Heq & (c & ds' & -> & Hc & Hzero) & Hparse).
  simpl in Heq. rewrite app_nil_r in Heq.
  exists c, ds'. split; [exact Heq|]. split; [exact Hc|].
  simpl. rewrite Hc.
  destruct (JSON.code c =? 48) eqn:E.
  - apply Z.eqb_eq in E. destruct (Hzero E) as [-> ->]. reflexivity.
  - specialize (Hparse 0 rest). simpl in Hparse. rewrite Hc in Hparse.
    replace (10 * 0 + (JSON.code c - 48)) with (JSON.code c - 48) in Hparse
      by lia.
    rewrite Hparse, parse_digits_stop by assumption.
    do 2 f_equal; lia.
Qed.

Lemma continues_number_delimits (rest : list ascii) :
  JSON.delimits rest -> JSON.continues_number rest = false.
Proof.
  destruct rest as [|c rest]; [reflexivity|]. intros (_ & H1 & H2 & H3).
  simpl. apply Z.eqb_neq in H1, H2, H3. now rewrite H1, H2, H3.
Qed.

(** The numeral of an integer starts with a digit or the minus sign and
    reads back as that integer. *)
Lemma parse_number_print (n : Z) (rest : list ascii) :
  JSON.delimits rest ->
  exists c tl,
    list_ascii_of_string (Number_toString n) = c :: tl /\
    (JSON.is_digit c = true \/ JSON.code c = 45) /\
    JSON.parse_number ((c :: tl) ++ rest) = Some (n, rest).
Proof.
  intros Hrest. unfold Number_toString.
  destruct (n <? 0) eqn:E.
  - apply Z.ltb_lt in E.
    destruct (parse_int_decimal (- n) rest ltac:(lia) Hrest)
      as (c & tl & Heq & Hc & Hint).
    exists "-"%char, (c :: tl).
    split; [cbn [list_ascii_of_string]; now rewrite Heq|].
    split; [now right|].
    unfold JSON.parse_number.
    assert (Hsigned : JSON.parse_signed (("-"%char :: c :: tl) ++ rest)
                      = Some (n, rest)).
    { change (("-"%char :: c :: tl) ++ rest)
        with ("-"%char :: (c :: tl) ++ rest).
      unfold JSON.parse_signed.
      change (JSON.code "-" =? 45) with true. cbv iota.
      rewrite Hint. do 2 f_equal; lia. }
    now rewrite Hsigned, continues_number_delimits.
  - apply Z.ltb_ge in E.
    destruct (parse_int_decimal n rest E Hrest) as (c & tl & Heq & Hc & Hint).
    exists c, tl. split; [exact Heq|]. split; [now left|].
    unfold JSON.parse_number.
    assert (Hsigned : JSON.parse_signed ((c :: tl) ++ rest) = Some (n, rest)).
    { change ((c :: tl) ++ rest) with (c :: tl ++ rest) in *.
      unfold JSON.parse_signed.
      pose proof (is_digit_code c Hc).
      destruct (JSON.code c =? 45) eqn:E45; [apply Z.eqb_eq in E45; lia|].
      exact Hint. }
    now rewrite Hsigned, continues_number_delimits.
Qed.

(** ** Values *)

Lemma well_formed_JArr (items : list json) :
  JSON.well_formed (JArr items) <-> Forall JSON.well_formed items.
Proof.
  simpl. induction items as [|x items IH].
  - split; [constructor | trivial].
  - rewrite Forall_cons, <- IH. reflexivity.
Qed.

Lemma well_formed_JObj (props : list (string * json)) :
  JSON.well_formed (JObj props) <->
  NoDup (map fst props) /\ Forall (fun kv => JSON.well_formed (snd kv)) props.
Proof.
  simpl. apply and_iff_compat_l. induction props as [|[k x] props IH].
  - split; [constructor | trivial].
  - rewrite Forall_cons, <- IH. reflexivity.
Qed.

Lemma depth_JArr (items : list json) :
  JSON.depth (JArr items) = S (JSON.depth_items items).
Proof. reflexivity. Qed.

Lemma depth_JObj (props : list (string * json)) :
  JSON.depth (JObj props) = S (JSON.depth_props props).
Proof. reflexivity. Qed.

Lemma skip_ws_head (c : ascii) (r : list ascii) :
  JSON.is_ws c = false -> JSON.skip_ws (c :: r) = c :: r.
Proof. intros H. simpl. now rewrite H. Qed.

Lemma parse_value_string (fuel : nat) (r : list ascii) :
  JSON.parse_value (S fuel) (JSON.dquote :: r) =
  match JSON.parse_string r with
  | Some (str, rest) => Some (JStr str, rest)
  | None => None
  end.
Proof. reflexivity. Qed.

Lemma parse_value_number (fuel : nat) (c : ascii) (r : list ascii) :
  JSON.is_digit c = true \/ JSON.code c = 45 ->
  JSON.parse_value (S fuel) (c :: r) =
  match JSON.parse_number (c :: r) with
  | Some (n, rest) => Some (JNum n, rest)
  | None => None
  end.
Proof.
  intros Hc.
  assert (Hcode : 48 <= JSON.code c <= 57 \/ JSON.code c = 45).
  { destruct Hc as [Hc | Hc]; [left; now apply is_digit_code | now right]. }
  assert (Hws : JSON.is_ws c = false) by (unfold JSON.is_ws; lia).
  cbn [JSON.parse_value]. rewrite skip_ws_head by assumption.
  repeat match goal with
  | |- context [JSON.code c =? ?k] =>
      replace (JSON.code c =? k) with false by lia
  end.
  reflexivity.
Qed.

Lemma parse_value_array (fuel : nat) (c : ascii) (r : list ascii) :
  JSON.is_ws c = false -> JSON.code c <> 93 ->
  JSON.parse_value (S fuel) ("["%char :: c :: r) =
  match JSON.parse_items fuel (c :: r) with
  | Some (items, rest) => Some (JArr items, rest)
  | None => None
  end.
Proof.
  intros Hws Hc. cbn [JSON.parse_value].
  change (JSON.skip_ws ("["%char :: c :: r)) with ("["%char :: c :: r).
  cbv iota. change (JSON.code "[") with 91. cbn [Z.eqb Pos.eqb].
  rewrite skip_ws_head by assumption.
  now replace (JSON.code c =? 93) with false by lia.
Qed.

Lemma parse_value_object (fuel : nat) (c : ascii) (r : list ascii) :
  JSON.is_ws c = false -> JSON.code c <> 125 ->
  JSON.parse_value (S fuel) ("{"%char :: c :: r) =
  match JSON.parse_props fuel (c :: r) with
  | Some (props, rest) => Some (JObj props, rest)
  | None => None
  end.
Proof.
  intros Hws Hc. cbn [JSON.parse_value].
  change (JSON.skip_ws ("{"%char :: c :: r)) with ("{"%char :: c :: r).
  cbv iota. change (JSON.code "{") with 123. cbn [Z.eqb Pos.eqb].
  rewrite skip_ws_head by assumption.
  now replace (JSON.code c =? 125) with false by lia.
Qed.

(** The text of a value starts with a character that is neither white space
    nor a closing bracket. *)
Lemma print_head (v : json) :
  exists c tl,
    JSON.print v = c :: tl /\ JSON.is_ws c = false /\
    JSON.code c <> 93 /\ JSON.code c <> 125.
Proof.
  destruct v as [ | [] | n | negative | s | items | props];
    try (eexists _, _; split; [reflexivity|]; repeat split; discriminate).
  destruct (parse_number_print n [] I) as (c & tl & Heq & Hc & _).
  exists c, tl. split; [exact Heq|].
  assert (48 <= JSON.code c <= 57 \/ JSON.code c = 45).
  { destruct Hc as [Hc | Hc]; [left; now apply is_digit_code | now right]. }
  unfold JSON.is_ws. repeat split; lia.
Qed.

Lemma delimits_comma (r : list ascii) : JSON.delimits (","%char :: r).
Proof. repeat split; discriminate. Qed.

Lemma delimits_bracket (r : list ascii) : JSON.delimits ("]"%char :: r).
Proof. repeat split; discriminate. Qed.

Lemma delimits_brace (r : list ascii) : JSON.delimits ("}"%char :: r).
Proof. repeat split; discriminate. Qed.

Lemma parse_items_S (fuel : nat) (s : list ascii) :
  JSON.parse_items (S fuel) s =
  match JSON.parse_value fuel s with
  | None => None
  | Some (v, r) =>
      match JSON.skip_ws r with
      | [] => None
      | c :: r' =>
          if JSON.code c =? 44 then
            match JSON.parse_items fuel r' with
            | Some (items, rest) => Some (v :: items, rest)
            | None => None
            end
          else if JSON.code c =? 93 then Some ([v], r')
          else None
      end
  end.
Proof. reflexivity. Qed.

Lemma parse_props_S (fuel : nat) (r : list ascii) :
  JSON.parse_props (S fuel) (JSON.dquote :: r) =
  match JSON.parse_string r with
  | None => None
  | Some (k, r1) =>
      match JSON.skip_ws r1 with
      | [] => None
      | colon :: r2 =>
          if JSON.code colon =? 58 then
            match JSON.parse_value fuel r2 with
            | None => None
            | Some (v, r3) =>
                match JSON.skip_ws r3 with
                | [] => None
                | c :: r4 =>
                    if JSON.code c =? 44 then
                      match JSON.parse_props fuel r4 with
                      | Some (later, rest) =>
                          Some (JSON.add_property k v later, rest)
                      | None => None
                      end
                    else if JSON.code c =? 125 then Some ([(k, v)], r4)
                    else None
                end
            end
          else None
      end
  end.
Proof. reflexivity. Qed.

Lemma parse_items_print (items : list json) :
  Forall reads_back items -> Forall JSON.well_formed items -> items <> [] ->
  forall fuel rest,
    (JSON.depth_items items <= fuel)%nat ->
    JSON.parse_items fuel (JSON.print_items items ++ "]"%char :: rest)
    = Some (items, rest).
Proof.
  induction 1 as [|x l Hx _ IH]; intros Hwf Hne fuel rest Hfuel; [congruence|].
  apply Forall_cons in Hwf as [Hwx Hwl].
  destruct fuel as [|fuel]; [simpl in Hfuel; lia|].
  simpl in Hfuel. rewrite parse_items_S.
  destruct l as [|y l'].
  - simpl JSON.print_items. rewrite app_nil_r.
    rewrite (Hx Hwx fuel _ ltac:(lia) (delimits_bracket rest)).
    reflexivity.
  - change (JSON.print_items (x :: y :: l'))
      with (JSON.print x ++ ","%char :: JSON.print_items (y :: l')).
    rewrite <- app_assoc.
    change ((","%char :: JSON.print_items (y :: l')) ++ "]"%char :: rest)
      with (","%char :: JSON.print_items (y :: l') ++ "]"%char :: rest).
    rewrite (Hx Hwx fuel _ ltac:(lia) (delimits_comma _)).
    change (JSON.skip_ws (","%char :: ?r)) with (","%char :: r).
    cbv iota. change (JSON.code "," =? 44) with true. cbv iota.
    rewrite (IH Hwl ltac:(discriminate) fuel rest ltac:(simpl in *; lia)).
    reflexivity.
Qed.

Lemma last_value_absent (k : string) (props : list (string * json))
    (found : option json) :
  ~ In k (map fst props) -> JSON.last_value k props found = found.
Proof.
  revert found. induction props as [|[k' v] props IH]; intros found Hk;
    [reflexivity|].
  simpl in *. destruct (String.eqb_spec k k') as [-> | Hne]; [tauto|].
  apply IH. tauto.
Qed.

Lemma print_props_cons (k : string) (x : json) (l : list (string * json))
    (tail : list ascii) :
  JSON.print_props ((k, x) :: l) ++ tail =
  JSON.dquote ::
  flat_map JSON.quote_char (list_ascii_of_string k) ++
  JSON.dquote :: ":"%char :: JSON.print x ++
  match l with
  | [] => tail
  | _ :: _ => ","%char :: JSON.print_props l ++ tail
  end.
Proof.
  cbn [JSON.print_props]. unfold JSON.quote.
  set (body := flat_map JSON.quote_char (list_ascii_of_string k)).
  set (sep := match l with
              | [] => []
              | _ :: _ => ","%char :: JSON.print_props l
              end).
  rewrite <- (app_assoc (JSON.dquote :: body ++ [JSON.dquote])
                (":"%char :: JSON.print x ++ sep) tail).
  cbn [app].
  rewrite <- (app_assoc body [JSON.dquote]). cbn [app].
  rewrite <- (app_assoc (JSON.print x) sep tail).
  subst sep. destruct l; reflexivity.
Qed.

Lemma parse_props_print (props : list (string * json)) :
  Forall (fun kv => reads_back (snd kv)) props ->
  Forall (fun kv => JSON.well_formed (snd kv)) props ->
  NoDup (map fst props) -> props <> [] ->
  forall fuel rest,
    (JSON.depth_props props <= fuel)%nat ->
    JSON.parse_props fuel (JSON.print_props props ++ "}"%char :: rest)
    = Some (props, rest).
Proof.
  induction 1 as [|[k x] l Hx _ IH]; intros Hwf Hnd Hne fuel rest Hfuel;
    [congruence|].
  apply Forall_cons in Hwf as [Hwx Hwl]. simpl in Hwx, Hx.
  apply NoDup_cons in Hnd as [Hk Hnd].
  destruct fuel as [|fuel]; [simpl in Hfuel; lia|].
  cbn [JSON.depth_props] in Hfuel.
  rewrite print_props_cons, parse_props_S, parse_string_quoted.
  change (JSON.skip_ws (":"%char :: ?r)) with (":"%char :: r).
  cbv iota. change (JSON.code ":" =? 58) with true. cbv iota.
  destruct l as [|[k' y] l'].
  - rewrite (Hx Hwx fuel _ ltac:(lia) (delimits_brace rest)).
    reflexivity.
  - rewrite (Hx Hwx fuel _ ltac:(lia) (delimits_comma _)).
    change (JSON.skip_ws (","%char :: ?r)) with (","%char :: r).
    cbv iota. change (JSON.code "," =? 44) with true. cbv iota.
    rewrite (IH Hwl Hnd ltac:(discriminate) fuel rest ltac:(lia)).
    unfold JSON.add_property.
    rewrite last_value_absent; [reflexivity|].
    now rewrite <- list_elem_of_In.
Qed.

(** Every well-formed value reads back from its text. *)
Lemma parse_value_print (v : json) : reads_back v.
Proof.
  induction v as [ | b | n | negative | s | items IH | props IH]
    using json_induction;
    intros Hwf fuel rest Hfuel Hrest;
    (destruct fuel as [|fuel]; [simpl in Hfuel; lia|]).
  - reflexivity.
  - destruct b; reflexivity.
  - destruct (parse_number_print n rest Hrest) as (c & tl & Heq & Hc & Hnum).
    change (JSON.print (JNum n)) with (list_ascii_of_string (Number_toString n)).
    rewrite Heq. change ((c :: tl) ++ rest) with (c :: tl ++ rest) in *.
    rewrite parse_value_number by assumption. now rewrite Hnum.
  - destruct Hwf.
  - change (JSON.print (JStr s)) with (JSON.quote s).
    now rewrite quote_eq, parse_value_string, parse_string_quoted.
  - rewrite print_JArr. destruct items as [|x l]; [reflexivity|].
    apply well_formed_JArr in Hwf. rewrite depth_JArr in Hfuel.
    assert (Hs : exists c r,
               JSON.print_items (x :: l) ++ "]"%char :: rest = c :: r /\
               JSON.is_ws c = false /\ JSON.code c <> 93).
    { destruct (print_head x) as (c & tl & Heq & Hws & Hc & _).
      simpl JSON.print_items. rewrite Heq. simpl. eauto. }
    destruct Hs as (c & r & Hs & Hws & Hc).
    change (("["%char :: JSON.print_items (x :: l) ++ ["]"%char]) ++ rest)
      with ("["%char :: (JSON.print_items (x :: l) ++ ["]"%char]) ++ rest).
    rewrite <- app_assoc. simpl app at 2.
    rewrite Hs, parse_value_array, <- Hs by assumption.
    rewrite (parse_items_print (x :: l) IH Hwf ltac:(discriminate) fuel rest
               ltac:(lia)).
    reflexivity.
  - rewrite print_JObj. destruct props as [|[k x] l]; [reflexivity|].
    apply well_formed_JObj in Hwf as [Hnd Hwf]. rewrite depth_JObj in Hfuel.
    change (("{"%char :: JSON.print_props ((k, x) :: l) ++ ["}"%char]) ++ rest)
      with ("{"%char :: (JSON.print_props ((k, x) :: l) ++ ["}"%char]) ++ rest).
    rewrite <- app_assoc. simpl app at 2.
    assert (Hs : exists r,
               JSON.print_props ((k, x) :: l) ++ "}"%char :: rest
               = JSON.dquote :: r).
    { simpl JSON.print_props. unfold JSON.quote. simpl. eauto. }
    destruct Hs as (r & Hs).
    rewrite Hs, parse_value_object, <- Hs by (reflexivity || discriminate).
    rewrite (parse_props_print ((k, x) :: l) IH Hwf Hnd ltac:(discriminate)
               fuel rest ltac:(lia)).
    reflexivity.
Qed.

Lemma depth_le_length (v : json) : (JSON.depth v <= length (JSON.print v))%nat.
Proof.
  induction v as [ | b | n | negative | s | items IH | props IH]
    using json_induction.
  - simpl. lia.
  - destruct b; simpl; lia.
  - destruct (parse_number_print n [] I) as (c & tl & Heq & _).
    change (JSON.print (JNum n)) with (list_ascii_of_string (Number_toString n)).
    rewrite Heq. simpl. lia.
  - simpl. lia.
  - simpl. lia.
  - rewrite print_JArr, depth_JArr. simpl length. rewrite length_app. simpl.
    assert (JSON.depth_items items <= length (JSON.print_items items) + 1)%nat;
      [|lia].
    induction IH as [|x l Hx _ IHl]; [simpl; lia|].
    simpl JSON.depth_items. simpl JSON.print_items. rewrite length_app.
    destruct l as [|y l']; simpl length in *; simpl JSON.depth_items in *; lia.
  - rewrite print_JObj, depth_JObj. simpl length. rewrite length_app. simpl.
    assert (JSON.depth_props props <= length (JSON.print_props props) + 1)%nat;
      [|lia].
    induction IH as [|[k x] l Hx _ IHl]; [simpl; lia|].
    cbn [snd] in Hx. cbn [JSON.depth_props].
    pose proof (print_props_cons k x l []) as Hp.
    rewrite app_nil_r in Hp. rewrite Hp.
    cbn [length]. rewrite length_app. cbn [length]. rewrite length_app.
    destruct l as [|[k' y] l'].
    + cbn [JSON.depth_props length] in *. lia.
    + rewrite app_nil_r. cbn [length]. lia.
Qed.

(** [JSON.parse(JSON.stringify(v))] is [v]. *)
Lemma parse_stringify (v : json) :
  JSON.well_formed v -> JSON.parse (JSON.stringify v) = Some v.
Proof.
  intros Hwf. unfold JSON.parse, JSON.stringify.
  rewrite list_ascii_of_string_of_list_ascii.
  rewrite <- (app_nil_r (JSON.print v)) at 2.
  rewrite (parse_value_print v Hwf _ [] (Nat.le_trans _ _ _ (depth_le_length v)
             (Nat.le_succ_diag_r _)) I).
  reflexivity.
Qed.

(* ===================================================================== *)
(** * The session file: lines, trimming, splitting                         *)
(* ===================================================================== *)

Lemma printable_quote_char (c : ascii) :
  Forall (fun x => 32 <= JSON.code x) (JSON.quote_char c).
Proof.
  destruct c as [[] [] [] [] [] [] [] []];
    repeat constructor; discriminate.
Qed.

Lemma printable_quote (s : string) :
  Forall (fun x => 32 <= JSON.code x) (JSON.quote s).
Proof.
  unfold JSON.quote. constructor; [discriminate|].
  apply Forall_app. split; [|repeat constructor; discriminate].
  induction s as [|c s IH]; simpl; [constructor|].
  apply Forall_app. split; [apply printable_quote_char | exact IH].
Qed.

Lemma printable_decimal_digits (fuel : nat) (n : Z) (acc : string) :
  Forall (fun x => 32 <= JSON.code x) (list_ascii_of_string acc) ->
  Forall (fun x => 32 <= JSON.code x)
         (list_ascii_of_string (decimal_digits fuel n acc)).
Proof.
  revert n acc. induction fuel as [|fuel IH]; intros n acc Hacc; [exact Hacc|].
  simpl.
  assert (Hd : Forall (fun x => 32 <= JSON.code x)
                 (list_ascii_of_string (String (digit_char (n mod 10)) acc))).
  { simpl. constructor; [|exact Hacc].
    destruct (digit_char_spec (n mod 10)) as [_ ->];
      [apply Z.mod_pos_bound; lia|].
    pose proof (Z.mod_pos_bound n 10 ltac:(lia)). lia. }
  destruct (n / 10 =? 0); [exact Hd | now apply IH].
Qed.

(** [JSON.stringify] writes no control character. *)
Lemma printable_print (v : json) :
  Forall (fun x => 32 <= JSON.code x) (JSON.print v).
Proof.
  induction v as [ | b | n | negative | s | items IH | props IH]
    using json_induction.
  - repeat constructor; discriminate.
  - destruct b; repeat constructor; discriminate.
  - change (JSON.print (JNum n)) with (list_ascii_of_string (Number_toString n)).
    unfold Number_toString. destruct (n <? 0).
    + cbn [list_ascii_of_string]. constructor; [discriminate|].
      apply printable_decimal_digits. constructor.
    + apply printable_decimal_digits. constructor.
  - repeat constructor; discriminate.
  - apply printable_quote.
  - rewrite print_JArr. constructor; [discriminate|].
    apply Forall_app. split; [|repeat constructor; discriminate].
    induction IH as [|x l Hx _ IHl]; [constructor|].
    simpl. apply Forall_app. split; [exact Hx|].
    destruct l; [constructor|]. constructor; [discriminate | exact IHl].
  - rewrite print_JObj. constructor; [discriminate|].
    apply Forall_app. split; [|repeat constructor; discriminate].
    induction IH as [|[k x] l Hx _ IHl]; [constructor|].
    cbn [snd] in Hx. cbn [JSON.print_props].
    apply Forall_app. split; [apply printable_quote|].
    constructor; [discriminate|].
    apply Forall_app. split; [exact Hx|].
    destruct l; [constructor|]. constructor; [discriminate | exact IHl].
Qed.

Lemma no_line_break_printable (l : list ascii) :
  Forall (fun x => 32 <= JSON.code x) l ->
  no_line_break (string_of_list_ascii l).
Proof.
  induction 1 as [|c l Hc _ IH]; simpl; [trivial|].
  repeat split; [lia | lia | exact IH].
Qed.

Lemma string_of_list_ascii_app (l1 l2 : list ascii) :
  string_of_list_ascii (l1 ++ l2)
  = string_of_list_ascii l1 +:+ string_of_list_ascii l2.
Proof.
  induction l1 as [|c l1 IH]; [reflexivity|].
  simpl. unfold String.app in *. simpl. now rewrite IH.
Qed.

Lemma append_String (c : ascii) (a b : string) :
  String c a +:+ b = String c (a +:+ b).
Proof. reflexivity. Qed.

Lemma append_eq_empty (a b : string) : a +:+ b = "" -> b = "".
Proof. destruct a; [trivial | discriminate]. Qed.

(** White space at the end goes; what ends with something else stays. *)
Lemma trimEnd_app (a b : string) :
  trimEnd b = b -> b <> "" -> trimEnd (a +:+ b) = a +:+ b.
Proof.
  intros Hb Hne. induction a as [|c a IH]; [exact Hb|].
  rewrite append_String. simpl. rewrite IH.
  destruct (a +:+ b) eqn:E; [|reflexivity].
  apply append_eq_empty in E. congruence.
Qed.

Lemma trimEnd_app_kept (a b : string) :
  trimEnd b <> "" -> trimEnd (a +:+ b) = a +:+ trimEnd b.
Proof.
  intros Hne. induction a as [|c a IH]; [reflexivity|].
  rewrite !append_String. simpl. rewrite IH.
  destruct (a +:+ trimEnd b) eqn:E; [|reflexivity].
  apply append_eq_empty in E. congruence.
Qed.

Lemma trimEnd_line_feed (s : string) : trimEnd (s +:+ line_feed) = trimEnd s.
Proof.
  induction s as [|c s IH]; [reflexivity|].
  rewrite append_String. simpl. now rewrite IH.
Qed.

Lemma split_lines_single (l : string) :
  no_line_break l -> split_lines l = [l].
Proof.
  induction l as [|c l IH]; [reflexivity|].
  intros (H10 & H13 & Hl). simpl.
  apply Z.eqb_neq in H10, H13. rewrite H10, H13, (IH Hl). reflexivity.
Qed.

Lemma split_lines_line (l rest : string) :
  no_line_break l ->
  split_lines (l +:+ line_feed +:+ rest) = l :: split_lines rest.
Proof.
  induction l as [|c l IH]; [reflexivity|].
  intros (H10 & H13 & Hl). rewrite append_String. simpl.
  apply Z.eqb_neq in H10, H13. rewrite H10, H13, (IH Hl). reflexivity.
Qed.

(** Trimming and splitting a file of proper lines gives back the lines. *)
Lemma split_lines_trim_unlines (first : string) (lines : list string) :
  trimStart first = first -> Forall proper_line (first :: lines) ->
  split_lines (trim (unlines (first :: lines))) = first :: lines.
Proof.
  intros Hstart Hall. unfold trim.
  assert (Hts : trimStart (unlines (first :: lines)) = unlines (first :: lines)).
  { apply Forall_cons in Hall as [(_ & Hne & _) _].
    destruct first as [|c first]; [congruence|].
    simpl in *. destruct (is_space c); [|reflexivity].
    exfalso. clear -Hstart.
    assert (Hlen : forall s, (String.length (trimStart s) <= String.length s)%nat).
    { induction s as [|x s IH]; simpl; [lia|].
      destruct (is_space x); simpl; lia. }
    specialize (Hlen first). rewrite Hstart in Hlen. simpl in Hlen. lia. }
  rewrite Hts. clear Hts Hstart.
  revert first Hall. induction lines as [|l lines IH]; intros first Hall.
  - apply Forall_cons in Hall as [(Hnb & Hne & Hte) _].
    simpl unlines. change (line_feed +:+ "") with line_feed.
    rewrite trimEnd_line_feed, Hte. now apply split_lines_single.
  - apply Forall_cons in Hall as [(Hnb & Hne & Hte) Hall].
    specialize (IH l Hall).
    change (unlines (first :: l :: lines))
      with (first +:+ line_feed +:+ unlines (l :: lines)).
    assert (Htail : trimEnd (unlines (l :: lines)) <> "").
    { intros E. rewrite E in IH. simpl in IH. injection IH as <- _.
      apply Forall_cons in Hall as [(_ & Hl & _) _]. congruence. }
    assert (Hkeep : trimEnd (first +:+ line_feed +:+ unlines (l :: lines))
                    = first +:+ line_feed +:+ trimEnd (unlines (l :: lines))).
    { rewrite trimEnd_app_kept; rewrite trimEnd_app_kept; auto. }
    rewrite Hkeep, split_lines_line by assumption. now rewrite IH.
Qed.

(* ===================================================================== *)
(** * The session log: append, then load                                   *)
(* ===================================================================== *)

(** The line written for an object is one proper line that starts with its
    opening brace. *)
Lemma proper_line_stringify_object (props : list (string * json)) :
  proper_line (JSON.stringify (JObj props)) /\
  trimStart (JSON.stringify (JObj props)) = JSON.stringify (JObj props).
Proof.
  split; [split; [|split]|].
  - apply no_line_break_printable, printable_print.
  - unfold JSON.stringify. rewrite print_JObj. discriminate.
  - unfold JSON.stringify. rewrite print_JObj.
    change ("{"%char :: JSON.print_props props ++ ["}"%char])
      with (("{"%char :: JSON.print_props props) ++ ["}"%char]).
    rewrite string_of_list_ascii_app. apply trimEnd_app; [reflexivity|].
    discriminate.
  - unfold JSON.stringify. rewrite print_JObj. reflexivity.
Qed.

Lemma trim_proper_line (line : string) :
  proper_line line -> trimStart line = line -> trim line = line.
Proof. intros (_ & _ & Hend) Hstart. unfold trim. now rewrite Hstart. Qed.

Lemma well_formed_ContentBlock_value (b : ContentBlock) :
  match b with
  | tool_use_block _ _ input => JSON.well_formed input
  | _ => True
  end ->
  JSON.well_formed (ContentBlock_value b).
Proof.
  destruct b as [t | i n input | tid c]; intros H;
    unfold ContentBlock_value; apply well_formed_JObj;
    (split; [cbn [map fst]; apply (bool_decide_unpack _); vm_compute; exact I|]);
    repeat constructor; exact H.
Qed.

Lemma well_formed_MessageEntry (m : Message) (timestamp : Z) :
  Message_well_formed m -> JSON.well_formed (MessageEntry m timestamp).
Proof.
  intros Hm. unfold MessageEntry. apply well_formed_JObj. split.
  - cbn [map fst]. apply (bool_decide_unpack _). vm_compute. exact I.
  - repeat constructor; cbn [snd].
    unfold Message_well_formed in Hm.
    destruct (content m) as [str | blocks]; [exact I|].
    apply well_formed_JArr. apply Forall_forall. intros v Hv.
    apply list_elem_of_In, in_map_iff in Hv as (b & <- & Hb).
    apply well_formed_ContentBlock_value.
    rewrite Forall_forall in Hm. apply Hm. now apply list_elem_of_In.
Qed.

Lemma well_formed_SessionEntry (sessionId : string) (createdAt : Z) :
  JSON.well_formed (SessionEntry sessionId createdAt).
Proof.
  unfold SessionEntry. apply well_formed_JObj. split.
  - cbn [map fst]. apply (bool_decide_unpack _). vm_compute. exact I.
  - repeat constructor.
Qed.

(** What the loader does with a line that parses. *)
Lemma loadLine_parsed (messages : list StoredMessage) (line : string)
    (entry : json) :
  proper_line line -> trimStart line = line -> JSON.parse line = Some entry ->
  loadLine messages line =
  match property entry "type" with
  | Threw _ => messages
  | Returned (Some (JStr "message")) =>
      match property entry "role", property entry "content" with
      | Returned r, Returned c =>
          messages ++ [ {| stored_role := r; stored_content := c |} ]
      | _, _ => messages
      end
  | Returned _ => messages
  end.
Proof.
  intros Hline Hstart Hparse. unfold loadLine.
  rewrite (trim_proper_line line Hline Hstart), Hparse.
  destruct Hline as (_ & Hne & _). destruct line; [congruence | reflexivity].
Qed.

Lemma loadLine_message (messages : list StoredMessage) (m : Message)
    (timestamp : Z) :
  Message_well_formed m ->
  loadLine messages (JSON.stringify (MessageEntry m timestamp))
  = messages ++ [ stored m ].
Proof.
  intros Hm.
  destruct (proper_line_stringify_object
              [("type", JStr "message"); ("role", Role_value (role m));
               ("content", Content_value (content m));
               ("timestamp", JNum timestamp)]) as [Hline Hstart].
  fold (MessageEntry m timestamp) in Hline, Hstart.
  rewrite (loadLine_parsed messages _ (MessageEntry m timestamp) Hline Hstart).
  - reflexivity.
  - apply parse_stringify, well_formed_MessageEntry, Hm.
Qed.

Lemma loadLine_header (messages : list StoredMessage) (sessionId : string)
    (createdAt : Z) :
  loadLine messages (JSON.stringify (SessionEntry sessionId createdAt))
  = messages.
Proof.
  destruct (proper_line_stringify_object
              [("type", JStr "session"); ("id", JStr sessionId);
               ("createdAt", JNum createdAt)]) as [Hline Hstart].
  fold (SessionEntry sessionId createdAt) in Hline, Hstart.
  rewrite (loadLine_parsed messages _ (SessionEntry sessionId createdAt)
             Hline Hstart).
  - reflexivity.
  - apply parse_stringify, well_formed_SessionEntry.
Qed.

(** A line that [JSON.parse] rejects adds nothing. *)
Lemma loadLine_rejected (messages : list StoredMessage) (line : string) :
  JSON.parse line = None -> loadLine messages line = messages.
Proof.
  intros Hparse. unfold loadLine. rewrite Hparse.
  now destruct (trim line).
Qed.

Lemma appendFileSync_lookup (path data : string) (w : World) (content : string) :
  files w !! path = Some content ->
  files (appendFileSync path data w) !! path = Some (content +:+ data) /\
  home (appendFileSync path data w) = home w.
Proof.
  intros H. unfold appendFileSync, with_files. simpl.
  now rewrite lookup_insert_eq, H.
Qed.

Lemma appendMessage_eq (s : Session) (m : Message) (w : World) :
  appendMessage s m w =
  ({| session_id := session_id s;
      session_messages := session_messages s ++ [m];
      session_filePath := session_filePath s |},
   appendFileSync (session_filePath s)
     (JSON.stringify (MessageEntry m (clock w (ticks w))) +:+ line_feed)
     (tick w)).
Proof. reflexivity. Qed.

(** What a sequence of writes leaves, when the lines written between the
    messages are lines that the loader passes over: the session holds the
    messages written, its file holds one more proper line per write, and
    loading those lines gives the stored forms of the messages, in order. *)
Lemma perform_passed_over (writes : list Write) :
  Forall (fun wr => match wr with
                    | write_message m => Message_well_formed m
                    | write_line line =>
                        proper_line line /\
                        forall loaded, loadLine loaded line = loaded
                    end) writes ->
  forall s w before,
    files w !! session_filePath s = Some before ->
    exists lines,
      let after := fold_left perform writes (s, w) in
      session_id (fst after) = session_id s /\
      session_filePath (fst after) = session_filePath s /\
      session_messages (fst after)
        = session_messages s ++ written_messages writes /\
      home (snd after) = home w /\
      files (snd after) !! session_filePath s
        = Some (before +:+ unlines lines) /\
      Forall proper_line lines /\
      forall loaded,
        fold_left loadLine lines loaded
        = loaded ++ map stored (written_messages writes).
Proof.
  induction 1 as [|wr writes Hwr _ IH]; intros s w before Hfile.
  - exists []. simpl. rewrite append_empty_r, !app_nil_r. repeat split; auto.
    intros loaded. now rewrite app_nil_r.
  - destruct wr as [m | line]; simpl in Hwr.
    + set (line := JSON.stringify (MessageEntry m (clock w (ticks w)))).
      destruct (appendFileSync_lookup (session_filePath s)
                  (line +:+ line_feed) (tick w) before Hfile) as [Hnew Hhome].
      destruct (IH {| session_id := session_id s;
                      session_messages := session_messages s ++ [m];
                      session_filePath := session_filePath s |}
                  (appendFileSync (session_filePath s) (line +:+ line_feed)
                     (tick w)) _ Hnew)
        as (lines & Hid & Hpath & Hmsgs & Hh & Hf & Hlines & Hload).
      exists (line :: lines).
      cbn zeta in *. cbn [fold_left perform]. rewrite appendMessage_eq.
      fold line.
      cbn [session_id session_filePath session_messages] in Hid, Hpath, Hmsgs, Hf.
      rewrite Hid, Hpath, Hmsgs, Hh, Hf. cbn [unlines written_messages flat_map].
      split; [reflexivity|]. split; [reflexivity|].
      split; [now rewrite <- app_assoc|].
      split; [exact Hhome|].
      split; [now rewrite !append_assoc|].
      split.
      * constructor; [|exact Hlines].
        apply (proper_line_stringify_object
                 [("type", JStr "message"); ("role", Role_value (role m));
                  ("content", Content_value (content m));
                  ("timestamp", JNum (clock w (ticks w)))]).
      * intros loaded. cbn [fold_left]. unfold line.
        rewrite loadLine_message, Hload by assumption.
        cbn [app map]. now rewrite <- app_assoc.
    + destruct Hwr as [Hline Hskip].
      destruct (appendFileSync_lookup (session_filePath s)
                  (line +:+ line_feed) w before Hfile) as [Hnew Hhome].
      destruct (IH s (appendFileSync (session_filePath s)
                        (line +:+ line_feed) w) _ Hnew)
        as (lines & Hid & Hpath & Hmsgs & Hh & Hf & Hlines & Hload).
      exists (line :: lines).
      cbn zeta in *. cbn [fold_left perform].
      rewrite Hid, Hpath, Hmsgs, Hh, Hf. cbn [unlines written_messages flat_map].
      split; [reflexivity|]. split; [reflexivity|].
      split; [reflexivity|].
      split; [exact Hhome|].
      split; [now rewrite !append_assoc|].
      split; [constructor; assumption|].
      intros loaded. cbn [fold_left].
      now rewrite Hskip, Hload.
Qed.

Lemma proper_write_passed_over (writes : list Write) :
  Forall proper_write writes ->
  Forall (fun wr => match wr with
                    | write_message m => Message_well_formed m
                    | write_line line =>
                        proper_line line /\
                        forall loaded, loadLine loaded line = loaded
                    end) writes.
Proof.
  intros Hwrites. eapply Forall_impl; [exact Hwrites|].
  intros [m | line]; [trivial|].
  intros [Hline Hparse]. split; [exact Hline|].
  intros loaded. now apply loadLine_rejected.
Qed.

(** What a sequence of writes leaves: the session holds the messages
    written, its file holds one more proper line per write, and loading those
    lines gives the stored forms of the messages, in order. *)
Lemma perform_writes (writes : list Write) :
  Forall proper_write writes ->
  forall s w before,
    files w !! session_filePath s = Some before ->
    exists lines,
      let after := fold_left perform writes (s, w) in
      session_id (fst after) = session_id s /\
      session_filePath (fst after) = session_filePath s /\
      session_messages (fst after)
        = session_messages s ++ written_messages writes /\
      home (snd after) = home w /\
      files (snd after) !! session_filePath s
        = Some (before +:+ unlines lines) /\
      Forall proper_line lines /\
      forall loaded,
        fold_left loadLine lines loaded
        = loaded ++ map stored (written_messages writes).
Proof.
  intros Hwrites. now apply perform_passed_over, proper_write_passed_over.
Qed.



(** Loading after a creation and a sequence of writes. *)
Lemma loadSession_after_passed_over (id : option string) (w : World)
    (writes : list Write) :
  Forall (fun wr => match wr with
                    | write_message m => Message_well_formed m
                    | write_line line =>
                        proper_line line /\
                        forall loaded, loadLine loaded line = loaded
                    end) writes ->
  let created := createSession id w in
  let after := fold_left perform writes created in
  session_messages (fst after) = written_messages writes /\
  loadSession (session_id (fst created)) (snd after) =
  Returned {| loaded_id := session_id (fst created);
              loaded_messages := map stored (written_messages writes);
              loaded_filePath := session_filePath (fst created) |}.
Proof.
  intros Hwrites created after.
  assert (Hcreated : exists sessionId createdAt w0,
            created =
            ({| session_id := sessionId; session_messages := [];
                session_filePath := sessionFilePath w sessionId |}, w0) /\
            home w0 = home w /\
            files w0 !! sessionFilePath w sessionId =
              Some (JSON.stringify (SessionEntry sessionId createdAt)
                    +:+ line_feed)).
  { unfold created, createSession.
    destruct id as [i|]; cbn; eexists _, _, _;
      (split; [reflexivity|]); (split; [reflexivity|]);
      unfold writeFileSync, with_files; cbn; apply lookup_insert_eq. }
  destruct Hcreated as (sessionId & createdAt & w0 & Hc & Hhome & Hfile).
  subst after. rewrite Hc.
  destruct (perform_passed_over writes Hwrites
              {| session_id := sessionId; session_messages := [];
                 session_filePath := sessionFilePath w sessionId |}
              w0 _ Hfile)
    as (lines & Hid & Hpath & Hmsgs & Hh & Hf & Hlines & Hload).
  cbn zeta in *. cbn [fst snd session_id session_filePath session_messages] in *.
  split; [now rewrite Hmsgs|].
  unfold loadSession.
  assert (Hsame : forall w1 w2,
            home w1 = home w2 ->
            sessionFilePath w1 sessionId = sessionFilePath w2 sessionId).
  { intros w1 w2 Hw. unfold sessionFilePath. now rewrite Hw. }
  rewrite (Hsame _ w) by congruence.
  rewrite Hf. f_equal. f_equal.
  rewrite append_assoc.
  change (JSON.stringify (SessionEntry sessionId createdAt)
          +:+ line_feed +:+ unlines lines)
    with (unlines (JSON.stringify (SessionEntry sessionId createdAt) :: lines)).
  destruct (proper_line_stringify_object
              [("type", JStr "session"); ("id", JStr sessionId);
               ("createdAt", JNum createdAt)]) as [Hline Hstart].
  fold (SessionEntry sessionId createdAt) in Hline, Hstart.
  rewrite split_lines_trim_unlines by (auto; constructor; auto).
  cbn [fold_left]. now rewrite loadLine_header, Hload.
Qed.

Lemma loadSession_after_writes (id : option string) (w : World)
    (writes : list Write) :
  Forall proper_write writes ->
  let created := createSession id w in
  let after := fold_left perform writes created in
  session_messages (fst after) = written_messages writes /\
  loadSession (session_id (fst created)) (snd after) =
  Returned {| loaded_id := session_id (fst created);
              loaded_messages := map stored (written_messages writes);
              loaded_filePath := session_filePath (fst created) |}.
Proof.
  intros Hwrites.
  now apply loadSession_after_passed_over, proper_write_passed_over.
Qed.











(* ===================================================================== *)
(** * The context preparer: what it bounds, what it keeps                  *)
(* ===================================================================== *)

Lemma length_substring_le (n m : nat) (s : string) :
  (String.length (substring n m s) <= m)%nat.
Proof.
  revert n m. induction s as [|c s IH]; intros n m; simpl.
  - destruct n, m; simpl; lia.
  - destruct n as [|n].
    + destruct m as [|m]; simpl; [lia|]. specialize (IH 0%nat m). lia.
    + apply IH.
Qed.

Lemma str_length_slice_le (s : string) (e : Z) :
  0 <= e -> str_length (slice s 0 e) <= e.
Proof.
  intros He. unfold slice, str_length.
  pose proof (length_substring_le
                (Z.to_nat (if 0 <? 0
                           then Z.max (Z.of_nat (String.length s) + 0) 0
                           else Z.min 0 (Z.of_nat (String.length s))))
                (Z.to_nat
                   (Z.max
                      ((if e <? 0
                        then Z.max (Z.of_nat (String.length s) + e) 0
                        else Z.min e (Z.of_nat (String.length s)))
                       - (if 0 <? 0
                          then Z.max (Z.of_nat (String.length s) + 0) 0
                          else Z.min 0 (Z.of_nat (String.length s)))) 0)) s)
    as H.
  cbv zeta. destruct (e <? 0) eqn:E; [lia|].
  change (0 <? 0) with false in *. cbv iota in *. lia.
Qed.

(** Whatever the cap, a truncated string is at most [MIN_KEEP_CHARS + 64]
    characters long when it does not fit the cap. *)
Lemma truncateText_bounded (text : string) (maxChars : Z) :
  str_length text <= MAX_STRING_LENGTH ->
  str_length (truncateText text maxChars)
  <= Z.max maxChars (MIN_KEEP_CHARS + 64).
Proof.
  intros Hjs.
  destruct (Z_le_gt_dec (str_length text) maxChars) as [Hfit | Hlong].
  { rewrite truncateText_short by assumption. lia. }
  destruct (Z_le_gt_dec (MIN_KEEP_CHARS + 100) maxChars) as [Hroom | Hsmall].
  { pose proof (truncateText_fits text maxChars Hroom ltac:(lia)). lia. }
  destruct (truncateText_cut text maxChars ltac:(lia))
    as (cutAt & -> & Hcut & _).
  assert (Hkeep : Z.max MIN_KEEP_CHARS (maxChars - 100) = 2000)
    by (unfold MIN_KEEP_CHARS in *; lia).
  rewrite Hkeep in Hcut. change (2000 * 4 / 5) with 1600 in Hcut.
  rewrite str_length_append, str_length_truncation_marker.
  pose proof (str_length_slice_le text cutAt ltac:(lia)).
  pose proof MAX_STRING_LENGTH_digits.
  pose proof (str_length_nonneg text).
  pose proof (str_length_Number_toString cutAt 4 ltac:(lia) ltac:(lia)).
  pose proof (str_length_Number_toString (str_length text) 16
                ltac:(lia) ltac:(lia)).
  unfold MIN_KEEP_CHARS. lia.
Qed.

Lemma truncateToolResults_bounded (messages : list Message) (maxChars : Z) :
  tool_results_fit MAX_STRING_LENGTH messages ->
  tool_results_fit (Z.max maxChars (MIN_KEEP_CHARS + 64))
    (truncateToolResults messages maxChars).
Proof.
  intros H. rewrite truncateToolResults_map.
  induction H as [|m l Hm _ IH]; simpl; constructor; [|exact IH].
  destruct m as [r c]. unfold message_fits in *. simpl in *.
  destruct r, c as [s | blocks]; simpl; auto.
  rewrite truncateMessage_blocks. simpl.
  induction Hm as [|b bs Hb _ IHb]; simpl; constructor; auto.
  destruct b as [| |tid c]; simpl; auto. simpl in Hb.
  destruct (str_length c >? maxChars) eqn:E; simpl.
  - now apply truncateText_bounded.
  - rewrite Z.gtb_ltb in E. apply Z.ltb_ge in E. lia.
Qed.

Lemma tool_results_fit_mono (cap cap' : Z) (messages : list Message) :
  cap <= cap' -> tool_results_fit cap messages -> tool_results_fit cap' messages.
Proof.
  intros Hle H. induction H as [|m l Hm _ IH]; constructor; [|exact IH].
  unfold message_fits in *. destruct (role m), (content m); auto.
  induction Hm as [|b bs Hb _ IHb]; constructor; auto.
  destruct b; simpl in *; auto. lia.
Qed.

(** X1. The prepared context bounds every tool result of a user message.
    For a transcript whose tool results are JavaScript strings and any
    configuration, with [cap] the configured limit cut down to the hard
    ceiling of 400,000: no tool result of the prepared context is longer than
    the larger of [cap] and 2064 (the 2000 characters always kept, plus the
    marker); none is longer than [cap] when the configured limit is at least
    2100; and none is longer than 400,000 in any case. *)
Theorem prepareContext_bounds_tool_results (messages : list Message)
    (config : ContextConfig) :
  tool_results_fit MAX_STRING_LENGTH messages ->
  let cap := Z.min (maxToolResultChars config) HARD_MAX_TOOL_RESULT_CHARS in
  tool_results_fit (Z.max cap (MIN_KEEP_CHARS + 64))
    (prepareContext messages config) /\
  (MIN_KEEP_CHARS + 100 <= maxToolResultChars config ->
   tool_results_fit cap (prepareContext messages config)) /\
  tool_results_fit HARD_MAX_TOOL_RESULT_CHARS (prepareContext messages config).
Proof.
  intros Hjs cap.
  assert (Hbound : tool_results_fit (Z.max cap (MIN_KEEP_CHARS + 64))
                     (prepareContext messages config)).
  { unfold prepareContext. fold cap.
    apply tool_results_fit_removeOrphanedToolResults,
      truncateToolResults_bounded.
    now apply tool_results_fit_limitHistoryTurns. }
  split; [exact Hbound|]. split.
  - intros Hroom. unfold prepareContext. fold cap.
    apply tool_results_fit_removeOrphanedToolResults, truncateToolResults_fits.
    + unfold cap, MIN_KEEP_CHARS, HARD_MAX_TOOL_RESULT_CHARS in *. lia.
    + now apply tool_results_fit_limitHistoryTurns.
  - eapply tool_results_fit_mono; [|exact Hbound].
    unfold cap, MIN_KEEP_CHARS, HARD_MAX_TOOL_RESULT_CHARS. lia.
Qed.

Lemma prepareContext_bounds_tool_results_witness :
  let config := {| maxHistoryTurns := 50; maxToolResultChars := 50 |} in
  let messages :=
    [ {| role := assistant;
         content := Blocks [ tool_use_block "tu_1" "bash" (JObj []) ] |};
      {| role := user;
         content := Blocks [ tool_result_block "tu_1" (repeat_char "a" 5000) ] |} ]
  in
  tool_results_fit 2064 (prepareContext messages config).
Proof.
  intros config messages.
  apply (prepareContext_bounds_tool_results messages config).
  repeat constructor. vm_compute. discriminate.
Defined.

Lemma cleanMessage_untouched (ids : gset string) (m : Message) :
  carries_blocks m = false -> cleanMessage ids m = Some m.
Proof.
  unfold carries_blocks, cleanMessage.
  destruct (role m), (content m); try reflexivity. discriminate.
Qed.

Lemma truncateMessage_untouched (maxChars : Z) (m : Message) :
  carries_blocks m = false -> truncateMessage maxChars m = m.
Proof.
  unfold carries_blocks, truncateMessage.
  destruct (role m), (content m); try reflexivity. discriminate.
Qed.

Lemma carries_blocks_truncateMessage (maxChars : Z) (m : Message) :
  carries_blocks (truncateMessage maxChars m) = carries_blocks m.
Proof.
  destruct m as [[] [s | blocks]]; try reflexivity.
  now rewrite truncateMessage_blocks.
Qed.

Lemma carries_blocks_cleanMessage (ids : gset string) (m m' : Message) :
  cleanMessage ids m = Some m' -> carries_blocks m' = carries_blocks m.
Proof.
  unfold cleanMessage, carries_blocks.
  destruct m as [[] [s | blocks]]; simpl; try (intros [= <-]; reflexivity).
  destruct (Z.of_nat _ =? 0); [discriminate | intros [= <-]; reflexivity].
Qed.

(** X2. The context preparer changes nothing but user messages that carry
    blocks. The assistant messages and the plain-text user messages of the
    prepared context are, one for one and in the same order, those of the
    window that layer 1 keeps: none is dropped, none is altered, none is
    added. *)
Theorem prepareContext_keeps_other_messages (messages : list Message)
    (config : ContextConfig) :
  List.filter (fun m => negb (carries_blocks m)) (prepareContext messages config)
  = List.filter (fun m => negb (carries_blocks m))
      (limitHistoryTurns messages (maxHistoryTurns config)).
Proof.
  unfold prepareContext, removeOrphanedToolResults.
  rewrite truncateToolResults_map.
  generalize (collectToolUseIds
                (map (truncateMessage
                        (Z.min (maxToolResultChars config)
                           HARD_MAX_TOOL_RESULT_CHARS))
                   (limitHistoryTurns messages (maxHistoryTurns config)))).
  intros ids.
  induction (limitHistoryTurns messages (maxHistoryTurns config))
    as [|m l IH]; [reflexivity|].
  cbn [map]. rewrite omap_cons.
  destruct (cleanMessage ids (truncateMessage _ m)) as [m'|] eqn:E.
  - pose proof (carries_blocks_cleanMessage _ _ _ E) as Hc.
    rewrite carries_blocks_truncateMessage in Hc.
    cbn [List.filter]. rewrite Hc.
    destruct (carries_blocks m) eqn:Hm; cbn [negb]; [exact IH|].
    rewrite truncateMessage_untouched, cleanMessage_untouched in E
      by assumption.
    injection E as <-. now rewrite IH.
  - cbn [List.filter].
    destruct (carries_blocks m) eqn:Hm; cbn [negb]; [exact IH|].
    rewrite truncateMessage_untouched, cleanMessage_untouched in E
      by assumption.
    discriminate.
Qed.

(** X3. The cleanup removes nothing but orphans. Every message that is not a
    user message with blocks stays as it is; and of a user message with
    blocks, every block that is not a tool_result, and every tool_result
    whose id is the id of a tool_use of an assistant message of the list,
    stays in a user message of the result. *)
Theorem removeOrphanedToolResults_keeps_resolved (messages : list Message) :
  (forall m,
     m ∈ messages -> carries_blocks m = false ->
     m ∈ removeOrphanedToolResults messages) /\
  (forall m blocks b,
     m ∈ messages -> role m = user -> content m = Blocks blocks ->
     b ∈ blocks ->
     (forall tid c, b = tool_result_block tid c -> resolves messages tid) ->
     exists blocks',
       {| role := user; content := Blocks blocks' |}
         ∈ removeOrphanedToolResults messages /\
       b ∈ blocks' /\
       blocks' = List.filter (keepBlock (collectToolUseIds messages)) blocks).
Proof.
  split.
  - intros m Hm Hc. unfold removeOrphanedToolResults.
    apply list_elem_of_omap. exists m. split; [exact Hm|].
    now apply cleanMessage_untouched.
  - intros m blocks b Hm Hrole Hcontent Hb Hres.
    set (ids := collectToolUseIds messages).
    assert (Hkeep : b ∈ List.filter (keepBlock ids) blocks).
    { apply list_elem_of_In, filter_In. split; [now apply list_elem_of_In|].
      destruct b as [t | i n input | tid c]; try reflexivity.
      simpl. apply bool_decide_eq_true.
      apply elem_of_collectToolUseIds. now apply (Hres tid c). }
    exists (List.filter (keepBlock ids) blocks).
    split; [|split; [exact Hkeep | reflexivity]].
    unfold removeOrphanedToolResults. fold ids.
    apply list_elem_of_omap. exists m. split; [exact Hm|].
    unfold cleanMessage. rewrite Hrole, Hcontent.
    destruct (List.filter (keepBlock ids) blocks) as [|x xs] eqn:E.
    + inversion Hkeep.
    + reflexivity.
Qed.

Lemma removeOrphanedToolResults_keeps_resolved_witness :
  let call := {| role := assistant;
                 content := Blocks [ tool_use_block "tu_1" "bash" (JObj []) ] |} in
  let reply := {| role := user;
                  content := Blocks [ tool_result_block "tu_1" "valid";
                                      tool_result_block "orphan" "orphaned" ] |} in
  exists blocks',
    {| role := user; content := Blocks blocks' |}
      ∈ removeOrphanedToolResults [call; reply] /\
    tool_result_block "tu_1" "valid" ∈ blocks'.
Proof.
  intros call reply.
  destruct (proj2 (removeOrphanedToolResults_keeps_resolved [call; reply])
              reply
              [ tool_result_block "tu_1" "valid";
                tool_result_block "orphan" "orphaned" ]
              (tool_result_block "tu_1" "valid"))
    as (blocks' & Hin & Hb & _).
  - apply elem_of_cons. right. constructor.
  - reflexivity.
  - reflexivity.
  - constructor.
  - intros tid c [= <- <-].
    exists call, [ tool_use_block "tu_1" "bash" (JObj []) ], "bash", (JObj []).
    repeat split; constructor.
  - exists blocks'. split; [exact Hin | exact Hb].
Defined.

Lemma cleanMessage_resolved (ids : gset string) (m : Message) :
  (forall blocks,
     role m = user -> content m = Blocks blocks ->
     blocks <> [] /\ forall tid c, tool_result_block tid c ∈ blocks -> tid ∈ ids) ->
  cleanMessage ids m = Some m.
Proof.
  intros H. unfold cleanMessage.
  destruct m as [[] [s | blocks]]; simpl in *; try reflexivity.
  destruct (H blocks eq_refl eq_refl) as [Hne Hall].
  assert (Hsame : List.filter (keepBlock ids) blocks = blocks).
  { clear Hne H. induction blocks as [|b bs IH]; [reflexivity|].
    simpl. assert (Hb : keepBlock ids b = true).
    { destruct b as [| |tid c]; try reflexivity.
      simpl. apply bool_decide_eq_true. apply (Hall tid c). constructor. }
    rewrite Hb. f_equal. apply IH. intros tid c Hin.
    apply (Hall tid c). now constructor. }
  rewrite Hsame. destruct blocks; [congruence | reflexivity].
Qed.

Lemma removeOrphanedToolResults_resolved (messages : list Message) :
  user_results_resolve messages ->
  removeOrphanedToolResults messages = messages.
Proof.
  intros H. unfold removeOrphanedToolResults.
  assert (Hall : forall m, m ∈ messages ->
            cleanMessage (collectToolUseIds messages) m = Some m).
  { intros m Hm. apply cleanMessage_resolved. intros blocks Hr Hc.
    destruct (H m blocks Hm Hr Hc) as [Hne Hres]. split; [exact Hne|].
    intros tid c Hin. apply elem_of_collectToolUseIds. eauto. }
  revert Hall. generalize (collectToolUseIds messages). intros ids. clear H.
  induction messages as [|m l IH]; intros Hall; [reflexivity|].
  assert (Hm : m ∈ m :: l) by constructor.
  rewrite omap_cons, (Hall m Hm).
  f_equal. apply IH. intros m' Hm'. apply Hall. now constructor.
Qed.

(** X4. A transcript that needs no work is passed on as it is: when the
    history limit is off or the transcript holds no more user messages than
    the limit, every tool result fits the cap, every tool_result of a user
    message answers a tool_use of the transcript, and no user message has an
    empty list of blocks, [prepareContext] returns the transcript
    unchanged. *)
Theorem prepareContext_unchanged (messages : list Message)
    (config : ContextConfig) :
  (maxHistoryTurns config <= 0 \/ userCount messages <= maxHistoryTurns config) ->
  tool_results_fit
    (Z.min (maxToolResultChars config) HARD_MAX_TOOL_RESULT_CHARS) messages ->
  user_results_resolve messages ->
  prepareContext messages config = messages.
Proof.
  intros Hk Hfit Hres. apply prepareContext_fixpoint; auto.
  now apply removeOrphanedToolResults_resolved.
Qed.

Lemma prepareContext_unchanged_witness :
  let config := {| maxHistoryTurns := 50; maxToolResultChars := 100000 |} in
  let messages :=
    [ {| role := user; content := Str "List the files" |};
      {| role := assistant;
         content := Blocks [ text_block "Listing.";
                             tool_use_block "tu_1" "bash" (JObj []) ] |};
      {| role := user;
         content := Blocks [ tool_result_block "tu_1" "a.txt" ] |};
      {| role := assistant; content := Str "One file: a.txt" |} ] in
  prepareContext messages config = messages.
Proof.
  intros config messages.
  apply (prepareContext_unchanged messages config).
  - right. vm_compute. discriminate.
  - repeat constructor. vm_compute. discriminate.
  - intros m blocks Hm Hrole Hcontent.
    apply list_elem_of_In in Hm. simpl in Hm.
    destruct Hm as [<- | [<- | [<- | [<- | []]]]]; try discriminate.
    injection Hcontent as <-. split; [discriminate|].
    intros tid c Hin. apply list_elem_of_singleton in Hin. injection Hin as -> ->.
    exists {| role := assistant;
              content := Blocks [ text_block "Listing.";
                                  tool_use_block "tu_1" "bash" (JObj []) ] |},
           [ text_block "Listing."; tool_use_block "tu_1" "bash" (JObj []) ],
           "bash", (JObj []).
    repeat split.
    + apply elem_of_cons. right. constructor.
    + apply elem_of_cons. right. constructor.
Defined.

(* ===================================================================== *)
(** * The turn as a whole                                                  *)
(* ===================================================================== *)

Lemma toolOutput_eq (name : string) (input : json) (tools : list Tool) :
  executeTool name input tools = Returned (toolOutput name input tools).
Proof.
  unfold toolOutput.
  destruct (executeTool_returns name input tools) as (result & -> & _).
  reflexivity.
Qed.

(** The tool loop, in one step. *)
Lemma executeToolUses_eq (pending : list ToolUse) (tools : list Tool)
    (toolResults : list ContentBlock) (st : TurnState) :
  executeToolUses pending tools toolResults st =
  (Returned (toolResults ++ tool_results pending tools),
   {| session := session st; world := world st;
      emitted := emitted st ++ tool_events pending tools;
      dispatched := dispatched st
                    ++ map (fun tu => (use_name tu, use_input tu)) pending |}).
Proof.
  revert toolResults st.
  induction pending as [|tu rest IH]; intros toolResults st.
  - destruct st. simpl. now rewrite !app_nil_r.
  - cbn [executeToolUses]. unfold call_executeTool.
    rewrite toolOutput_eq, IH. unfold yield. simpl.
    rewrite <- !app_assoc. reflexivity.
Qed.

(** The three ways a pass through the loop can go. *)
Lemma agentLoop_S (rounds calls : nat) (config : SlimClawConfig)
    (client : LLMClient) (tools : list Tool) (systemPrompt : string)
    (st : TurnState) :
  agentLoop (S rounds) calls config client tools systemPrompt st =
  let run := client calls (roundParams config tools systemPrompt st) in
  match failure run with
  | Some e => (Failed e, after_events (yielded run) st)
  | None =>
      match toolUsesOf (yielded run) with
      | [] => (Finished, after_assistant (yielded run) st)
      | _ :: _ =>
          agentLoop rounds (S calls) config client tools systemPrompt
            (after_tools (yielded run) tools st)
      end
  end.
Proof.
  cbn [agentLoop]. fold (roundParams config tools systemPrompt st).
  cbv zeta.
  set (run := client calls (roundParams config tools systemPrompt st)).
  destruct (failure run) as [e|] eqn:Hrun.
  - now rewrite (agentRound_failed run tools st e Hrun).
  - rewrite (agentRound_eq run tools st Hrun).
    destruct (toolUsesOf (yielded run)) as [|tu tus] eqn:Huses; [reflexivity|].
    rewrite executeToolUses_eq. cbn [length Z.of_nat Z.eqb app].
    unfold after_tools. rewrite Huses. reflexivity.
Qed.

Lemma tool_use_ids_assistantContent (t : string) (uses : list ToolUse) :
  tool_use_ids (assistantContent t uses) = map use_id uses.
Proof.
  unfold assistantContent.
  assert (Hids : forall l,
            flat_map (fun b => match b with
                               | tool_use_block i _ _ => [i]
                               | _ => []
                               end)
              (map (fun tu => tool_use_block (use_id tu) (use_name tu)
                                (use_input tu)) l)
            = map use_id l).
  { induction l as [|tu l IH]; [reflexivity|]. simpl. now rewrite IH. }
  destruct (truthy (Some t)).
  - destruct uses as [|tu uses]; [reflexivity|].
    cbn [app map]. unfold tool_use_ids. cbn [flat_map app].
    now rewrite (Hids uses).
  - cbn [app]. destruct uses as [|tu uses]; [reflexivity|].
    cbn [map]. unfold tool_use_ids. cbn [flat_map app].
    now rewrite (Hids uses).
Qed.

Lemma answered_ids_tool_results (uses : list ToolUse) (tools : list Tool) :
  answered_ids (tool_results uses tools) = Some (map use_id uses).
Proof.
  induction uses as [|tu uses IH]; [reflexivity|].
  unfold tool_results in *. cbn [map answered_ids]. now rewrite IH.
Qed.

Lemma after_events_fields (events : list StreamEvent) (st : TurnState) :
  session (after_events events st) = session st /\
  world (after_events events st) = world st.
Proof. split; reflexivity. Qed.


Lemma after_tools_fields (events : list StreamEvent) (tools : list Tool)
    (st : TurnState) :
  session_messages (session (after_tools events tools st)) =
    session_messages (session st)
    ++ [ {| role := assistant;
            content := assistantContent (textOf events) (toolUsesOf events) |};
         {| role := user;
            content := Blocks (tool_results (toolUsesOf events) tools) |} ] /\
  session_id (session (after_tools events tools st)) = session_id (session st) /\
  session_filePath (session (after_tools events tools st))
    = session_filePath (session st) /\
  emitted (after_tools events tools st) =
    emitted st ++ text_events events ++ tool_events (toolUsesOf events) tools /\
  dispatched (after_tools events tools st) =
    dispatched st
    ++ map (fun tu => (use_name tu, use_input tu)) (toolUsesOf events).
Proof.
  repeat split.
  - unfold after_tools, after_assistant, append. simpl.
    now rewrite <- app_assoc.
  - unfold after_tools, after_assistant, append. simpl.
    now rewrite <- app_assoc.
Qed.

(** ** Tool dispatch inside a round *)

(** C7. For every tool name and input, [executeTool] returns a string and
    never throws: the synthesized error string when the name is not in the
    catalog, the executor's own result when it returns, and an error string
    made from what it threw when it throws. The tool loop of [agentTurn]
    therefore never leaves early: it puts each such string into a
    tool_result. A round whose stream did not fail and asked for tools
    therefore ends in [continue], whatever the tools did: the assistant
    message is appended and after it one user message that holds, for every
    request in order, a tool_result with the string that [executeTool]
    returned, and the loop goes on to its next round, calling the client
    again with the context prepared from the longer transcript. A round whose
    stream did not fail never ends the turn with an exception. *)
Theorem tool_dispatch_never_raises :
  (forall name input tools,
     exists result,
       executeTool name input tools = Returned result /\
       match List.find (fun t => String.eqb (tool_name (definition t)) name)
                       tools with
       | None => result = "Error: Unknown tool " +:+ quoted name
       | Some tool =>
           match execute tool input with
           | Returned r => result = r
           | Threw (ErrorObject message) =>
               result = "Error executing tool " +:+ quoted name +:+ ": "
                        +:+ message
           | Threw (OtherValue shown) =>
               result = "Error executing tool " +:+ quoted name +:+ ": "
                        +:+ shown
           end
       end) /\
  (forall pending tools st,
     exists results st',
       executeToolUses pending tools [] st = (Returned results, st') /\
       Forall2 (fun toolUse block =>
                  exists result,
                    executeTool (use_name toolUse) (use_input toolUse) tools
                    = Returned result /\
                    block = tool_result_block (use_id toolUse) result)
               pending results) /\
  (forall run tools st,
     failure run = None -> toolUsesOf (yielded run) <> [] ->
     exists results st',
       agentRound run tools st = (Continue, st') /\
       session_messages (session st') =
         session_messages (session st)
         ++ [ {| role := assistant;
                 content := assistantContent (textOf (yielded run))
                              (toolUsesOf (yielded run)) |};
              {| role := user; content := Blocks results |} ] /\
       Forall2 (fun toolUse block =>
                  exists result,
                    executeTool (use_name toolUse) (use_input toolUse) tools
                    = Returned result /\
                    block = tool_result_block (use_id toolUse) result)
               (toolUsesOf (yielded run)) results /\
       forall rounds calls config client systemPrompt,
         client calls (roundParams config tools systemPrompt st) = run ->
         agentLoop (S rounds) calls config client tools systemPrompt st =
         agentLoop rounds (S calls) config client tools systemPrompt st') /\
  (forall run tools st e,
     failure run = None -> fst (agentRound run tools st) <> Throw e).
Proof.
  split; [exact executeTool_returns|]. split; [|split].
  - intros pending tools st.
    destruct (executeToolUses_returns pending tools [] st)
      as (results & st' & Heq & Hall & _).
    exists results, st'. split; [exact Heq | exact Hall].
  - intros run tools st Hrun Huses.
    exists (tool_results (toolUsesOf (yielded run)) tools),
           (after_tools (yielded run) tools st).
    assert (Hround : agentRound run tools st
                     = (Continue, after_tools (yielded run) tools st)).
    { rewrite (agentRound_eq run tools st Hrun), executeToolUses_eq.
      destruct (toolUsesOf (yielded run)) as [|tu tus] eqn:E; [congruence|].
      cbn [length Z.of_nat Z.eqb app]. unfold after_tools. rewrite E.
      reflexivity. }
    split; [exact Hround|]. split; [|split].
    + apply after_tools_fields.
    + clear. induction (toolUsesOf (yielded run)) as [|tu tus IH];
        [constructor|].
      unfold tool_results in *. cbn [map]. constructor; [|exact IH].
      exists (toolOutput (use_name tu) (use_input tu) tools).
      split; [apply toolOutput_eq | reflexivity].
    + intros rounds calls config client systemPrompt Hclient.
      cbn [agentLoop]. fold (roundParams config tools systemPrompt st).
      cbv zeta. rewrite Hclient, Hround. reflexivity.
  - intros run tools st e Hrun. unfold agentRound.
    destruct (fold_left onEvent (yielded run) _) as [locals st1].
    rewrite Hrun.
    destruct (Z.of_nat (length (toolUses locals)) =? 0); [discriminate|].
    match goal with
    | |- context [executeToolUses ?p tools [] ?st2] =>
        destruct (executeToolUses_returns p tools [] st2)
          as (results & st' & -> & _)
    end.
    discriminate.
Qed.

Lemma tool_dispatch_never_raises_witness :
  let failTool :=
    {| definition := {| tool_name := "fail"; tool_description := "Always fails";
                        input_schema := JObj [("type", JStr "object")] |};
       execute := fun _ => Threw (ErrorObject "Something broke") |} in
  let run :=
    {| yielded := [ tool_use_event "tu1" "fail" (JObj []);
                    tool_use_event "tu2" "missing" (JObj []);
                    message_stop_event "tool_use" ];
       failure := None |} in
  let st :=
    {| session := {| session_id := "s"; session_messages := [];
                     session_filePath := "s.jsonl" |};
       world := {| home := ""; files := ∅; clock := fun _ => 0;
                   uuids := fun _ => ""; ticks := 0 |};
       emitted := []; dispatched := [] |} in
  executeTool "fail" (JObj []) [failTool]
  = Returned ("Error executing tool " +:+ quoted "fail" +:+ ": Something broke") /\
  fst (agentRound run [failTool] st) = Continue /\
  session_messages (session (snd (agentRound run [failTool] st))) =
    [ {| role := assistant;
         content := Blocks [ tool_use_block "tu1" "fail" (JObj []);
                             tool_use_block "tu2" "missing" (JObj []) ] |};
      {| role := user;
         content :=
           Blocks [ tool_result_block "tu1"
                      ("Error executing tool " +:+ quoted "fail"
                       +:+ ": Something broke");
                    tool_result_block "tu2"
                      ("Error: Unknown tool " +:+ quoted "missing") ] |} ].
Proof.
  intros failTool run st.
  destruct tool_dispatch_never_raises as (Hexec & _ & Hround & _).
  split.
  - destruct (Hexec "fail" (JObj []) [failTool]) as (result & Heq & Hres).
    simpl in Hres. rewrite Heq, Hres. reflexivity.
  - destruct (Hround run [failTool] st eq_refl)
      as (results & st' & Heq & Hmsgs & Hall & _); [discriminate|].
    rewrite Heq. cbn [fst snd]. split; [reflexivity|].
    rewrite Hmsgs. cbn [session_messages session app].
    change (toolUsesOf (yielded run))
      with [ {| use_id := "tu1"; use_name := "fail"; use_input := JObj [] |};
             {| use_id := "tu2"; use_name := "missing"; use_input := JObj [] |} ]
      in Hall.
    inversion Hall as [|tu1 b1 l1 l1' (r1 & Hr1 & ->) Hall1]; subst.
    inversion Hall1 as [|tu2 b2 l2 l2' (r2 & Hr2 & ->) Hall2]; subst.
    inversion Hall2; subst.
    cbn in Hr1, Hr2. injection Hr1 as <-. injection Hr2 as <-.
    reflexivity.
Defined.

(** What the loop adds to the transcript. *)
Lemma agentLoop_paired (rounds : nat) (config : SlimClawConfig)
    (client : LLMClient) (tools : list Tool) (systemPrompt : string) :
  forall calls st,
    let st' := snd (agentLoop rounds calls config client tools systemPrompt st) in
    exists added,
      session_messages (session st') = session_messages (session st) ++ added /\
      session_id (session st') = session_id (session st) /\
      session_filePath (session st') = session_filePath (session st) /\
      rounds_paired added.
Proof.
  induction rounds as [|rounds IH]; intros calls st.
  - exists []. simpl. rewrite app_nil_r. auto.
  - cbv zeta. rewrite agentLoop_S. cbv zeta.
    set (run := client calls (roundParams config tools systemPrompt st)).
    destruct (failure run) as [e|].
    + exists []. simpl. rewrite app_nil_r. auto.
    + destruct (toolUsesOf (yielded run)) as [|tu tus] eqn:Huses.
      * exists [ {| role := assistant;
                    content := assistantContent (textOf (yielded run))
                                 (toolUsesOf (yielded run)) |} ].
        cbn [snd]. repeat split.
        simpl. rewrite tool_use_ids_assistantContent, Huses. reflexivity.
      * destruct (IH (S calls) (after_tools (yielded run) tools st))
          as (added & Hm & Hid & Hpath & Hp).
        destruct (after_tools_fields (yielded run) tools st)
          as (Hm1 & Hid1 & Hpath1 & _).
        exists ({| role := assistant;
                   content := assistantContent (textOf (yielded run))
                                (toolUsesOf (yielded run)) |}
                :: {| role := user;
                      content := Blocks (tool_results (toolUsesOf (yielded run))
                                           tools) |}
                :: added).
        rewrite Hm, Hid, Hpath, Hm1, Hid1, Hpath1, <- app_assoc.
        repeat split; auto.
        -- cbn [content]. rewrite tool_use_ids_assistantContent, Huses.
           discriminate.
        -- cbn [content]. eexists. split; [reflexivity|].
           rewrite tool_use_ids_assistantContent.
           apply answered_ids_tool_results.
Qed.

(** X5. A turn whose events are all taken by its caller only appends to
    the transcript, whatever the client answers: when the turn has returned,
    has failed with the exception of the client, or has been through any
    number of whole rounds, the transcript holds first the user message, then
    the messages of the rounds, in which every assistant message that
    requests tools is followed at once by a user message holding one
    tool_result per request, with the ids of the requests in their order, and
    an assistant message that requests none is the last one. The id and the
    file of the session stay the same. (A caller that drops the turn at a
    tool_start or tool_end event stops it inside a round, after the assistant
    message and before the tool results: that is not a state of
    [agentTurn] here.) *)
Theorem agentTurn_pairs_tool_results (rounds : nat) (s0 : Session)
    (userMessage : string) (config : SlimClawConfig) (client : LLMClient)
    (tools : list Tool) (skills : list Skill) (memoryContext : string)
    (w : World) :
  let st' := snd (agentTurn rounds s0 userMessage config client tools skills
                    memoryContext w) in
  exists added,
    session_messages (session st') =
      session_messages s0
      ++ {| role := user; content := Str userMessage |} :: added /\
    session_id (session st') = session_id s0 /\
    session_filePath (session st') = session_filePath s0 /\
    rounds_paired added.
Proof.
  cbv zeta. unfold agentTurn.
  match goal with
  | |- context [agentLoop rounds 0 config client tools ?sp ?st] =>
      destruct (agentLoop_paired rounds config client tools sp 0 st)
        as (added & Hm & Hid & Hpath & Hp)
  end.
  exists added. rewrite Hm, Hid, Hpath.
  repeat split; auto. simpl. now rewrite <- app_assoc.
Qed.







(** X7. When the first call of the client fails, the turn fails with the
    exception of that call. The user message is then already appended, in
    memory and in the file of the session, no assistant message is added for
    the interrupted answer, the text events that came before the failure have
    been passed on, and no tool has run. *)
Theorem agentTurn_stream_failure (rounds : nat) (s0 : Session)
    (userMessage : string) (config : SlimClawConfig) (client : LLMClient)
    (tools : list Tool) (skills : list Skill) (memoryContext : string)
    (w : World) (e : thrown) :
  let asked := {| role := user; content := Str userMessage |} in
  let first :=
    client 0%nat
      {| params_model := model config;
         params_system := buildSystemPrompt config skills memoryContext;
         params_messages :=
           prepareContext (session_messages s0 ++ [asked]) (contextConfig config);
         params_tools := map definition tools;
         params_max_tokens := maxTokens config |} in
  failure first = Some e ->
  agentTurn (S rounds) s0 userMessage config client tools skills memoryContext w
  = (Failed e,
     {| session := fst (appendMessage s0 asked w);
        world := snd (appendMessage s0 asked w);
        emitted := text_events (yielded first);
        dispatched := [] |}).
Proof.
  intros asked first Hfail. unfold agentTurn. rewrite agentLoop_S.
  cbv zeta. unfold roundParams.
  change (session_messages
            (session (append {| role := user; content := Str userMessage |}
                        {| session := s0; world := w; emitted := [];
                           dispatched := [] |})))
    with (session_messages s0 ++ [asked]).
  fold asked. fold first. rewrite Hfail. reflexivity.
Qed.

Lemma agentTurn_stream_failure_witness :
  let client : LLMClient :=
    fun _ _ => {| yielded := [ text_event "Let me" ];
                  failure := Some (ErrorObject "overloaded") |} in
  let config :=
    {| provider := anthropic; model := "test-model"; maxTokens := 4096;
       systemPrompt := None; config_maxHistoryTurns := 50;
       config_maxToolResultChars := 100000 |} in
  let s0 := {| session_id := "t"; session_messages := [];
               session_filePath := "t.jsonl" |} in
  let w := {| home := ""; files := ∅; clock := fun _ => 0;
              uuids := fun _ => ""; ticks := 0 |} in
  let st := snd (agentTurn 1 s0 "Hi" config client [] [] "" w) in
  fst (agentTurn 1 s0 "Hi" config client [] [] "" w)
    = Failed (ErrorObject "overloaded") /\
  session_messages (session st) = [ {| role := user; content := Str "Hi" |} ] /\
  emitted st = [ text_event "Let me" ].
Proof.
  intros client config s0 w st. subst st.
  rewrite (agentTurn_stream_failure 0 s0 "Hi" config client [] [] "" w
             (ErrorObject "overloaded") eq_refl).
  repeat split.
Defined.

Lemma resolves_app (l1 l2 : list Message) (tid : string) :
  resolves (l1 ++ l2) tid <-> resolves l1 tid \/ resolves l2 tid.
Proof.
  induction l1 as [|m l1 IH]; cbn [app].
  - split; [auto | intros [H | H]; [now apply resolves_nil in H | exact H]].
  - rewrite !resolves_cons, IH. tauto.
Qed.

Lemma answered_ids_elem (blocks : list ContentBlock) (ids : list string)
    (tid c : string) :
  answered_ids blocks = Some ids -> tool_result_block tid c ∈ blocks ->
  tid ∈ ids.
Proof.
  revert ids. induction blocks as [|b blocks IH]; intros ids Hids Hin;
    [inversion Hin|].
  destruct b as [t | i n input | tid' c']; try discriminate.
  cbn [answered_ids] in Hids.
  destruct (answered_ids blocks) as [ids'|]; [|discriminate].
  injection Hids as <-.
  apply elem_of_cons in Hin as [[= -> ->] | Hin]; [constructor|].
  apply elem_of_cons. right. now apply IH.
Qed.

Lemma tool_use_ids_elem (c : Content) (tid : string) :
  tid ∈ tool_use_ids c ->
  exists blocks name input,
    c = Blocks blocks /\ tool_use_block tid name input ∈ blocks.
Proof.
  destruct c as [s | blocks]; cbn [tool_use_ids]; [intros H; inversion H|].
  intros H. exists blocks.
  induction blocks as [|b blocks IH]; [inversion H|].
  cbn [flat_map] in H. apply elem_of_app in H as [H | H].
  - destruct b as [t | i n input | tid' c']; try (now inversion H).
    apply list_elem_of_singleton in H. subst i.
    exists n, input. split; [reflexivity | constructor].
  - destruct (IH H) as (n & input & _ & Hin).
    exists n, input. split; [reflexivity|]. now constructor.
Qed.

Lemma pairs_induction (P : list Message -> Prop) :
  P [] -> (forall a, P [a]) ->
  (forall a u rest, P rest -> P (a :: u :: rest)) ->
  forall l, P l.
Proof.
  intros Hnil Hone Hpair l.
  assert (H : P l /\ forall x, P (x :: l)); [|exact (proj1 H)].
  induction l as [|y l [IH1 IH2]]; [auto|].
  split; [apply IH2|]. intros x. now apply Hpair.
Qed.

(** In what the rounds of a turn add, every tool_result of a user message
    answers a tool_use of the assistant message before it. *)
Lemma rounds_paired_resolve (added : list Message) :
  rounds_paired added -> user_results_resolve added.
Proof.
  induction added as [| a | a u rest IH] using pairs_induction.
  - intros _ m blocks Hm. inversion Hm.
  - intros [Ha _] m blocks Hm Hrole.
    apply list_elem_of_singleton in Hm. subst m. congruence.
  - intros (Ha & Hu & Hne & (blocks_u & Hcu & Hans) & Hrest).
    intros m blocks Hm Hrole Hcontent.
    apply elem_of_cons in Hm as [-> | Hm]; [congruence|].
    apply elem_of_cons in Hm as [-> | Hm].
    + rewrite Hcu in Hcontent. injection Hcontent as <-. split.
      * intros ->. cbn [answered_ids] in Hans. congruence.
      * intros tid c Hin.
        pose proof (answered_ids_elem _ _ _ _ Hans Hin) as Htid.
        apply tool_use_ids_elem in Htid as (bs & n & input & Hca & Hb).
        apply resolves_cons. left. split; [exact Ha|]. eauto.
    + destruct (IH Hrest m blocks Hm Hrole Hcontent) as [Hblocks Hres].
      split; [exact Hblocks|]. intros tid c Hin.
      apply (resolves_app [a; u] rest). right. eauto.
Qed.

(** X10. A turn keeps the transcript closed. When every tool_result of a user
    message of the session refers to a tool_use of the session and no user
    message has an empty list of blocks, the same holds after [agentTurn],
    whatever the client answers and however the turn ends: the cleanup of
    the context preparer never has to remove anything that a turn wrote. *)
Theorem agentTurn_keeps_results_resolved (rounds : nat) (s0 : Session)
    (userMessage : string) (config : SlimClawConfig) (client : LLMClient)
    (tools : list Tool) (skills : list Skill) (memoryContext : string)
    (w : World) :
  user_results_resolve (session_messages s0) ->
  let st' := snd (agentTurn rounds s0 userMessage config client tools skills
                    memoryContext w) in
  user_results_resolve (session_messages (session st')) /\
  removeOrphanedToolResults (session_messages (session st'))
  = session_messages (session st').
Proof.
  intros Hold st'.
  assert (Hres : user_results_resolve (session_messages (session st'))).
  { unfold st', agentTurn. set (st0 := append _ _).
    destruct (agentLoop_paired rounds config client tools
                (buildSystemPrompt config skills memoryContext) 0 st0)
      as (added & Hm & _ & _ & Hp).
    cbv zeta in Hm. rewrite Hm.
    change (session_messages (session st0))
      with (session_messages s0
            ++ [ {| role := user; content := Str userMessage |} ]).
    intros m blocks Hin Hrole Hcontent.
    apply elem_of_app in Hin as [Hin | Hin];
      [apply elem_of_app in Hin as [Hin | Hin]|].
    - destruct (Hold m blocks Hin Hrole Hcontent) as [Hne Hr].
      split; [exact Hne|]. intros tid c Hb.
      apply resolves_app. left. apply resolves_app. left. eauto.
    - apply list_elem_of_singleton in Hin. subst m. discriminate.
    - destruct (rounds_paired_resolve added Hp m blocks Hin Hrole Hcontent)
        as [Hne Hr].
      split; [exact Hne|]. intros tid c Hb.
      apply resolves_app. right. eauto. }
  split; [exact Hres|]. now apply removeOrphanedToolResults_resolved.
Qed.

Lemma agentTurn_keeps_results_resolved_witness :
  let echoTool :=
    {| definition := {| tool_name := "echo"; tool_description := "Test tool: echo";
                        input_schema := JObj [("type", JStr "object")] |};
       execute := fun input =>
                    match input with
                    | JObj [(_, JStr msg)] => Returned ("Echo: " +:+ msg)
                    | _ => Returned "Echo: undefined"
                    end |} in
  let client : LLMClient :=
    fun n _ =>
      match n with
      | O => {| yielded := [ tool_use_event "tu1" "echo" (JObj [("msg", JStr "hello")]);
                             message_stop_event "tool_use" ];
                failure := None |}
      | _ => {| yielded := [ text_event "Done echoing.";
                             message_stop_event "end_turn" ];
                failure := None |}
      end in
  let config :=
    {| provider := anthropic; model := "test-model"; maxTokens := 4096;
       systemPrompt := None; config_maxHistoryTurns := 50;
       config_maxToolResultChars := 100000 |} in
  let s0 := {| session_id := "t"; session_messages := [];
               session_filePath := "t.jsonl" |} in
  let w := {| home := ""; files := ∅; clock := fun _ => 0;
              uuids := fun _ => ""; ticks := 0 |} in
  let transcript :=
    session_messages
      (session (snd (agentTurn 2 s0 "Echo hello" config client [echoTool] [] ""
                       w))) in
  removeOrphanedToolResults transcript = transcript.
Proof.
  intros echoTool client config s0 w transcript.
  apply (agentTurn_keeps_results_resolved 2 s0 "Echo hello" config client
           [echoTool] [] "" w).
  intros m blocks Hm. inversion Hm.
Defined.

Lemma agentLoop_asks (rounds : nat) (config : SlimClawConfig)
    (client client' : LLMClient) (tools : list Tool) (systemPrompt : string)
    (base : list Message) :
  (forall n params,
     asks_for config tools systemPrompt base params ->
     client' n params = client n params) ->
  forall calls st later,
    session_messages (session st) = base ++ later ->
    agentLoop rounds calls config client' tools systemPrompt st
    = agentLoop rounds calls config client tools systemPrompt st.
Proof.
  intros Hsame. induction rounds as [|rounds IH]; intros calls st later Hst;
    [reflexivity|].
  rewrite !agentLoop_S. cbv zeta.
  rewrite (Hsame calls (roundParams config tools systemPrompt st)).
  - destruct (failure _); [reflexivity|].
    destruct (toolUsesOf _) as [|tu tus]; [reflexivity|].
    match goal with
    | |- context [after_tools ?events tools st] =>
        destruct (after_tools_fields events tools st) as (Hm & _);
        apply (IH (S calls) (after_tools events tools st)
                 (later ++ [ {| role := assistant;
                                content := assistantContent (textOf events)
                                             (toolUsesOf events) |};
                             {| role := user;
                                content := Blocks (tool_results
                                                     (toolUsesOf events) tools) |} ]))
    end.
    rewrite Hm, Hst. now rewrite <- app_assoc.
  - unfold asks_for, roundParams. cbn. repeat split.
    exists later. now rewrite Hst.
Qed.

(** X11. A turn asks the client for prepared contexts only. Every call of
    [client.stream] that [agentTurn] makes carries the model and the token
    limit of the configuration, the system prompt built for the turn, the
    definitions of the turn's tools, and as messages what [prepareContext]
    makes of a transcript that starts with the session's messages and the
    new user message: a client that behaves differently on any other
    parameters gives the same turn. *)
Theorem agentTurn_asks_with_prepared_context (rounds : nat) (s0 : Session)
    (userMessage : string) (config : SlimClawConfig)
    (client client' : LLMClient) (tools : list Tool) (skills : list Skill)
    (memoryContext : string) (w : World) :
  (forall n params,
     asks_for config tools (buildSystemPrompt config skills memoryContext)
       (session_messages s0 ++ [ {| role := user; content := Str userMessage |} ])
       params ->
     client' n params = client n params) ->
  agentTurn rounds s0 userMessage config client' tools skills memoryContext w
  = agentTurn rounds s0 userMessage config client tools skills memoryContext w.
Proof.
  intros Hsame. unfold agentTurn.
  apply (agentLoop_asks rounds config client client' tools _ _ Hsame 0 _ []).
  now rewrite app_nil_r.
Qed.

Lemma agentTurn_asks_with_prepared_context_witness :
  let answer := {| yielded := [ text_event "Hello." ]; failure := None |} in
  let client : LLMClient := fun _ _ => answer in
  let client' : LLMClient :=
    fun _ params =>
      if String.eqb (params_model params) "test-model" then answer
      else {| yielded := []; failure := Some (ErrorObject "wrong model") |} in
  let config :=
    {| provider := anthropic; model := "test-model"; maxTokens := 4096;
       systemPrompt := None; config_maxHistoryTurns := 50;
       config_maxToolResultChars := 100000 |} in
  let s0 := {| session_id := "t"; session_messages := [];
               session_filePath := "t.jsonl" |} in
  let w := {| home := ""; files := ∅; clock := fun _ => 0;
              uuids := fun _ => ""; ticks := 0 |} in
  agentTurn 3 s0 "Hi" config client' [] [] "" w
  = agentTurn 3 s0 "Hi" config client [] [] "" w.
Proof.
  intros answer client client' config s0 w.
  apply (agentTurn_asks_with_prepared_context 3 s0 "Hi" config client client'
           [] [] "" w).
  intros n params (Hmodel & _). unfold client'. rewrite Hmodel. reflexivity.
Defined.

(* ===================================================================== *)
(** * The provider adapters: what they assemble                            *)
(* ===================================================================== *)

Lemma toolCalls_fold_onChunk (chunks : list OpenAIChunk) (st : OpenAIState) :
  toolCalls (fold_left onChunk chunks st) =
  fold_left bufferToolCall (flat_map chunk_tool_calls chunks) (toolCalls st).
Proof.
  revert st. induction chunks as [|chunk chunks IH]; intros st; [reflexivity|].
  cbn [fold_left flat_map]. rewrite IH, fold_left_app. f_equal.
  unfold onChunk, chunk_tool_calls.
  destruct (head (choices chunk)) as [choice|]; [|reflexivity].
  destruct (choice_delta choice) as [delta|]; [|reflexivity].
  cbn [toolCalls]. destruct (delta_tool_calls delta); reflexivity.
Qed.

Lemma yielded_text_fold_onChunk (chunks : list OpenAIChunk) (st : OpenAIState) :
  yielded_text (fold_left onChunk chunks st) =
  yielded_text st ++ map text_event (flat_map chunk_text chunks).
Proof.
  revert st. induction chunks as [|chunk chunks IH]; intros st.
  - simpl. now rewrite app_nil_r.
  - cbn [fold_left flat_map]. rewrite IH, map_app, app_assoc. f_equal.
    unfold onChunk, chunk_text.
    destruct (head (choices chunk)) as [choice|]; [|now rewrite app_nil_r].
    destruct (choice_delta choice) as [delta|]; [|now rewrite app_nil_r].
    cbn [yielded_text].
    destruct (truthy (delta_content delta)); [reflexivity|].
    now rewrite app_nil_r.
Qed.

Lemma first_seen_snoc (keys : list Z) (k : Z) :
  first_seen (keys ++ [k]) =
  if existsb (Z.eqb k) (first_seen keys) then first_seen keys
  else first_seen keys ++ [k].
Proof. unfold first_seen. now rewrite fold_left_app. Qed.

Lemma existsb_first_seen (keys : list Z) (k : Z) :
  existsb (Z.eqb k) (first_seen keys) = existsb (Z.eqb k) keys.
Proof.
  induction keys as [|x keys IH] using rev_ind; [reflexivity|].
  rewrite first_seen_snoc, existsb_app. cbn [existsb]. rewrite orb_false_r.
  destruct (existsb (Z.eqb x) (first_seen keys)) eqn:E.
  - rewrite IH. destruct (Z.eqb_spec k x) as [->|]; [|now rewrite orb_false_r].
    rewrite <- IH, E. reflexivity.
  - rewrite existsb_app, IH. cbn [existsb]. now rewrite orb_false_r.
Qed.

Lemma NoDup_first_seen (keys : list Z) : NoDup (first_seen keys).
Proof.
  induction keys as [|x keys IH] using rev_ind; [constructor|].
  rewrite first_seen_snoc.
  destruct (existsb (Z.eqb x) (first_seen keys)) eqn:E; [exact IH|].
  apply (proj2 (NoDup_app (first_seen keys) [x])).
  split; [exact IH|]. split; [|apply NoDup_singleton].
  intros y Hy Hin. apply list_elem_of_singleton in Hin. subst y.
  assert (existsb (Z.eqb x) (first_seen keys) = true) as Ht; [|congruence].
  apply existsb_exists. exists x.
  split; [now apply list_elem_of_In | apply Z.eqb_refl].
Qed.

Lemma map_has_keys (f : Z -> ToolCallBuffer) (keys : list Z) (k : Z) :
  map_has (map (fun k' => (k', f k')) keys) k = existsb (Z.eqb k) keys.
Proof.
  induction keys as [|x keys IH]; [reflexivity|].
  cbn [map map_has existsb]. now rewrite IH, (Z.eqb_sym x k).
Qed.

Lemma map_update_absent (m : list (Z * ToolCallBuffer)) (k : Z)
    (f : ToolCallBuffer -> ToolCallBuffer) :
  map_has m k = false -> map_update m k f = m.
Proof.
  induction m as [|[k' b] m IH]; [reflexivity|].
  cbn [map_has map_update]. intros H. apply orb_false_elim in H as [Hk Hm].
  now rewrite Hk, IH.
Qed.

Lemma map_update_snoc (m : list (Z * ToolCallBuffer)) (k : Z)
    (b : ToolCallBuffer) (f : ToolCallBuffer -> ToolCallBuffer) :
  map_has m k = false -> map_update (m ++ [(k, b)]) k f = m ++ [(k, f b)].
Proof.
  induction m as [|[k' b'] m IH]; intros H.
  - cbn [app map_update]. now rewrite Z.eqb_refl.
  - cbn [map_has] in H. apply orb_false_elim in H as [Hk Hm].
    cbn [app map_update]. now rewrite Hk, IH.
Qed.

(** On a map with distinct keys, updating the entry of [k] is updating every
    entry whose key is [k]. *)
Lemma map_update_keys (g h : Z -> ToolCallBuffer) (keys : list Z) (k : Z)
    (f : ToolCallBuffer -> ToolCallBuffer) :
  NoDup keys ->
  (forall k', k' <> k -> h k' = g k') -> h k = f (g k) ->
  existsb (Z.eqb k) keys = true ->
  map_update (map (fun k' => (k', g k')) keys) k f
  = map (fun k' => (k', h k')) keys.
Proof.
  intros Hnd Hother Hk. induction Hnd as [|x keys Hx Hnd IH]; [discriminate|].
  cbn [map map_update existsb]. rewrite (Z.eqb_sym k x).
  destruct (Z.eqb_spec x k) as [-> | Hne].
  - intros _. rewrite Hk. f_equal.
    apply map_ext_in. intros k' Hin. rewrite Hother; [reflexivity|].
    intros ->. apply Hx. now apply list_elem_of_In.
  - cbn [orb]. intros Hin. rewrite (Hother x Hne), IH by assumption.
    reflexivity.
Qed.

Lemma last_truthy_snoc (l : list (option string)) (o : option string) :
  last_truthy (l ++ [o]) = if truthy o then default "" o else last_truthy l.
Proof. unfold last_truthy. now rewrite fold_left_app. Qed.

Lemma joined_snoc (l : list (option string)) (o : option string) :
  joined (l ++ [o]) = if truthy o then joined l +:+ default "" o else joined l.
Proof. unfold joined. now rewrite fold_left_app. Qed.

Lemma default_not_truthy (o : option string) :
  truthy o = false -> default "" o = "".
Proof. destruct o as [[|c s]|]; [reflexivity | discriminate | reflexivity]. Qed.

Lemma deltas_at_snoc (k : Z) (deltas : list OpenAIToolCallDelta)
    (tc : OpenAIToolCallDelta) :
  deltas_at k (deltas ++ [tc]) =
  if call_index tc =? k then deltas_at k deltas ++ [tc] else deltas_at k deltas.
Proof.
  unfold deltas_at. rewrite List.filter_app. cbn [List.filter].
  destruct (call_index tc =? k); [reflexivity | apply app_nil_r].
Qed.

Lemma deltas_at_absent (k : Z) (deltas : list OpenAIToolCallDelta) :
  existsb (Z.eqb k) (map call_index deltas) = false -> deltas_at k deltas = [].
Proof.
  induction deltas as [|tc deltas IH]; [reflexivity|].
  cbn [map existsb]. intros H. apply orb_false_elim in H as [Hk Hrest].
  unfold deltas_at in *. cbn [List.filter].
  now rewrite (Z.eqb_sym (call_index tc) k), Hk, IH.
Qed.

(** What one more delta does to the assembled entry of its index. *)
Lemma assembled_at_snoc (deltas : list OpenAIToolCallDelta)
    (tc : OpenAIToolCallDelta) :
  assembled_at (call_index tc) (deltas ++ [tc]) =
  let existing := assembled_at (call_index tc) deltas in
  let existing :=
    if truthy (call_id tc)
    then {| buffer_id := default "" (call_id tc);
            buffer_name := buffer_name existing;
            buffer_args := buffer_args existing |}
    else existing in
  let existing :=
    if truthy (delta_name tc)
    then {| buffer_id := buffer_id existing;
            buffer_name := default "" (delta_name tc);
            buffer_args := buffer_args existing |}
    else existing in
  if truthy (delta_arguments tc)
  then {| buffer_id := buffer_id existing;
          buffer_name := buffer_name existing;
          buffer_args := buffer_args existing +:+ default "" (delta_arguments tc) |}
  else existing.
Proof.
  unfold assembled_at. rewrite deltas_at_snoc, Z.eqb_refl, !map_app.
  cbn [map]. rewrite !last_truthy_snoc, joined_snoc. cbv zeta.
  destruct (truthy (call_id tc)), (truthy (delta_name tc)),
    (truthy (delta_arguments tc)); reflexivity.
Qed.

(** The loop over the tool-call deltas builds the assembled map. *)
Lemma fold_bufferToolCall (deltas : list OpenAIToolCallDelta) :
  fold_left bufferToolCall deltas [] = assembled deltas.
Proof.
  induction deltas as [|tc deltas IH] using rev_ind; [reflexivity|].
  rewrite fold_left_app. cbn [fold_left]. rewrite IH. clear IH.
  unfold bufferToolCall, assembled.
  fold (delta_name tc). fold (delta_arguments tc).
  rewrite map_has_keys, existsb_first_seen, map_app. cbn [map].
  rewrite first_seen_snoc, existsb_first_seen.
  set (k := call_index tc).
  pose proof (assembled_at_snoc deltas tc) as Hstep. fold k in Hstep.
  cbv zeta in Hstep.
  destruct (existsb (Z.eqb k) (map call_index deltas)) eqn:Hseen.
  - apply map_update_keys.
    + apply NoDup_first_seen.
    + intros k' Hne. unfold assembled_at.
      rewrite deltas_at_snoc. fold k.
      destruct (Z.eqb_spec k k'); [congruence | reflexivity].
    + exact Hstep.
    + now rewrite existsb_first_seen.
  - rewrite map_app. cbn [map].
    rewrite map_update_snoc
      by now rewrite map_has_keys, existsb_first_seen.
    f_equal.
    + apply map_ext_in. intros k' Hin. f_equal. unfold assembled_at.
      rewrite deltas_at_snoc. fold k.
      destruct (Z.eqb_spec k k') as [<- | Hne]; [|reflexivity].
      exfalso.
      assert (existsb (Z.eqb k) (first_seen (map call_index deltas)) = true)
        as Ht by (apply existsb_exists; exists k; split;
                  [exact Hin | apply Z.eqb_refl]).
      rewrite existsb_first_seen in Ht. congruence.
    + f_equal. f_equal. rewrite Hstep. unfold assembled_at.
      rewrite (deltas_at_absent k deltas Hseen). cbn [map].
      change (last_truthy []) with "". change (joined []) with "".
      destruct (truthy (call_id tc)) eqn:Hid,
        (truthy (delta_name tc)) eqn:Hname,
        (truthy (delta_arguments tc)); cbn;
        rewrite ?(default_not_truthy _ Hid), ?(default_not_truthy _ Hname);
        reflexivity.
Qed.

Lemma toolUsesOf_app (l1 l2 : list StreamEvent) :
  toolUsesOf (l1 ++ l2) = toolUsesOf l1 ++ toolUsesOf l2.
Proof. apply flat_map_app. Qed.

Lemma toolUsesOf_texts (texts : list string) :
  toolUsesOf (map text_event texts) = [].
Proof. induction texts as [|t l IH]; [reflexivity | exact IH]. Qed.

Lemma toolUsesOf_tool_uses {X : Type} (i n : X -> string) (inp : X -> json)
    (l : list X) :
  toolUsesOf (map (fun x => tool_use_event (i x) (n x) (inp x)) l)
  = map (fun x => {| use_id := i x; use_name := n x; use_input := inp x |}) l.
Proof.
  induction l as [|x l IH]; [reflexivity|].
  unfold toolUsesOf in *. cbn [map flat_map app]. now rewrite IH.
Qed.

(** The events of the delta-accumulate adapter, written out. *)
Lemma OpenAIClient_stream_eq (chunks : list OpenAIChunk) :
  exists reason,
    OpenAIClient_stream chunks =
    map text_event (flat_map chunk_text chunks)
    ++ map (fun entry =>
              tool_use_event (buffer_id (snd entry)) (buffer_name (snd entry))
                (parsed_input (buffer_args (snd entry))))
         (assembled (flat_map chunk_tool_calls chunks))
    ++ [message_stop_event reason].
Proof.
  unfold OpenAIClient_stream.
  set (st := fold_left onChunk chunks _).
  exists (stopReason st).
  unfold st. rewrite yielded_text_fold_onChunk, toolCalls_fold_onChunk.
  cbn [yielded_text toolCalls app]. rewrite fold_bufferToolCall.
  f_equal. f_equal. apply map_ext. intros [k tc]. reflexivity.
Qed.

(** X12. The delta-accumulate adapter puts tool calls together by index. It
    yields one tool_use event for each distinct index of the tool-call deltas
    of the stream, in the order in which the indices first appear; the id and
    the name of the event are the last non-empty ones given for that index;
    and its input is what [JSON.parse] makes of all the non-empty argument
    fragments of that index, concatenated in arrival order, or the empty
    object when that text does not parse. *)
Theorem OpenAIClient_stream_assembles (chunks : list OpenAIChunk) :
  toolUsesOf (OpenAIClient_stream chunks) =
  map (fun k =>
         let deltas := deltas_at k (flat_map chunk_tool_calls chunks) in
         {| use_id := last_truthy (map call_id deltas);
            use_name := last_truthy (map delta_name deltas);
            use_input := parsed_input (joined (map delta_arguments deltas)) |})
      (first_seen (map call_index (flat_map chunk_tool_calls chunks))).
Proof.
  destruct (OpenAIClient_stream_eq chunks) as [reason ->].
  rewrite !toolUsesOf_app, toolUsesOf_texts.
  change (toolUsesOf [message_stop_event reason]) with (@nil ToolUse).
  rewrite app_nil_r. cbn [app]. unfold assembled.
  rewrite toolUsesOf_tool_uses, map_map. reflexivity.
Qed.

(** X13. The delta-accumulate adapter yields the text first. Whatever the
    order in which text and tool-call deltas arrive, its events are: one text
    event for every chunk whose delta has non-empty content, in arrival
    order; then the tool_use events; then the terminal event. A chunk without
    choices, or whose first choice has no delta, adds nothing. *)
Theorem OpenAIClient_stream_order (chunks : list OpenAIChunk) :
  exists reason,
    OpenAIClient_stream chunks =
    map text_event (flat_map chunk_text chunks)
    ++ map (fun tu => tool_use_event (use_id tu) (use_name tu) (use_input tu))
         (toolUsesOf (OpenAIClient_stream chunks))
    ++ [message_stop_event reason].
Proof.
  destruct (OpenAIClient_stream_eq chunks) as [reason Heq].
  exists reason. rewrite Heq at 1. f_equal. f_equal.
  rewrite Heq, !toolUsesOf_app, toolUsesOf_texts.
  change (toolUsesOf [message_stop_event reason]) with (@nil ToolUse).
  rewrite app_nil_r. cbn [app].
  rewrite toolUsesOf_tool_uses, map_map. reflexivity.
Qed.

Lemma joined_Some (fragments : list string) (acc : string) :
  fold_left (fun acc o => if truthy o then acc +:+ default "" o else acc)
    (map Some fragments) acc
  = acc +:+ String.concat "" fragments.
Proof.
  revert acc. induction fragments as [|f l IH]; intros acc.
  - simpl. now rewrite append_empty_r.
  - cbn [map fold_left]. rewrite IH.
    assert (Hc : String.concat "" (f :: l) = f +:+ String.concat "" l).
    { destruct l; [now rewrite append_empty_r | reflexivity]. }
    rewrite Hc. destruct f as [|c f]; [reflexivity|].
    cbn [truthy default]. now rewrite append_assoc.
Qed.

(** X14. Arguments survive the trip through the stream. When the text that
    [JSON.stringify] writes for a tool input is cut into fragments in any way
    and the fragments arrive one chunk each under one index, the first chunk
    naming the id and the tool, the adapter yields exactly one tool_use
    event, with that id, that name and that input. *)
Theorem OpenAIClient_stream_arguments_roundtrip (id name : string)
    (input : json) (first : string) (rest : list string) :
  JSON.well_formed input ->
  String.concat "" (first :: rest) = JSON.stringify input ->
  toolUsesOf
    (OpenAIClient_stream
       (argument_chunk 0 (Some id) (Some name) first
        :: map (argument_chunk 0 None None) rest))
  = [ {| use_id := id; use_name := name; use_input := input |} ].
Proof.
  intros Hwf Hcut.
  destruct (OpenAIClient_stream_eq
              (argument_chunk 0 (Some id) (Some name) first
               :: map (argument_chunk 0 None None) rest)) as [reason ->].
  rewrite !toolUsesOf_app, toolUsesOf_texts.
  change (toolUsesOf [message_stop_event reason]) with (@nil ToolUse).
  rewrite app_nil_r. cbn [app]. rewrite toolUsesOf_tool_uses.
  set (deltas := flat_map chunk_tool_calls _).
  assert (Hdeltas : deltas =
            {| call_index := 0; call_id := Some id;
               call_function := Some {| function_name := Some name;
                                        function_arguments := Some first |} |}
            :: map (fun fragment =>
                      {| call_index := 0; call_id := None;
                         call_function :=
                           Some {| function_name := None;
                                   function_arguments := Some fragment |} |})
                 rest).
  { unfold deltas. cbn [flat_map argument_chunk chunk_tool_calls choices head
                        choice_delta delta_tool_calls default app].
    f_equal. clear. induction rest as [|f l IH]; [reflexivity|].
    cbn [map flat_map]. rewrite IH. reflexivity. }
  assert (Hkeys : first_seen (map call_index deltas) = [0]).
  { rewrite Hdeltas. cbn [map]. unfold first_seen. cbn [fold_left existsb app].
    clear. induction rest as [|f l IH]; [reflexivity|]. exact IH. }
  assert (Hat : deltas_at 0 deltas = deltas).
  { rewrite Hdeltas. unfold deltas_at. cbn [List.filter call_index Z.eqb].
    f_equal. clear. induction rest as [|f l IH]; [reflexivity|].
    cbn [map List.filter call_index Z.eqb]. now rewrite IH. }
  unfold assembled. rewrite Hkeys. cbn [map]. unfold assembled_at.
  rewrite Hat.
  assert (Hid : last_truthy (map call_id deltas) = id).
  { rewrite Hdeltas. unfold last_truthy. cbn [map fold_left call_id].
    assert (Hrest : forall acc,
              fold_left (fun acc o => if truthy o then default "" o else acc)
                (map call_id
                   (map (fun fragment =>
                           {| call_index := 0; call_id := None;
                              call_function :=
                                Some {| function_name := None;
                                        function_arguments := Some fragment |} |})
                      rest)) acc = acc).
    { clear. induction rest as [|f l IH]; intros acc; [reflexivity|]. apply IH. }
    rewrite Hrest. destruct id; reflexivity. }
  assert (Hname : last_truthy (map delta_name deltas) = name).
  { rewrite Hdeltas. unfold last_truthy. cbn [map fold_left delta_name
                                               call_function function_name].
    assert (Hrest : forall acc,
              fold_left (fun acc o => if truthy o then default "" o else acc)
                (map delta_name
                   (map (fun fragment =>
                           {| call_index := 0; call_id := None;
                              call_function :=
                                Some {| function_name := None;
                                        function_arguments := Some fragment |} |})
                      rest)) acc = acc).
    { clear. induction rest as [|f l IH]; intros acc; [reflexivity|]. apply IH. }
    rewrite Hrest. destruct name; reflexivity. }
  assert (Hargs : joined (map delta_arguments deltas) = JSON.stringify input).
  { rewrite <- Hcut, Hdeltas. unfold joined.
    assert (Hmap : map delta_arguments
                     ({| call_index := 0; call_id := Some id;
                         call_function :=
                           Some {| function_name := Some name;
                                   function_arguments := Some first |} |}
                      :: map (fun fragment =>
                                {| call_index := 0; call_id := None;
                                   call_function :=
                                     Some {| function_name := None;
                                             function_arguments := Some fragment |} |})
                           rest)
                   = map Some (first :: rest)).
    { cbn [map delta_arguments call_function function_arguments]. f_equal.
      clear. induction rest as [|f l IH]; [reflexivity|].
      cbn [map]. now rewrite IH. }
    rewrite Hmap. apply joined_Some. }
  cbn [map snd buffer_id buffer_name buffer_args].
  rewrite Hid, Hname, Hargs. unfold parsed_input.
  now rewrite parse_stringify.
Qed.

Lemma OpenAIClient_stream_arguments_roundtrip_witness :
  toolUsesOf
    (OpenAIClient_stream
       [ argument_chunk 0 (Some "call_1") (Some "bash") "{";
         argument_chunk 0 None None (String JSON.dquote "command");
         argument_chunk 0 None None (String JSON.dquote ":");
         argument_chunk 0 None None (String JSON.dquote "ls");
         argument_chunk 0 None None (String JSON.dquote "}") ])
  = [ {| use_id := "call_1"; use_name := "bash";
         use_input := JObj [("command", JStr "ls")] |} ].
Proof.
  apply (OpenAIClient_stream_arguments_roundtrip "call_1" "bash"
           (JObj [("command", JStr "ls")]) "{"
           [ String JSON.dquote "command"; String JSON.dquote ":";
             String JSON.dquote "ls"; String JSON.dquote "}" ]).
  - apply (proj2 (well_formed_JObj _)). split.
    + cbn [map fst]. apply (bool_decide_unpack _). vm_compute. exact I.
    + repeat constructor.
  - vm_compute. reflexivity.
Defined.

Lemma textOf_texts (texts : list string) (rest : list StreamEvent) :
  textOf (map text_event texts ++ rest) = String.concat "" texts +:+ textOf rest.
Proof.
  induction texts as [|t l IH]; [reflexivity|].
  cbn [map app textOf]. rewrite IH.
  destruct l as [|t' l]; [reflexivity|].
  change (String.concat "" (t :: t' :: l))
    with (t +:+ "" +:+ String.concat "" (t' :: l)).
  now rewrite append_assoc.
Qed.

(** X16. What a round keeps of an answer of the block-native protocol. For an
    upstream response that did not fail, the assistant message that the round
    appends is made of the text deltas of the stream, concatenated in order,
    and of the tool_use blocks of the final message, in order: the text
    blocks of the final message and the streamed fragments of tool inputs are
    not used. The round ends the turn exactly when the final message holds no
    tool_use block. *)
Theorem anthropic_round_message (response : AnthropicResponse)
    (tools : list Tool) (st : TurnState) :
  let run := {| yielded := AnthropicClient_stream response; failure := None |} in
  let text := String.concat "" (text_deltas (upstream_events response)) in
  let uses := block_tool_uses (final_content response) in
  let reply := {| role := assistant; content := assistantContent text uses |} in
  (uses = [] ->
   fst (agentRound run tools st) = Break /\
   session_messages (session (snd (agentRound run tools st)))
   = session_messages (session st) ++ [reply]) /\
  (uses <> [] ->
   fst (agentRound run tools st) = Continue /\
   exists results,
     session_messages (session (snd (agentRound run tools st)))
     = session_messages (session st)
       ++ [reply; {| role := user; content := Blocks results |}]).
Proof.
  intros run text uses reply.
  assert (Htext : textOf (yielded run) = text).
  { unfold run, AnthropicClient_stream. cbn [yielded].
    assert (Hmap : forall events,
              flat_map (fun event =>
                          match event with
                          | content_block_delta (text_delta t) => [text_event t]
                          | _ => []
                          end) events
              = map text_event (text_deltas events)).
    { induction events as [|e l IH]; [reflexivity|].
      unfold text_deltas in *.
      destruct e as [[t | p |] |]; simpl; rewrite ?IH; reflexivity. }
    rewrite Hmap, textOf_texts.
    assert (Hnone : forall blocks,
              textOf (flat_map (fun block =>
                                  match block with
                                  | tool_use_block i n input =>
                                      [tool_use_event i n input]
                                  | _ => []
                                  end) blocks
                      ++ [message_stop_event
                            (default "end_turn" (final_stop_reason response))])
              = "").
    { induction blocks as [|b l IH]; [reflexivity|].
      destruct b as [t | i n input | tid c]; simpl; exact IH. }
    rewrite Hnone. apply append_empty_r. }
  assert (Huses : toolUsesOf (yielded run) = uses).
  { unfold run, AnthropicClient_stream. cbn [yielded].
    rewrite !toolUsesOf_app. cbn [toolUsesOf flat_map app].
    rewrite app_nil_r.
    assert (Hnone : forall events,
              toolUsesOf
                (flat_map (fun event =>
                             match event with
                             | content_block_delta (text_delta t) => [text_event t]
                             | _ => []
                             end) events) = []).
    { induction events as [|e l IH]; [reflexivity|].
      destruct e as [[t | p |] |]; simpl; exact IH. }
    rewrite Hnone. cbn [app]. unfold uses, block_tool_uses.
    induction (final_content response) as [|b l IH]; [reflexivity|].
    destruct b as [t | i n input | tid c]; simpl; rewrite ?IH; reflexivity. }
  rewrite (agentRound_eq run tools st eq_refl).
  unfold after_assistant. rewrite Htext, Huses. fold reply.
  split.
  - intros ->. split; reflexivity.
  - intros Hne. destruct uses as [|tu tus] eqn:E; [congruence|].
    cbn [length Z.of_nat Z.eqb].
    destruct (executeToolUses_returns (tu :: tus) tools []
                (append reply (after_events (yielded run) st)))
      as (results & st' & -> & _ & Hs & _).
    cbn [app fst snd]. split; [reflexivity|].
    exists results.
    change (Z.of_nat (S (length tus)) =? 0) with false. cbv iota. cbn [snd].
    destruct (append_fields {| role := user; content := Blocks results |} st')
      as (-> & _).
    rewrite Hs.
    destruct (append_fields reply (after_events (yielded run) st)) as (-> & _).
    cbn [after_events session]. now rewrite <- app_assoc.
Qed.

Lemma anthropic_round_message_witness :
  let response :=
    {| upstream_events :=
         [ content_block_delta (text_delta "Hel");
           content_block_delta (input_json_delta "{}");
           content_block_delta (text_delta "lo") ];
       final_content := [ text_block "ignored" ];
       final_stop_reason := None |} in
  let st := {| session := {| session_id := "t"; session_messages := [];
                             session_filePath := "t.jsonl" |};
               world := {| home := ""; files := ∅; clock := fun _ => 0;
                           uuids := fun _ => ""; ticks := 0 |};
               emitted := []; dispatched := [] |} in
  session_messages
    (session (snd (agentRound {| yielded := AnthropicClient_stream response;
                                 failure := None |} [] st)))
  = [ {| role := assistant; content := Str "Hello" |} ].
Proof.
  intros response st.
  exact (proj2 (proj1 (anthropic_round_message response [] st) eq_refl)).
Defined.

(* ===================================================================== *)
(** * The request of the delta-accumulate protocol                         *)
(* ===================================================================== *)

Lemma elem_of_flat_map {X Y : Type} (f : X -> list Y) (l : list X) (y : Y) :
  y ∈ flat_map f l <-> exists x, x ∈ l /\ y ∈ f x.
Proof.
  rewrite list_elem_of_In, in_flat_map. split.
  - intros (x & Hx & Hy). exists x. split; now apply list_elem_of_In.
  - intros (x & Hx & Hy). exists x. split; now apply list_elem_of_In.
Qed.

(** The tool results that stay in the user messages of a prepared context
    resolve there. *)
Lemma prepareContext_user_results (messages : list Message)
    (config : ContextConfig) (m : Message) (blocks : list ContentBlock)
    (tid c : string) :
  m ∈ prepareContext messages config -> role m = user ->
  content m = Blocks blocks -> tool_result_block tid c ∈ blocks ->
  resolves (prepareContext messages config) tid.
Proof.
  unfold prepareContext. set (stage2 := truncateToolResults _ _).
  intros Hm Hrole Hc Hb. unfold removeOrphanedToolResults in Hm.
  apply list_elem_of_omap in Hm as (m0 & _ & Hclean).
  destruct (cleanMessage_user_blocks _ _ _ blocks Hclean Hrole Hc) as [_ Hids].
  apply resolves_removeOrphanedToolResults, elem_of_collectToolUseIds.
  eapply Hids, Hb.
Qed.

Lemma called_ids_resolves (system : string) (messages : list Message)
    (tid : string) :
  resolves messages tid -> tid ∈ called_ids (openaiMessages system messages).
Proof.
  intros (m & blocks & n & input & Hm & Hrole & Hc & Hb).
  unfold called_ids, openaiMessages. cbn [flat_map app].
  apply elem_of_flat_map.
  set (toolCalls :=
         flat_map (fun b => match b with
                            | tool_use_block i n input =>
                                [ {| tool_call_id := i; tool_call_name := n;
                                     tool_call_arguments := JSON.stringify input |} ]
                            | _ => []
                            end) blocks).
  assert (Hcall : {| tool_call_id := tid; tool_call_name := n;
                     tool_call_arguments := JSON.stringify input |} ∈ toolCalls).
  { apply elem_of_flat_map. eexists. split; [exact Hb|]. constructor. }
  exists (assistant_message
            (if truthy
                  (Some (String.concat ""
                           (flat_map (fun b => match b with
                                               | text_block t => [t]
                                               | _ => []
                                               end) blocks)))
             then Some (String.concat ""
                          (flat_map (fun b => match b with
                                              | text_block t => [t]
                                              | _ => []
                                              end) blocks))
             else None)
            (Some toolCalls)).
  split.
  - apply elem_of_flat_map. exists m. split; [exact Hm|].
    unfold translateMessage. rewrite Hrole, Hc. fold toolCalls.
    destruct toolCalls as [|call calls]; [inversion Hcall|].
    constructor.
  - apply list_elem_of_In, in_map_iff. eexists. split; [|apply list_elem_of_In, Hcall].
    reflexivity.
Qed.

(** X17. The request built from a prepared context has no dangling tool
    message. Every message of role [tool] that [OpenAIClient.stream] sends for
    the context that [prepareContext] made answers, by its [tool_call_id], a
    tool call of an assistant message of the same request. *)
Theorem openaiMessages_tool_messages_resolve (system : string)
    (transcript : list Message) (config : ContextConfig)
    (tid body : string) :
  tool_message tid body
    ∈ openaiMessages system (prepareContext transcript config) ->
  tid ∈ called_ids (openaiMessages system (prepareContext transcript config)).
Proof.
  intros Hin. apply called_ids_resolves.
  unfold openaiMessages in Hin. apply elem_of_cons in Hin as [Hin | Hin];
    [discriminate|].
  apply elem_of_flat_map in Hin as (m & Hm & Hin).
  unfold translateMessage in Hin.
  destruct (role m) eqn:Hrole, (content m) as [s | blocks] eqn:Hc.
  - apply list_elem_of_singleton in Hin. discriminate.
  - apply elem_of_flat_map in Hin as (b & Hb & Hin).
    destruct b as [t | i n input | tid' c];
      try (now inversion Hin).
    apply list_elem_of_singleton in Hin. injection Hin as -> ->.
    eapply prepareContext_user_results; eauto.
  - apply list_elem_of_singleton in Hin. discriminate.
  - apply list_elem_of_singleton in Hin. discriminate.
Qed.

Lemma openaiMessages_tool_messages_resolve_witness :
  let config := {| maxHistoryTurns := 50; maxToolResultChars := 100000 |} in
  let call := {| role := assistant;
                 content := Blocks [ tool_use_block "tu_1" "bash" (JObj []) ] |} in
  let reply := {| role := user;
                  content := Blocks [ tool_result_block "tu_1" "valid";
                                      tool_result_block "orphan" "orphaned" ] |} in
  openaiMessages "You are SlimClaw." (prepareContext [call; reply] config)
  = [ system_message "You are SlimClaw.";
      assistant_message None
        (Some [ {| tool_call_id := "tu_1"; tool_call_name := "bash";
                   tool_call_arguments := "{}" |} ]);
      tool_message "tu_1" "valid" ] /\
  "tu_1" ∈ called_ids
             (openaiMessages "You are SlimClaw."
                (prepareContext [call; reply] config)).
Proof.
  intros config call reply.
  assert (Heq : openaiMessages "You are SlimClaw."
                  (prepareContext [call; reply] config)
                = [ system_message "You are SlimClaw.";
                    assistant_message None
                      (Some [ {| tool_call_id := "tu_1"; tool_call_name := "bash";
                                 tool_call_arguments := "{}" |} ]);
                    tool_message "tu_1" "valid" ])
    by (vm_compute; reflexivity).
  split; [exact Heq|].
  apply (openaiMessages_tool_messages_resolve "You are SlimClaw." [call; reply]
           config "tu_1" "valid").
  rewrite Heq. apply elem_of_cons. right. apply elem_of_cons. right. constructor.
Defined.

(** X18. The tool calls of the request read back as the tool_use blocks. An
    assistant message with blocks, whose tool inputs are JavaScript values,
    becomes one assistant message of the request; its tool calls are the
    tool_use blocks of the message, in order, with the same ids and names,
    and [JSON.parse] of the arguments of each call gives back the input of
    the block. *)
Theorem translateMessage_tool_calls (blocks : list ContentBlock) :
  Message_well_formed {| role := assistant; content := Blocks blocks |} ->
  exists text calls,
    translateMessage {| role := assistant; content := Blocks blocks |}
    = [ assistant_message text calls ] /\
    map (fun call => (tool_call_id call, tool_call_name call,
                      JSON.parse (tool_call_arguments call)))
        (default [] calls)
    = map (fun tu => (use_id tu, use_name tu, Some (use_input tu)))
          (block_tool_uses blocks).
Proof.
  intros Hwf. unfold translateMessage. cbn [role content]. cbv zeta.
  eexists _, _. split; [reflexivity|].
  set (toolCalls := flat_map _ blocks).
  assert (Hcalls :
            map (fun call => (tool_call_id call, tool_call_name call,
                              JSON.parse (tool_call_arguments call))) toolCalls
            = map (fun tu => (use_id tu, use_name tu, Some (use_input tu)))
                (block_tool_uses blocks)).
  { unfold toolCalls, block_tool_uses. unfold Message_well_formed in Hwf.
    cbn [content] in Hwf.
    induction Hwf as [|b bs Hb _ IH]; [reflexivity|].
    destruct b as [t | i n input | tid c]; cbn [flat_map app map]; auto.
    cbn [tool_call_id tool_call_name tool_call_arguments use_id use_name
         use_input].
    rewrite (parse_stringify input Hb). f_equal. exact IH. }
  destruct toolCalls as [|call calls] eqn:E; [|exact Hcalls].
  exact Hcalls.
Qed.

Lemma translateMessage_tool_calls_witness :
  exists text calls,
    translateMessage
      {| role := assistant;
         content := Blocks [ text_block "Listing.";
                             tool_use_block "tu_1" "bash"
                               (JObj [("command", JStr "ls")]) ] |}
    = [ assistant_message text calls ] /\
    map (fun call => (tool_call_id call, tool_call_name call,
                      JSON.parse (tool_call_arguments call)))
        (default [] calls)
    = [ ("tu_1", "bash", Some (JObj [("command", JStr "ls")])) ].
Proof.
  destruct (translateMessage_tool_calls
              [ text_block "Listing.";
                tool_use_block "tu_1" "bash" (JObj [("command", JStr "ls")]) ])
    as (text & calls & Heq & Hcalls).
  - repeat constructor.
    cbn [map fst]. apply (bool_decide_unpack _). vm_compute. exact I.
  - exists text, calls. split; [exact Heq | exact Hcalls].
Defined.

(* ===================================================================== *)
(** * The session log: creating, isolating, reading foreign lines          *)
(* ===================================================================== *)

(** X19. Creating a session starts its log afresh. Whatever the world holds,
    also a file of an earlier session with the same id and messages in it,
    loading the session right after [createSession] with that id gives a
    session without messages. *)
Theorem createSession_resets_log (id : string) (w : World) :
  loadSession id (snd (createSession (Some id) w)) =
  Returned {| loaded_id := id; loaded_messages := [];
              loaded_filePath := sessionFilePath w id |}.
Proof.
  assert (Hnone : Forall proper_write []) by constructor.
  exact (proj2 (loadSession_after_writes (Some id) w [] Hnone)).
Qed.







(** X21. The loader checks the type of a line and nothing else. A line that
    holds a JSON object (with distinct keys) whose [type] is the string
    [message] adds one message, with whatever the object has under [role] and
    [content], also nothing at all; a line that holds any other object adds
    nothing. *)
Theorem loadLine_checks_type_only (messages : list StoredMessage)
    (props : list (string * json)) :
  JSON.well_formed (JObj props) ->
  loadLine messages (JSON.stringify (JObj props)) =
  match lookup_property "type" props with
  | Some (JStr "message") =>
      messages ++ [ {| stored_role := lookup_property "role" props;
                      stored_content := lookup_property "content" props |} ]
  | _ => messages
  end.
Proof.
  intros Hwf.
  destruct (proper_line_stringify_object props) as [Hline Hstart].
  rewrite (loadLine_parsed messages _ (JObj props) Hline Hstart
             (parse_stringify _ Hwf)).
  reflexivity.
Qed.

Lemma loadLine_checks_type_only_witness :
  loadLine [] (JSON.stringify (JObj [("type", JStr "message")]))
  = [ {| stored_role := None; stored_content := None |} ] /\
  loadLine [] (JSON.stringify
                 (JObj [("type", JStr "note"); ("role", JStr "user");
                        ("content", JStr "hidden")]))
  = [].
Proof.
  split.
  - apply (loadLine_checks_type_only [] [("type", JStr "message")]).
    apply (proj2 (well_formed_JObj _)). split.
    + cbn [map fst]. apply (bool_decide_unpack _). vm_compute. exact I.
    + repeat constructor.
  - apply (loadLine_checks_type_only []
             [("type", JStr "note"); ("role", JStr "user");
              ("content", JStr "hidden")]).
    apply (proj2 (well_formed_JObj _)). split.
    + cbn [map fst]. apply (bool_decide_unpack _). vm_compute. exact I.
    + repeat constructor.
Defined.

(* ===================================================================== *)
(** * Listing sessions: the time of the last write                         *)
(* ===================================================================== *)

Lemma unlines_app (l1 l2 : list string) :
  unlines (l1 ++ l2) = unlines l1 +:+ unlines l2.
Proof.
  induction l1 as [|l l1 IH]; [reflexivity|].
  cbn [app unlines]. now rewrite IH, !append_assoc.
Qed.

Lemma filter_proper_lines (lines : list string) :
  Forall proper_line lines ->
  List.filter (fun line => truthy (Some line)) lines = lines.
Proof.
  induction 1 as [|l lines (_ & Hne & _) _ IH]; [reflexivity|].
  cbn [List.filter]. rewrite IH. destruct l; [congruence | reflexivity].
Qed.

Lemma lastActiveStep_message (lastActive : option json) (m : Message)
    (timestamp : Z) :
  Message_well_formed m ->
  lastActiveStep lastActive (JSON.stringify (MessageEntry m timestamp))
  = Some (JNum timestamp).
Proof.
  intros Hm. unfold lastActiveStep.
  rewrite (parse_stringify _ (well_formed_MessageEntry m timestamp Hm)).
  reflexivity.
Qed.

(** What the loop makes of a file of proper lines: what its last line
    sets. *)
Lemma lastActiveOf_unlines (header line : string) (lines : list string)
    (v : option json) :
  trimStart header = header ->
  Forall proper_line (header :: lines ++ [line]) ->
  (forall lastActive, lastActiveStep lastActive line = v) ->
  lastActiveOf (unlines (header :: lines ++ [line])) = v.
Proof.
  intros Hstart Hall Hstep. unfold lastActiveOf.
  rewrite split_lines_trim_unlines by assumption.
  rewrite filter_proper_lines by assumption.
  change (header :: lines ++ [line]) with ((header :: lines) ++ [line]).
  rewrite fold_left_app. cbn [fold_left]. apply Hstep.
Qed.

Lemma unlines_snoc (header line : string) (lines : list string) :
  ((header +:+ line_feed) +:+ unlines lines) +:+ (line +:+ line_feed)
  = unlines (header :: lines ++ [line]).
Proof.
  cbn [unlines]. rewrite unlines_app. cbn [unlines].
  now rewrite !append_assoc, append_empty_r.
Qed.

(** X22. A session was last active when its last message was written. For a
    session that was created and then written to, appending one more message
    leaves a file from which [listSessions] computes, as [lastActive], the
    timestamp that [appendMessage] took from the clock for that message. *)
Theorem lastActive_is_last_append (id : option string) (w : World)
    (writes : list Write) (m : Message) :
  Forall proper_write writes -> Message_well_formed m ->
  let before := fold_left perform writes (createSession id w) in
  let after := appendMessage (fst before) m (snd before) in
  exists raw,
    files (snd after) !! session_filePath (fst before) = Some raw /\
    lastActiveOf raw
    = Some (JNum (clock (snd before) (ticks (snd before)))).
Proof.
  intros Hwrites Hm before after.
  assert (Hcreated : exists sessionId createdAt w0,
            createSession id w =
            ({| session_id := sessionId; session_messages := [];
                session_filePath := sessionFilePath w sessionId |}, w0) /\
            files w0 !! sessionFilePath w sessionId =
              Some (JSON.stringify (SessionEntry sessionId createdAt)
                    +:+ line_feed)).
  { unfold createSession.
    destruct id as [i|]; cbn; eexists _, _, _;
      (split; [reflexivity|]);
      unfold writeFileSync, with_files; cbn; apply lookup_insert_eq. }
  destruct Hcreated as (sessionId & createdAt & w0 & Hc & Hfile).
  destruct (perform_writes writes Hwrites
              {| session_id := sessionId; session_messages := [];
                 session_filePath := sessionFilePath w sessionId |}
              w0 _ Hfile)
    as (lines & _ & Hpath & _ & _ & Hf & Hlines & _).
  cbv zeta in Hpath, Hf. rewrite <- Hc in Hpath, Hf.
  fold before in Hpath, Hf.
  cbn [session_filePath] in Hpath, Hf. rewrite <- Hpath in Hf.
  destruct (appendFileSync_lookup (session_filePath (fst before))
              (JSON.stringify
                 (MessageEntry m (clock (snd before) (ticks (snd before))))
               +:+ line_feed) (tick (snd before)) _ Hf) as [Hnew _].
  rewrite unlines_snoc in Hnew.
  eexists. split.
  - unfold after. rewrite appendMessage_eq. exact Hnew.
  - destruct (proper_line_stringify_object
                [("type", JStr "session"); ("id", JStr sessionId);
                 ("createdAt", JNum createdAt)]) as [Hheader Hstart].
    apply lastActiveOf_unlines.
    + exact Hstart.
    + constructor; [exact Hheader|]. apply Forall_app. split; [exact Hlines|].
      constructor; [|constructor].
      apply (proper_line_stringify_object
               [("type", JStr "message"); ("role", Role_value (role m));
                ("content", Content_value (content m));
                ("timestamp", JNum (clock (snd before) (ticks (snd before))))]).
    + intros lastActive. now apply lastActiveStep_message.
Qed.

Lemma lastActive_is_last_append_witness :
  let w := {| home := "/home/user"; files := ∅;
              clock := fun n => 1700000000000 + Z.of_nat n;
              uuids := fun _ => "00000000-0000-4000-8000-000000000000";
              ticks := 0 |} in
  let created := createSession (Some "s1") w in
  let after := appendMessage (fst created)
                 {| role := user; content := Str "Hello" |} (snd created) in
  exists raw,
    files (snd after) !! "/home/user/.slimclaw/sessions/s1.jsonl" = Some raw /\
    lastActiveOf raw = Some (JNum 1700000000001).
Proof.
  intros w created after.
  destruct (lastActive_is_last_append (Some "s1") w []
              {| role := user; content := Str "Hello" |}
              ltac:(constructor) I) as (raw & Hfile & Hlast).
  exists raw. split; [exact Hfile | exact Hlast].
Defined.

(* ===================================================================== *)
(** * The file tools                                                       *)
(* ===================================================================== *)

Lemma count_matches_nonneg (p : string) (skip : nat) (s : string) :
  0 <= count_matches p skip s.
Proof.
  revert skip. induction s as [|c r IH]; intros skip;
    cbn [count_matches]; [lia|].
  destruct skip as [|k]; [|apply IH].
  destruct (String.prefix p (String c r)).
  - specialize (IH (String.length p - 1)%nat). lia.
  - apply IH.
Qed.

Lemma count_matches_le (p : string) (skip i : nat) (s : string) :
  count_matches p skip s <= Z.of_nat (length (positions_from p i s)).
Proof.
  revert skip i. induction s as [|c r IH]; intros skip i;
    cbn [count_matches positions_from]; [simpl; lia|].
  rewrite length_app.
  destruct skip as [|k].
  - destruct (String.prefix p (String c r)); cbn [length].
    + specialize (IH (String.length p - 1)%nat (S i)). lia.
    + specialize (IH 0%nat (S i)). lia.
  - specialize (IH k (S i)). lia.
Qed.

Lemma count_matches_pos (p : string) (i : nat) (s : string) :
  positions_from p i s <> [] -> 1 <= count_matches p 0 s.
Proof.
  revert i. induction s as [|c r IH]; intros i;
    cbn [count_matches positions_from]; [congruence|].
  destruct (String.prefix p (String c r)).
  - intros _. pose proof (count_matches_nonneg p (String.length p - 1) r). lia.
  - cbn [app]. apply IH.
Qed.

Lemma prefix_split (p s : string) :
  String.prefix p s = true ->
  s = p +:+ drop_chars (String.length p) s.
Proof.
  revert s. induction p as [|a p IH]; intros s; [reflexivity|].
  destruct s as [|b s]; simpl; [discriminate|].
  destruct (Ascii.ascii_dec a b) as [-> | Hne]; [|discriminate].
  intros H. rewrite append_String. f_equal. now apply IH.
Qed.

(** The first position at which the pattern occurs is where [find_first]
    cuts. *)
Lemma find_first_positions (p s : string) (i j : nat) (rest : list nat) :
  p <> "" ->
  positions_from p i s = j :: rest ->
  (i <= j)%nat /\
  find_first p s =
    Some (take_chars (j - i) s, drop_chars (j - i + String.length p) s) /\
  s = take_chars (j - i) s +:+ p
      +:+ drop_chars (j - i + String.length p) s.
Proof.
  intros Hp. revert i. induction s as [|c r IH]; intros i; [discriminate|].
  cbn [positions_from].
  destruct (String.prefix p (String c r)) eqn:E.
  - cbn [app]. intros [= <- _]. split; [lia|].
    replace (i - i)%nat with 0%nat by lia. cbn [take_chars Nat.add].
    split.
    + destruct p as [|a p]; [congruence|].
      cbn [find_first]. fold (String.prefix (String a p) (String c r)).
      now rewrite E.
    + change ("" +:+ p +:+ ?x) with (p +:+ x). now apply prefix_split.
  - cbn [app]. intros H. destruct (IH (S i) H) as (Hle & Hfind & Hs).
    split; [lia|].
    replace (j - i)%nat with (S (j - S i)) by lia.
    cbn [take_chars Nat.add drop_chars]. split.
    + destruct p as [|a p]; [congruence|].
      cbn [find_first]. fold (String.prefix (String a p) (String c r)).
      rewrite E. fold (find_first (String a p) r). now rewrite Hfind.
    + rewrite append_String. f_equal. exact Hs.
Qed.

Lemma GetSubstitution_no_dollar (matched before after template : string) :
  no_dollar template ->
  GetSubstitution matched before after template = template.
Proof.
  induction template as [|d rest IH]; [reflexivity|].
  intros [Hd Hrest]. cbn [GetSubstitution].
  destruct (Ascii.eqb_spec d "$"); [contradiction|].
  f_equal. now apply IH.
Qed.

Lemma GetSubstitution_app (matched before after pre rest : string) :
  no_dollar pre ->
  GetSubstitution matched before after (pre +:+ rest)
  = pre +:+ GetSubstitution matched before after rest.
Proof.
  induction pre as [|d pre IH]; [reflexivity|].
  intros [Hd Hpre]. rewrite !append_String. cbn [GetSubstitution].
  destruct (Ascii.eqb_spec d "$"); [contradiction|].
  f_equal. now apply IH.
Qed.

(** What [edit_file] does when the old string occurs at exactly one
    position. *)
Lemma editFile_execute_unique (filePath oldString newString : string)
    (w : World) (content : string) (i : nat) :
  files w !! filePath = Some content ->
  oldString <> "" ->
  positions oldString content = [i] ->
  let before := take_chars i content in
  let after := drop_chars (i + String.length oldString) content in
  content = before +:+ oldString +:+ after /\
  editFile_execute filePath oldString newString w =
  ("Successfully edited " +:+ filePath,
   writeFileSync filePath
     (before +:+ GetSubstitution oldString before after newString +:+ after) w).
Proof.
  intros Hfile Hold Hpos before after.
  destruct (find_first_positions oldString content 0 i [] Hold Hpos)
    as (_ & Hfind & Hcontent).
  rewrite Nat.sub_0_r in Hfind, Hcontent. fold before after in Hfind, Hcontent.
  split; [exact Hcontent|].
  unfold editFile_execute. rewrite Hfile. cbv zeta.
  assert (Hcount : split_length oldString content - 1 = 1).
  { unfold split_length. destruct oldString as [|a p]; [congruence|].
    pose proof (count_matches_le (String a p) 0 0 content) as Hle.
    fold (positions (String a p) content) in Hle. rewrite Hpos in Hle.
    pose proof (count_matches_pos (String a p) 0 content) as Hge.
    fold (positions (String a p) content) in Hge. rewrite Hpos in Hge.
    specialize (Hge ltac:(discriminate)). simpl in Hle. lia. }
  rewrite Hcount. cbn [Z.eqb Z.gtb Z.compare Pos.compare Pos.compare_cont].
  unfold String_replace. now rewrite Hfind.
Qed.

(** X23. [edit_file] replaces the one occurrence. When the file exists, the
    old string is not empty and occurs at exactly one position of the file,
    and the new string holds no dollar sign, [edit_file] reports success and
    leaves in the file what preceded the occurrence, the new string, and what
    followed the occurrence; every other file is as it was. *)
Theorem editFile_replaces_unique (filePath oldString newString : string)
    (w : World) (content : string) (i : nat) :
  files w !! filePath = Some content ->
  oldString <> "" ->
  positions oldString content = [i] ->
  no_dollar newString ->
  let before := take_chars i content in
  let after := drop_chars (i + String.length oldString) content in
  let '(result, w') := editFile_execute filePath oldString newString w in
  content = before +:+ oldString +:+ after /\
  result = "Successfully edited " +:+ filePath /\
  files w' !! filePath = Some (before +:+ newString +:+ after) /\
  forall other, other <> filePath -> files w' !! other = files w !! other.
Proof.
  intros Hfile Hold Hpos Hnew before after.
  destruct (editFile_execute_unique filePath oldString newString w content i
              Hfile Hold Hpos) as [Hcontent ->].
  fold before after. rewrite GetSubstitution_no_dollar by assumption.
  split; [exact Hcontent|]. split; [reflexivity|].
  unfold writeFileSync, with_files. cbn [files]. split.
  - apply lookup_insert_eq.
  - intros other Hne. now apply lookup_insert_ne.
Qed.

Lemma editFile_replaces_unique_witness :
  let w := {| home := "/home/user";
              files := {[ "notes.txt" := "alpha beta gamma" ]};
              clock := fun _ => 0; uuids := fun _ => ""; ticks := 0 |} in
  files (snd (editFile_execute "notes.txt" "beta" "delta" w)) !! "notes.txt"
  = Some "alpha delta gamma".
Proof.
  intros w.
  pose proof (editFile_replaces_unique "notes.txt" "beta" "delta" w
                "alpha beta gamma" 6 eq_refl ltac:(discriminate) eq_refl
                ltac:(repeat split; discriminate)) as H.
  cbv zeta in H.
  destruct (editFile_execute "notes.txt" "beta" "delta" w) as [result w'].
  destruct H as (_ & _ & Hfile & _). exact Hfile.
Defined.

(** X24. The new string of [edit_file] is a replacement pattern, not plain
    text. Under the same conditions on the old string, a new string made of
    text without dollar signs around the two characters [$$] is written with
    a single dollar sign in their place, and around the two characters [$&]
    it is written with the old string in their place. *)
Theorem editFile_new_string_is_a_pattern (filePath oldString pre post : string)
    (w : World) (content : string) (i : nat) :
  files w !! filePath = Some content ->
  oldString <> "" ->
  positions oldString content = [i] ->
  no_dollar pre -> no_dollar post ->
  let before := take_chars i content in
  let after := drop_chars (i + String.length oldString) content in
  files (snd (editFile_execute filePath oldString (pre +:+ "$$" +:+ post) w))
    !! filePath
  = Some (before +:+ (pre +:+ "$" +:+ post) +:+ after) /\
  files (snd (editFile_execute filePath oldString (pre +:+ "$&" +:+ post) w))
    !! filePath
  = Some (before +:+ (pre +:+ oldString +:+ post) +:+ after).
Proof.
  intros Hfile Hold Hpos Hpre Hpost before after.
  split.
  - destruct (editFile_execute_unique filePath oldString
                (pre +:+ "$$" +:+ post) w content i Hfile Hold Hpos)
      as [_ ->].
    fold before after. cbn [snd]. unfold writeFileSync, with_files.
    cbn [files]. rewrite lookup_insert_eq. do 2 f_equal.
    rewrite GetSubstitution_app by assumption. f_equal.
    change ("$$" +:+ post) with (String "$" (String "$" post)).
    cbn [GetSubstitution Ascii.eqb Bool.eqb].
    now rewrite GetSubstitution_no_dollar.
  - destruct (editFile_execute_unique filePath oldString
                (pre +:+ "$&" +:+ post) w content i Hfile Hold Hpos)
      as [_ ->].
    fold before after. cbn [snd]. unfold writeFileSync, with_files.
    cbn [files]. rewrite lookup_insert_eq. do 2 f_equal.
    rewrite GetSubstitution_app by assumption. f_equal.
    change ("$&" +:+ post) with (String "$" (String "&" post)).
    cbn [GetSubstitution Ascii.eqb Bool.eqb].
    now rewrite GetSubstitution_no_dollar.
Qed.

Lemma editFile_new_string_is_a_pattern_witness :
  let w := {| home := "/home/user";
              files := {[ "Makefile" := "run: PRICE" ]};
              clock := fun _ => 0; uuids := fun _ => ""; ticks := 0 |} in
  files (snd (editFile_execute "Makefile" "PRICE" "echo $$HOME" w)) !! "Makefile"
  = Some "run: echo $HOME".
Proof.
  intros w.
  exact (proj1 (editFile_new_string_is_a_pattern "Makefile" "PRICE" "echo "
                  "HOME" w "run: PRICE" 5 eq_refl ltac:(discriminate) eq_refl
                  ltac:(repeat split; discriminate)
                  ltac:(repeat split; discriminate))).
Defined.

Lemma Array_slice_from {X : Type} (l : list X) (b : Z) (i : nat) :
  0 <= b ->
  Array_slice l b (Z.of_nat (length l)) !! i = l !! (Z.to_nat b + i)%nat.
Proof.
  intros Hb. unfold Array_slice.
  destruct (b <? 0) eqn:E; [apply Z.ltb_lt in E; lia|].
  destruct (Z.of_nat (length l) <? 0) eqn:E'; [apply Z.ltb_lt in E'; lia|].
  rewrite Z.min_id.
  destruct (Z_le_gt_dec b (Z.of_nat (length l))) as [Hle | Hgt].
  - rewrite Z.min_l by lia. rewrite take_ge.
    + apply lookup_drop.
    + rewrite length_drop. lia.
  - rewrite Z.min_r by lia. rewrite Z.sub_diag.
    change (Z.to_nat (Z.max 0 0)) with 0%nat. rewrite take_0, lookup_nil.
    symmetry. apply lookup_ge_None. lia.
Qed.

Lemma Array_slice_first {X : Type} (l : list X) (e : Z) (i : nat) :
  0 <= e ->
  Array_slice l 0 e !! i = if Z.of_nat i <? e then l !! i else None.
Proof.
  intros He. unfold Array_slice. change (0 <? 0) with false. cbv iota.
  destruct (e <? 0) eqn:E; [apply Z.ltb_lt in E; lia|].
  rewrite (Z.min_l 0) by lia. change (Z.to_nat 0) with 0%nat.
  rewrite drop_0, Z.sub_0_r.
  destruct (Z.of_nat i <? e) eqn:Hi.
  - apply Z.ltb_lt in Hi.
    destruct (Z_le_gt_dec e (Z.of_nat (length l))) as [Hle | Hgt].
    + rewrite Z.min_l by lia. apply lookup_take_lt. lia.
    + rewrite Z.min_r by lia. rewrite take_ge by lia. reflexivity.
  - apply Z.ltb_ge in Hi. apply lookup_take_ge. lia.
Qed.

(** X25. [read_file] labels every line with its number in the file. For an
    offset of at least 1 (and a limit that is absent or not negative), the
    [i]-th line that [read_file] puts out, counted from 0, is there exactly
    when [i] is below the limit and the file has a line number [offset + i];
    it then is that line of the file behind its number [offset + i], padded
    to six characters, and a tab. An offset that is left out counts as 1. *)
Theorem readFile_numbers_lines (content : string) (offset : Z)
    (limit : option Z) (i : nat) :
  1 <= offset ->
  (forall l, limit = Some l -> 0 <= l) ->
  readFile_numbered content (Some offset) limit !! i =
  (if within_limit limit i
   then (fun line =>
           padStart6 (Number_toString (offset + Z.of_nat i)) +:+ tab +:+ line)
        <$> split_lines content !! (Z.to_nat (offset - 1) + i)%nat
   else None) /\
  readFile_numbered content None limit = readFile_numbered content (Some 1) limit.
Proof.
  intros Hoffset Hlimit. split; [|reflexivity].
  unfold readFile_numbered.
  change (default 1 (Some offset)) with offset. cbv zeta.
  rewrite list_lookup_imap.
  replace (Z.max 0 (offset - 1)) with (offset - 1) by lia.
  replace (offset - 1 + Z.of_nat i + 1) with (offset + Z.of_nat i) by lia.
  destruct limit as [l|]; cbn [within_limit].
  - rewrite Array_slice_first by (apply (Hlimit l); reflexivity).
    destruct (Z.of_nat i <? l); [|reflexivity].
    rewrite Array_slice_from by lia. reflexivity.
  - rewrite Array_slice_from by lia. reflexivity.
Qed.

Lemma readFile_numbers_lines_witness :
  readFile_numbered (String "a" (String newline (String "b" (String newline "c"))))
    (Some 2) (Some 1) !! 0%nat
  = Some (padStart6 "2" +:+ tab +:+ "b").
Proof.
  exact (proj1 (readFile_numbers_lines
                  (String "a" (String newline (String "b" (String newline "c"))))
                  2 (Some 1) 0 ltac:(lia)
                  ltac:(intros l [= <-]; lia))).
Defined.

(* ===================================================================== *)
(** * Sub-agents                                                           *)
(* ===================================================================== *)

Lemma find_subTools (name : string) (tools : list Tool) :
  List.find (fun t => String.eqb (tool_name (definition t)) name) (subTools tools)
  = if String.eqb name "spawn_agent" then None
    else List.find (fun t => String.eqb (tool_name (definition t)) name) tools.
Proof.
  unfold subTools. induction tools as [|t tools IH].
  - simpl. now destruct (String.eqb name "spawn_agent").
  - cbn [List.filter List.find].
    destruct (String.eqb_spec (tool_name (definition t)) "spawn_agent")
      as [Hspawn | Hother]; cbn [negb].
    + rewrite IH. destruct (String.eqb_spec name "spawn_agent") as [-> | Hne];
        [reflexivity|].
      rewrite Hspawn.
      destruct (String.eqb_spec "spawn_agent" name); [congruence | reflexivity].
    + cbn [List.find]. rewrite IH.
      destruct (String.eqb_spec (tool_name (definition t)) name)
        as [Hname | Hname]; [|reflexivity].
      destruct (String.eqb_spec name "spawn_agent"); [congruence | reflexivity].
Qed.

(** X26. A sub-agent has the tools of its parent, without [spawn_agent]. No
    tool that a sub-agent is given is named [spawn_agent]; a request of the
    sub-agent's model for [spawn_agent] is answered with the unknown-tool
    string, whatever tools the parent has; and every other request is
    answered as the parent's tools would answer it. *)
Theorem subTools_exclude_spawn_agent (tools : list Tool) :
  Forall (fun t => tool_name (definition t) <> "spawn_agent") (subTools tools) /\
  (forall input,
     executeTool "spawn_agent" input (subTools tools)
     = Returned ("Error: Unknown tool " +:+ quoted "spawn_agent")) /\
  (forall name input,
     name <> "spawn_agent" ->
     executeTool name input (subTools tools) = executeTool name input tools).
Proof.
  split; [|split].
  - apply Forall_forall. intros t Ht. unfold subTools in Ht.
    apply list_elem_of_In, filter_In in Ht as [_ Ht].
    apply negb_true_iff in Ht.
    destruct (String.eqb_spec (tool_name (definition t)) "spawn_agent");
      [discriminate | assumption].
  - intros input. unfold executeTool. now rewrite find_subTools.
  - intros name input Hne. unfold executeTool. rewrite find_subTools.
    destruct (String.eqb_spec name "spawn_agent"); [contradiction | reflexivity].
Qed.

Lemma subTools_exclude_spawn_agent_witness :
  let echoTool :=
    {| definition := {| tool_name := "echo"; tool_description := "Test tool: echo";
                        input_schema := JObj [("type", JStr "object")] |};
       execute := fun _ => Returned "Echo" |} in
  let spawnTool :=
    {| definition := {| tool_name := "spawn_agent";
                        tool_description := "Spawn a sub-agent";
                        input_schema := JObj [("type", JStr "object")] |};
       execute := fun _ => Returned "spawned" |} in
  executeTool "spawn_agent" (JObj []) (subTools [echoTool; spawnTool])
  = Returned ("Error: Unknown tool " +:+ quoted "spawn_agent") /\
  executeTool "echo" (JObj []) (subTools [echoTool; spawnTool])
  = executeTool "echo" (JObj []) [echoTool; spawnTool].
Proof.
  intros echoTool spawnTool.
  destruct (subTools_exclude_spawn_agent [echoTool; spawnTool])
    as (_ & Hspawn & Hother).
  split; [apply Hspawn | apply Hother; discriminate].
Defined.

Lemma textOf_app (l1 l2 : list StreamEvent) :
  textOf (l1 ++ l2) = textOf l1 +:+ textOf l2.
Proof.
  induction l1 as [|e l1 IH]; [reflexivity|].
  destruct e; cbn [app textOf]; rewrite ?IH; try reflexivity.
  now rewrite append_assoc.
Qed.




(* ===================================================================== *)
(** * Chunks of a memory file                                              *)
(* ===================================================================== *)

Lemma length_trimStart (s : string) :
  (String.length (trimStart s) <= String.length s)%nat.
Proof.
  induction s as [|c s IH]; simpl; [lia|].
  destruct (is_space c); simpl; lia.
Qed.

Lemma length_trimEnd (s : string) :
  (String.length (trimEnd s) <= String.length s)%nat.
Proof.
  induction s as [|c s IH]; simpl; [lia|].
  destruct (trimEnd s); [destruct (is_space c)|]; simpl in *; lia.
Qed.

Lemma trimStart_line_feed (x : string) :
  trimStart (x +:+ line_feed) = "" \/
  trimStart (x +:+ line_feed) = trimStart x +:+ line_feed.
Proof.
  induction x as [|c x IH]; [now left|].
  rewrite append_String. cbn [trimStart].
  destruct (is_space c); [exact IH | now right].
Qed.

(** Trimming takes at least the line feed that ends [current]. *)
Lemma str_length_trim_line_feed (x : string) :
  str_length (trim (x +:+ line_feed)) <= str_length x.
Proof.
  unfold trim, str_length.
  destruct (trimStart_line_feed x) as [-> | ->]; [simpl; lia|].
  rewrite trimEnd_line_feed.
  pose proof (length_trimEnd (trimStart x)).
  pose proof (length_trimStart x). lia.
Qed.

(** The loop keeps every chunk, and [current] without its last line feed,
    within [maxChars]. *)
Lemma fold_chunkStep_bound (maxChars : Z) (blocks : list string) :
  Forall (fun block => str_length block <= maxChars) blocks ->
  forall chunks current,
    Forall (fun chunk => str_length chunk <= maxChars) chunks ->
    (current = "" \/
     exists x, current = x +:+ line_feed /\ str_length x <= maxChars) ->
    let '(chunks', current') :=
      fold_left (chunkStep maxChars) blocks (chunks, current) in
    Forall (fun chunk => str_length chunk <= maxChars) chunks' /\
    str_length (trim current') <= Z.max maxChars 0.
Proof.
  induction 1 as [|block blocks Hblock _ IH]; intros chunks current Hchunks Hcur.
  - cbn [fold_left]. split; [exact Hchunks|].
    destruct Hcur as [-> | (x & -> & Hx)];
      [change (str_length (trim "")) with 0; lia|].
    pose proof (str_length_trim_line_feed x). lia.
  - cbn [fold_left]. unfold chunkStep at 2.
    destruct ((str_length current + str_length block >? maxChars)
              && (str_length current >? 0)) eqn:E.
    + apply IH.
      * apply Forall_app. split; [exact Hchunks|]. constructor; [|constructor].
        destruct Hcur as [-> | (x & -> & Hx)].
        { apply andb_true_iff in E as [_ E]. discriminate. }
        pose proof (str_length_trim_line_feed x). lia.
      * right. exists block. split; [reflexivity | exact Hblock].
    + apply IH; [exact Hchunks|].
      right. destruct Hcur as [-> | (x & -> & Hx)].
      * exists block. split; [reflexivity | exact Hblock].
      * exists (x +:+ line_feed +:+ block). split; [now rewrite !append_assoc|].
        apply andb_false_iff in E as [E | E].
        -- rewrite Z.gtb_ltb in E. apply Z.ltb_ge in E.
           rewrite !str_length_append in *. lia.
        -- rewrite Z.gtb_ltb in E. apply Z.ltb_ge in E.
           rewrite str_length_append in E.
           pose proof (str_length_nonneg x).
           change (str_length line_feed) with 1 in E. lia.
Qed.

Lemma split_blocks_nonempty (s : string) : split_blocks s <> [].
Proof.
  induction s as [|c r IH]; [discriminate|].
  cbn [split_blocks].
  assert (Hplain : match split_blocks r with
                   | l :: ls => String c l :: ls
                   | [] => [String c EmptyString]
                   end <> []) by (destruct (split_blocks r); discriminate).
  destruct (JSON.code c =? 13).
  - destruct r as [|c' r']; [exact Hplain|].
    destruct ((JSON.code c' =? 10) && block_boundary r');
      [discriminate | exact Hplain].
  - destruct ((JSON.code c =? 10) && block_boundary r);
      [discriminate | exact Hplain].
Qed.

(** X28. Chunks keep to the size limit. When no block of the text (a piece
    between two paragraph or heading boundaries) is longer than the limit of
    [maxTokens * 4] characters, no chunk that [splitIntoChunks] returns is
    longer than that limit; and a text within the limit comes back as the
    one chunk, unchanged. *)
Theorem splitIntoChunks_bound (text : string) (maxTokens : Z) :
  Forall (fun block => str_length block <= maxTokens * 4) (split_blocks text) ->
  Forall (fun chunk => str_length chunk <= maxTokens * 4)
    (splitIntoChunks text maxTokens) /\
  (str_length text <= maxTokens * 4 -> splitIntoChunks text maxTokens = [text]).
Proof.
  intros Hblocks. unfold splitIntoChunks. cbv zeta.
  destruct (str_length text <=? maxTokens * 4) eqn:E.
  - apply Z.leb_le in E. split; [|reflexivity].
    constructor; [exact E | constructor].
  - apply Z.leb_gt in E. split; [|lia].
    pose proof (fold_chunkStep_bound (maxTokens * 4) (split_blocks text)
                  Hblocks [] "" ltac:(constructor) ltac:(now left)) as H.
    destruct (fold_left (chunkStep (maxTokens * 4)) (split_blocks text) ([], ""))
      as [chunks current].
    destruct H as [Hchunks Hcurrent].
    assert (Hmax : 0 <= maxTokens * 4).
    { pose proof (split_blocks_nonempty text) as Hne.
      destruct Hblocks as [|block blocks Hblock _]; [congruence|].
      pose proof (str_length_nonneg block). lia. }
    destruct (truthy (Some (trim current))); [|exact Hchunks].
    apply Forall_app. split; [exact Hchunks|].
    constructor; [lia | constructor].
Qed.

Lemma splitIntoChunks_bound_witness :
  let text := "one" +:+ line_feed +:+ line_feed +:+ "two" +:+ line_feed
              +:+ "# three" in
  splitIntoChunks text 2
  = ["one" +:+ line_feed +:+ line_feed +:+ "two"; "# three"] /\
  Forall (fun chunk => str_length chunk <= 2 * 4) (splitIntoChunks text 2).
Proof.
  intros text. split; [vm_compute; reflexivity|].
  apply (splitIntoChunks_bound text 2).
  vm_compute. repeat constructor; discriminate.
Defined.
